(** * BatchReader: SQL rows to Arrow record batches

    A shallow embedding of [pkg/infrastructure/converter/batch_reader.go].
    The reader pulls rows from a [database/sql] cursor, appends them into the
    field builders of an Arrow record builder and emits reference-counted
    record batches.  Go panics (failed type assertions, out-of-range indexing,
    nil dereferences) are part of the model: a function that can panic
    returns an [Outcome]. *)

From stdpp Require Import base option list gmap strings pretty.
From Stdlib Require Import ZArith Lia.
From Stdlib.Init Require Import Byte.

Local Open Scope Z_scope.

(** ** Machine integers *)

(** Conversion of an integer to Go's [int32] and [int64]: wrap-around. *)
Definition wrap_int32 (z : Z) : Z := (z + 2 ^ 31) `mod` 2 ^ 32 - 2 ^ 31.
Definition wrap_int64 (z : Z) : Z := (z + 2 ^ 63) `mod` 2 ^ 64 - 2 ^ 63.

(** Floating point numbers are carried as IEEE-754 bit patterns; the reader
    never computes with them, except for the narrowing [float32(x)], which is
    kept symbolic. *)
Definition float64 := Z.

Inductive float32 :=
| F32 (bits : Z)
| F32_of_float64 (x : float64).

(** ** Package [time] *)

Module time.

(** A [time.Time]: an instant (seconds and nanoseconds since the Unix
    epoch) together with the UTC offset of its location, which decides the
    wall-clock reading. *)
Record Time := {
  sec : Z;
  nsec : Z;
  offset : Z
}.

Definition Unix (t : Time) : Z := sec t.
Definition UnixMilli (t : Time) : Z :=
  wrap_int64 (sec t * 1000 + nsec t `quot` 1000000).
Definition UnixMicro (t : Time) : Z :=
  wrap_int64 (sec t * 1000000 + nsec t `quot` 1000).

(** Seconds of the wall clock, counted from an instant that is midnight.
    Go keeps the count in a [uint64]: the seconds since the midnight that
    lies [unixToAbsolute] seconds before the Unix epoch.  For a wall clock
    before that origin the count wraps around. *)
Definition unixToAbsolute : Z := 9223372028715321600.
Definition abs (t : Time) : Z :=
  (sec t + offset t + unixToAbsolute) `mod` 2 ^ 64.

Definition Hour (t : Time) : Z := (abs t `mod` 86400) `quot` 3600.
Definition Minute (t : Time) : Z := (abs t `mod` 3600) `quot` 60.
Definition Second (t : Time) : Z := abs t `mod` 60.
Definition Nanosecond (t : Time) : Z := nsec t.

(** The zero value: January 1, year 1, 00:00:00 UTC. *)
Definition zero : Time := {| sec := -62135596800; nsec := 0; offset := 0 |}.

(** Times the Go runtime can represent. *)
Definition valid (t : Time) : Prop := 0 ≤ nsec t < 1000000000.

End time.

(** ** Package [errors] of the repository *)

Module errors.

(** Modelled from the spec: the package [pkg/errors] is not among the
    sources.  The spec's taxonomy names [Internal] (invariant violation in
    the core, such as a builder/scan type mismatch) and [QueryFailed] (the
    backend reported an error; the backend message is carried along). *)
Inductive Code := CodeInternal | CodeQueryFailed.

Inductive error :=
| Foreign (msg : string)                        (* an error of the driver *)
| Coded (code : Code) (msg : string)
| Wrapped (cause : error) (code : Code) (msg : string).

Definition New (code : Code) (msg : string) : error := Coded code msg.
Definition Wrap (err : error) (code : Code) (msg : string) : error :=
  Wrapped err code msg.
(** [Wrapf] with the one format the reader uses: a message ending in [%d]. *)
Definition Wrapf (err : error) (code : Code) (msg : string) (arg : nat)
  : error := Wrapped err code (msg +:+ pretty arg).

(** The code an error carries, if any. *)
Definition code_of (e : error) : option Code :=
  match e with
  | Foreign _ => None
  | Coded c _ => Some c
  | Wrapped _ c _ => Some c
  end.

(** The message at the root of a chain of wrapped errors. *)
Fixpoint root_msg (e : error) : string :=
  match e with
  | Foreign m => m
  | Coded _ m => m
  | Wrapped cause _ _ => root_msg cause
  end.

End errors.

Export errors(error).

(** ** Outcomes of Go calls *)

(** A call that returns an [error] and may panic. *)
Inductive Outcome (A : Type) :=
| Ok (a : A)
| Err (e : error)
| Panic.

Arguments Ok {A} a.
Arguments Err {A} e.
Arguments Panic {A}.

Definition obind {A B} (m : Outcome A) (k : A → Outcome B) : Outcome B :=
  match m with
  | Ok a => k a
  | Err e => Err e
  | Panic => Panic
  end.

Notation "x ←! m ; k" := (obind m (fun x => k))
  (at level 100, m at next level, right associativity, only parsing).

(** ** Package [arrow]: types, fields, builders *)

Module arrow.

(** The type ids the reader distinguishes; [OTHER] stands for every
    remaining Arrow type (NULL, FLOAT16, LARGE_STRING, LIST, ...). *)
Inductive Type_ID :=
| BOOL
| INT8 | UINT8 | INT16 | UINT16 | INT32 | UINT32 | INT64 | UINT64
| FLOAT32 | FLOAT64
| STRING | BINARY
| DATE32 | DATE64 | TIME32 | TIME64 | TIMESTAMP
| DECIMAL | DECIMAL256
| OTHER (id : nat).

Record Field := {
  Name : string;
  Type_ : Type_ID;
  Nullable : bool
}.

Definition Schema := list Field.

End arrow.

Module array.

(** The dynamic type of a field builder. *)
Inductive Kind :=
| BooleanBuilder
| Int8Builder | Uint8Builder | Int16Builder | Uint16Builder
| Int32Builder | Uint32Builder | Int64Builder | Uint64Builder
| Float32Builder | Float64Builder
| StringBuilder | BinaryBuilder
| Date32Builder | Date64Builder | Time32Builder | Time64Builder
| TimestampBuilder
| Decimal128Builder | Decimal256Builder
| OtherBuilder (id : nat).

#[global] Instance Kind_eq_dec : EqDecision Kind.
Proof. solve_decision. Defined.

(** The value of one slot of a column.  Integers of every width, and the
    temporal types (which Arrow defines as integers), are [VInt]; the
    builder's kind tells the logical type. *)
Inductive Cell :=
| Null
| VBool (b : bool)
| VInt (z : Z)
| VFloat32 (x : float32)
| VFloat64 (x : float64)
| VString (s : string)
| VBinary (bs : list byte).

(** A field builder: its kind and the slots appended so far, oldest
    first. *)
Record Builder := {
  kind : Kind;
  vals : list Cell
}.

Definition push (c : Cell) (fb : Builder) : Builder :=
  {| kind := kind fb; vals := vals fb ++ [c] |}.

(** [fb.AppendNull()] *)
Definition AppendNull (fb : Builder) : Outcome Builder := Ok (push Null fb).

(** [Append] of the builder type [K], after the type assertion of [fb] to
    [K]: the assertion panics when the builder is of another kind. *)
Definition Append (k : Kind) (c : Cell) (fb : Builder) : Outcome Builder :=
  if decide (kind fb = k) then Ok (push c fb) else Panic.

(** The builder [array.NewBuilder] makes for a type. *)
Definition kind_of (t : arrow.Type_ID) : Kind :=
  match t with
  | arrow.BOOL => BooleanBuilder
  | arrow.INT8 => Int8Builder
  | arrow.UINT8 => Uint8Builder
  | arrow.INT16 => Int16Builder
  | arrow.UINT16 => Uint16Builder
  | arrow.INT32 => Int32Builder
  | arrow.UINT32 => Uint32Builder
  | arrow.INT64 => Int64Builder
  | arrow.UINT64 => Uint64Builder
  | arrow.FLOAT32 => Float32Builder
  | arrow.FLOAT64 => Float64Builder
  | arrow.STRING => StringBuilder
  | arrow.BINARY => BinaryBuilder
  | arrow.DATE32 => Date32Builder
  | arrow.DATE64 => Date64Builder
  | arrow.TIME32 => Time32Builder
  | arrow.TIME64 => Time64Builder
  | arrow.TIMESTAMP => TimestampBuilder
  | arrow.DECIMAL => Decimal128Builder
  | arrow.DECIMAL256 => Decimal256Builder
  | arrow.OTHER id => OtherBuilder id
  end.

Definition NewBuilder (t : arrow.Type_ID) : Builder :=
  {| kind := kind_of t; vals := [] |}.

End array.

(** ** Scan destinations *)

(** What an [interface{}] cell holds after a scan into a dynamic slot.  The
    kinds the switch of [appendDynamicValue] names are constructors of their
    own; [DInt] is a Go [int] and [DOpaque] any other type. *)
Inductive Dynamic :=
| DBool (v : bool)
| DInt64 (v : Z)
| DFloat64 (v : float64)
| DString (v : string)
| DBytes (v : list byte)
| DTime (v : time.Time)
| DInt (v : Z)
| DOpaque (tyname : string).

(** The elements of [rowDest].  A pointer the code compares with [nil] holds
    an [option]; [None] is the nil pointer.  [PBytes] and [PInterface] point
    to a value that can itself be nil.  The [sql.Null*] structs carry their
    validity flag and their value.  [PPUint16], [PPUint32] and [PPUint64] are
    the pointers to pointers [**uint16], [**uint32], [**uint64]. *)
Inductive ScanDest :=
| PBool (v : option bool)
| NullBool (Valid : bool) (Bool_ : bool)
| PInt8 (v : option Z)
| PUint8 (v : option Z)
| NullByte (Valid : bool) (Byte_ : Z)
| PInt16 (v : option Z)
| PUint16 (v : option Z)
| NullInt16 (Valid : bool) (Int16 : Z)
| PInt32 (v : option Z)
| PUint32 (v : option Z)
| NullInt32 (Valid : bool) (Int32 : Z)
| PInt64 (v : option Z)
| PUint64 (v : option Z)
| NullInt64 (Valid : bool) (Int64 : Z)
| PFloat32 (v : option float32)
| PFloat64 (v : option float64)
| NullFloat64 (Valid : bool) (Float64 : float64)
| PString (v : option string)
| NullString (Valid : bool) (String_ : string)
| PBytes (v : option (option (list byte)))
| PTime (v : option time.Time)
| NullTime (Valid : bool) (Time_ : time.Time)
| PInterface (v : option (option Dynamic))
| PPUint16 (v : option (option Z))
| PPUint32 (v : option (option Z))
| PPUint64 (v : option (option Z)).

(** [reflect.TypeOf(value).String()] *)
Definition type_name (value : ScanDest) : string :=
  match value with
  | PBool _ => "*bool"
  | NullBool _ _ => "*sql.NullBool"
  | PInt8 _ => "*int8"
  | PUint8 _ => "*uint8"
  | NullByte _ _ => "*sql.NullByte"
  | PInt16 _ => "*int16"
  | PUint16 _ => "*uint16"
  | NullInt16 _ _ => "*sql.NullInt16"
  | PInt32 _ => "*int32"
  | PUint32 _ => "*uint32"
  | NullInt32 _ _ => "*sql.NullInt32"
  | PInt64 _ => "*int64"
  | PUint64 _ => "*uint64"
  | NullInt64 _ _ => "*sql.NullInt64"
  | PFloat32 _ => "*float32"
  | PFloat64 _ => "*float64"
  | NullFloat64 _ _ => "*sql.NullFloat64"
  | PString _ => "*string"
  | NullString _ _ => "*sql.NullString"
  | PBytes _ => "*[]uint8"
  | PTime _ => "*time.Time"
  | NullTime _ _ => "*sql.NullTime"
  | PInterface _ => "*interface {}"
  | PPUint16 _ => "**uint16"
  | PPUint32 _ => "**uint32"
  | PPUint64 _ => "**uint64"
  end.

(** [createScanDest]: the destination for a field, in its initial state. *)
Definition createScanDest (field : arrow.Field) : ScanDest :=
  match arrow.Type_ field with
  | arrow.BOOL =>
      if arrow.Nullable field then NullBool false false else PBool (Some false)
  | arrow.INT8 =>
      if arrow.Nullable field then NullByte false 0 else PInt8 (Some 0)
  | arrow.UINT8 =>
      if arrow.Nullable field then NullByte false 0 else PUint8 (Some 0)
  | arrow.INT16 =>
      if arrow.Nullable field then NullInt16 false 0 else PInt16 (Some 0)
  | arrow.UINT16 =>
      if arrow.Nullable field then PPUint16 (Some None) else PUint16 (Some 0)
  | arrow.INT32 =>
      if arrow.Nullable field then NullInt32 false 0 else PInt32 (Some 0)
  | arrow.UINT32 =>
      if arrow.Nullable field then PPUint32 (Some None) else PUint32 (Some 0)
  | arrow.INT64 =>
      if arrow.Nullable field then NullInt64 false 0 else PInt64 (Some 0)
  | arrow.UINT64 =>
      if arrow.Nullable field then PPUint64 (Some None) else PUint64 (Some 0)
  | arrow.FLOAT32 =>
      if arrow.Nullable field then NullFloat64 false 0
      else PFloat32 (Some (F32 0))
  | arrow.FLOAT64 =>
      if arrow.Nullable field then NullFloat64 false 0 else PFloat64 (Some 0)
  | arrow.STRING =>
      if arrow.Nullable field then NullString false "" else PString (Some "")
  | arrow.BINARY => PBytes (Some None)
  | arrow.DATE32 | arrow.DATE64 | arrow.TIME32 | arrow.TIME64
  | arrow.TIMESTAMP =>
      if arrow.Nullable field then NullTime false time.zero
      else PTime (Some time.zero)
  | arrow.DECIMAL | arrow.DECIMAL256 =>
      if arrow.Nullable field then NullString false "" else PString (Some "")
  | arrow.OTHER _ => PInterface (Some None)
  end.

(** ** The append paths *)

Import array(Append, AppendNull).

(** [appendTimeValue] *)
Definition appendTimeValue (fb : array.Builder) (t : time.Time)
  : Outcome array.Builder :=
  match array.kind fb with
  | array.Date32Builder =>
      let days := wrap_int32 (time.Unix t `quot` 86400) in
      Append array.Date32Builder (array.VInt days) fb
  | array.Date64Builder =>
      Append array.Date64Builder (array.VInt (time.UnixMilli t)) fb
  | array.Time32Builder =>
      let seconds := time.Hour t * 3600 + time.Minute t * 60 + time.Second t in
      Append array.Time32Builder (array.VInt (wrap_int32 seconds)) fb
  | array.Time64Builder =>
      let micros :=
        wrap_int64 (time.Hour t * 3600000000 + time.Minute t * 60000000 +
                    time.Second t * 1000000 + time.Nanosecond t `quot` 1000) in
      Append array.Time64Builder (array.VInt micros) fb
  | array.TimestampBuilder =>
      Append array.TimestampBuilder (array.VInt (time.UnixMicro t)) fb
  | _ =>
      Err (errors.New errors.CodeInternal
             "unexpected builder type for time value")
  end.

(** [toString], on the values that reach it: it is called from the default
    branch of [appendDynamicValue] only, where the value is none of [bool],
    [int64], [float64], [string], [[]byte]; of its cases, [int] and the
    default remain. *)
Definition toString (v : Dynamic) : string :=
  match v with
  | DInt val => pretty val
  | _ => ""
  end.

(** [appendDynamicValue]; [None] is the nil interface value. *)
Definition appendDynamicValue (fb : array.Builder) (value : option Dynamic)
  : Outcome array.Builder :=
  match value with
  | None => AppendNull fb
  | Some (DBool v) => Append array.BooleanBuilder (array.VBool v) fb
  | Some (DInt64 v) => Append array.Int64Builder (array.VInt v) fb
  | Some (DFloat64 v) => Append array.Float64Builder (array.VFloat64 v) fb
  | Some (DString v) => Append array.StringBuilder (array.VString v) fb
  | Some (DBytes v) => Append array.BinaryBuilder (array.VBinary v) fb
  | Some (DTime v) => appendTimeValue fb v
  | Some v => Append array.StringBuilder (array.VString (toString v)) fb
  end.

(** [appendValue], on the field builder [r.builder.Field(colIdx)]. *)
Definition appendValue_field (fb : array.Builder) (value : ScanDest)
  : Outcome array.Builder :=
  match value with
  | PBool v =>
      match v with
      | None => AppendNull fb
      | Some x => Append array.BooleanBuilder (array.VBool x) fb
      end
  | NullBool Valid x =>
      if negb Valid then AppendNull fb
      else Append array.BooleanBuilder (array.VBool x) fb
  | PInt8 v =>
      match v with
      | None => AppendNull fb
      | Some x => Append array.Int8Builder (array.VInt x) fb
      end
  | PUint8 v =>
      match v with
      | None => AppendNull fb
      | Some x => Append array.Uint8Builder (array.VInt x) fb
      end
  | NullByte Valid x =>
      if negb Valid then AppendNull fb
      else Append array.Uint8Builder (array.VInt x) fb
  | PInt16 v =>
      match v with
      | None => AppendNull fb
      | Some x => Append array.Int16Builder (array.VInt x) fb
      end
  | PUint16 v =>
      match v with
      | None => AppendNull fb
      | Some x => Append array.Uint16Builder (array.VInt x) fb
      end
  | NullInt16 Valid x =>
      if negb Valid then AppendNull fb
      else Append array.Int16Builder (array.VInt x) fb
  | PInt32 v =>
      match v with
      | None => AppendNull fb
      | Some x => Append array.Int32Builder (array.VInt x) fb
      end
  | PUint32 v =>
      match v with
      | None => AppendNull fb
      | Some x => Append array.Uint32Builder (array.VInt x) fb
      end
  | NullInt32 Valid x =>
      if negb Valid then AppendNull fb
      else Append array.Int32Builder (array.VInt x) fb
  | PInt64 v =>
      match v with
      | None => AppendNull fb
      | Some x => Append array.Int64Builder (array.VInt x) fb
      end
  | PUint64 v =>
      match v with
      | None => AppendNull fb
      | Some x => Append array.Uint64Builder (array.VInt x) fb
      end
  | NullInt64 Valid x =>
      if negb Valid then AppendNull fb
      else Append array.Int64Builder (array.VInt x) fb
  | PFloat32 v =>
      match v with
      | None => AppendNull fb
      | Some x => Append array.Float32Builder (array.VFloat32 x) fb
      end
  | PFloat64 v =>
      match v with
      | None => AppendNull fb
      | Some x => Append array.Float64Builder (array.VFloat64 x) fb
      end
  | NullFloat64 Valid x =>
      if negb Valid then AppendNull fb
      else
        match array.kind fb with
        | array.Float64Builder =>
            Append array.Float64Builder (array.VFloat64 x) fb
        | array.Float32Builder =>
            Append array.Float32Builder (array.VFloat32 (F32_of_float64 x)) fb
        | _ =>
            Err (errors.New errors.CodeInternal
                   "unexpected builder type for float")
        end
  | PString v =>
      match v with
      | None => AppendNull fb
      | Some x => Append array.StringBuilder (array.VString x) fb
      end
  | NullString Valid x =>
      if negb Valid then AppendNull fb
      else Append array.StringBuilder (array.VString x) fb
  | PBytes v =>
      match v with
      | None | Some None => AppendNull fb
      | Some (Some x) => Append array.BinaryBuilder (array.VBinary x) fb
      end
  | PTime v =>
      match v with
      | None => AppendNull fb
      | Some x => appendTimeValue fb x
      end
  | NullTime Valid x =>
      if negb Valid then AppendNull fb else appendTimeValue fb x
  | PInterface v =>
      match v with
      | None | Some None => AppendNull fb
      | Some (Some x) => appendDynamicValue fb (Some x)
      end
  | PPUint16 _ | PPUint32 _ | PPUint64 _ =>
      Err (errors.New errors.CodeInternal
             ("unsupported scan type: " +:+ type_name value))
  end.

(** ** Package [memory]: the allocator's view of reference-counted data *)

Module memory.

(** [refs] maps the id of a column's data to its reference count; an id
    without entry is not allocated (never, or freed).  [live] is the set of
    record builders that have not been released.  The two counters give
    the next fresh ids. *)
Record Heap := {
  refs : gmap nat nat;
  next_data : nat;
  live : gset nat;
  next_builder : nat
}.

Definition empty : Heap :=
  {| refs := ∅; next_data := 0; live := ∅; next_builder := 0 |}.

Definition refcount (h : Heap) (d : nat) : nat := default 0%nat (refs h !! d).

(** The data can be read as long as somebody holds a reference. *)
Definition readable (h : Heap) (d : nat) : Prop := (0 < refcount h d)%nat.

Definition with_refs (m : gmap nat nat) (h : Heap) : Heap :=
  {| refs := m; next_data := next_data h; live := live h;
     next_builder := next_builder h |}.

(** Allocation of fresh data, with one reference. *)
Definition alloc (h : Heap) : nat * Heap :=
  (next_data h,
   {| refs := <[next_data h := 1%nat]> (refs h);
      next_data := S (next_data h); live := live h;
      next_builder := next_builder h |}).

Definition Retain (d : nat) (h : Heap) : Heap :=
  with_refs (<[d := S (refcount h d)]> (refs h)) h.

(** The last release frees the data. *)
Definition Release (d : nat) (h : Heap) : Heap :=
  match refcount h d with
  | O => h
  | S O => with_refs (delete d (refs h)) h
  | S n => with_refs (<[d := n]> (refs h)) h
  end.

End memory.

Import memory(Heap).

(** ** Package [array]: record builders and records *)

Module Import records.

(** A column of a record: the id of its reference-counted data, the kind of
    the builder it came from, and its slots. *)
Record Column := {
  data : nat;
  col_kind : array.Kind;
  col_vals : list array.Cell
}.

(** An [arrow.Record] as [array.NewRecord] makes it. *)
Record simpleRecord := {
  rec_schema : arrow.Schema;
  arrs : list Column;
  rows_ : Z
}.

Definition NumRows (rec : simpleRecord) : Z := rows_ rec.
Definition NumCols (rec : simpleRecord) : Z := Z.of_nat (length (arrs rec)).

Record RecordBuilder := {
  id : nat;
  rb_schema : arrow.Schema;
  fields : list array.Builder
}.

(** [array.NewRecordBuilder(mem, schema)] *)
Definition NewRecordBuilder (h : Heap) (schema : arrow.Schema)
  : RecordBuilder * Heap :=
  ({| id := memory.next_builder h; rb_schema := schema;
      fields := map (λ f, array.NewBuilder (arrow.Type_ f)) schema |},
   {| memory.refs := memory.refs h; memory.next_data := memory.next_data h;
      memory.live := {[memory.next_builder h]} ∪ memory.live h;
      memory.next_builder := S (memory.next_builder h) |}).

(** [b.Release()] *)
Definition RecordBuilder_Release (b : RecordBuilder) (h : Heap) : Heap :=
  {| memory.refs := memory.refs h; memory.next_data := memory.next_data h;
     memory.live := memory.live h ∖ {[id b]};
     memory.next_builder := memory.next_builder h |}.

(** [b.Field(i)]: indexing out of range panics. *)
Definition Field (b : RecordBuilder) (i : nat) : Outcome array.Builder :=
  match fields b !! i with
  | Some fb => Ok fb
  | None => Panic
  end.

Definition set_Field (b : RecordBuilder) (i : nat) (fb : array.Builder)
  : RecordBuilder :=
  {| id := id b; rb_schema := rb_schema b; fields := <[i := fb]> (fields b) |}.

(** [f.NewArray()]: the slots move into a fresh array. *)
Definition NewArray (f : array.Builder) (h : Heap) : Column * Heap :=
  let '(d, h') := memory.alloc h in
  ({| data := d; col_kind := array.kind f; col_vals := array.vals f |}, h').

(** The loop of [b.NewRecord()]: every field builder yields its array; the
    arrays must agree on their length. *)
Fixpoint NewRecord_loop (fs : list array.Builder) (i : nat) (rows : Z)
    (h : Heap) : Outcome (list Column * Z * Heap) :=
  match fs with
  | [] => Ok ([], rows, h)
  | f :: fs' =>
      let '(col, h1) := NewArray f h in
      let irow := Z.of_nat (length (col_vals col)) in
      if (0 <? i)%nat && negb (irow =? rows) then Panic
      else
        res ←! NewRecord_loop fs' (S i) irow h1;
        let '(cols, rows', h2) := res in
        Ok (col :: cols, rows', h2)
  end.

(** [b.NewRecord()]: the record, and the builder with its fields reset. *)
Definition NewRecord (b : RecordBuilder) (h : Heap)
  : Outcome (simpleRecord * RecordBuilder * Heap) :=
  res ←! NewRecord_loop (fields b) 0 0 h;
  let '(cols, rows, h') := res in
  Ok ({| rec_schema := rb_schema b; arrs := cols; rows_ := rows |},
      {| id := id b; rb_schema := rb_schema b;
         fields := map (λ f, {| array.kind := array.kind f;
                                array.vals := [] |}) (fields b) |},
      h').

(** [rec.Release()], by the holder of the record's only reference. *)
Definition Release (rec : simpleRecord) (h : Heap) : Heap :=
  foldr (λ c, memory.Release (data c)) h (arrs rec).

(** [array.NewSlice(col, i, j)]: a view on the same data, which it
    retains; bounds outside the array panic. *)
Definition NewSlice_col (c : Column) (i j : Z) (h : Heap)
  : Outcome (Column * Heap) :=
  if (j >? Z.of_nat (length (col_vals c))) || (i >? j) || (i <? 0)
  then Panic
  else Ok ({| data := data c; col_kind := col_kind c;
              col_vals := take (Z.to_nat (j - i))
                            (drop (Z.to_nat i) (col_vals c)) |},
           memory.Retain (data c) h).

Fixpoint NewSlice_cols (cs : list Column) (i j : Z) (h : Heap)
  : Outcome (list Column * Heap) :=
  match cs with
  | [] => Ok ([], h)
  | c :: cs' =>
      res ←! NewSlice_col c i j h;
      let '(c', h1) := res in
      res' ←! NewSlice_cols cs' i j h1;
      let '(cs'', h2) := res' in
      Ok (c' :: cs'', h2)
  end.

(** [rec.NewSlice(i, j)] *)
Definition NewSlice (rec : simpleRecord) (i j : Z) (h : Heap)
  : Outcome (simpleRecord * Heap) :=
  res ←! NewSlice_cols (arrs rec) i j h;
  let '(cols, h') := res in
  Ok ({| rec_schema := rec_schema rec; arrs := cols; rows_ := j - i |}, h').

(** The rows of a record: row [i] collects slot [i] of every column. *)
Definition row_at (cols : list (list array.Cell)) (i : nat)
  : list array.Cell :=
  map (λ vs, nth i vs array.Null) cols.

Definition record_rows (rec : simpleRecord) : list (list array.Cell) :=
  map (row_at (map col_vals (arrs rec))) (seq 0 (Z.to_nat (NumRows rec))).

End records.


(** ** Package [database/sql]: the cursor *)

Module sql.

(** A [driver.Value], as the driver hands a cell to [Scan]. *)
Inductive Value :=
| Nil
| Int64 (v : Z)
| Float64 (v : float64)
| Bool_ (v : bool)
| Bytes (v : list byte)
| String_ (v : string)
| Time_ (v : time.Time).

(** A [*sql.Rows]: the rows still to come, the way the iteration ends after
    them ([None] is a clean end), the row [Next] has prepared for [Scan],
    whether [Next] has reached the end, and whether the cursor is closed. *)
Record Rows := {
  pending : list (list Value);
  ending : option error;
  lastcols : option (list Value);
  finished : bool;
  closed : bool
}.

(** A cursor over the given rows, before the first [Next]. *)
Definition open (rows : list (list Value)) (ending : option error) : Rows :=
  {| pending := rows; ending := ending; lastcols := None;
     finished := false; closed := false |}.

(** [rs.Next()]: the result and the cursor afterwards.  Reaching the end
    closes the cursor. *)
Definition Next (rs : Rows) : bool * Rows :=
  if closed rs then (false, rs)
  else
    match pending rs with
    | row :: rest =>
        (true, {| pending := rest; ending := ending rs;
                  lastcols := Some row; finished := false;
                  closed := false |})
    | [] =>
        (false, {| pending := []; ending := ending rs; lastcols := None;
                   finished := true; closed := true |})
    end.

(** [rs.Err()]: the error that ended the iteration, if it has ended and not
    cleanly. *)
Definition Err (rs : Rows) : option error :=
  if finished rs then ending rs else None.

(** [rs.Close()] *)
Definition Close (rs : Rows) : Rows :=
  {| pending := pending rs; ending := ending rs; lastcols := None;
     finished := finished rs; closed := true |}.

End sql.

(** ** The reader *)

Definition defaultBatchSize : Z := 1024.

(** The fields [allocator] and [logger] have no state of their own here: the
    allocator's state is the [Heap] that the operations thread, and logging
    is not modelled.  [rows], [builder] and [record] are pointers that
    [cleanup] sets to nil. *)
Record BatchReader := {
  refCount : Z;
  schema : arrow.Schema;
  rows : option sql.Rows;
  record : option simpleRecord;
  builder : option RecordBuilder;
  err : option error;
  rowDest : list ScanDest;
  batchSize : Z
}.

Definition set_refCount (x : Z) (r : BatchReader) : BatchReader :=
  {| refCount := x; schema := schema r; rows := rows r; record := record r;
     builder := builder r; err := err r; rowDest := rowDest r;
     batchSize := batchSize r |}.
Definition set_rows (x : option sql.Rows) (r : BatchReader) : BatchReader :=
  {| refCount := refCount r; schema := schema r; rows := x;
     record := record r; builder := builder r; err := err r;
     rowDest := rowDest r; batchSize := batchSize r |}.
Definition set_record (x : option simpleRecord) (r : BatchReader)
  : BatchReader :=
  {| refCount := refCount r; schema := schema r; rows := rows r; record := x;
     builder := builder r; err := err r; rowDest := rowDest r;
     batchSize := batchSize r |}.
Definition set_builder (x : option RecordBuilder) (r : BatchReader)
  : BatchReader :=
  {| refCount := refCount r; schema := schema r; rows := rows r;
     record := record r; builder := x; err := err r; rowDest := rowDest r;
     batchSize := batchSize r |}.
Definition set_err (x : option error) (r : BatchReader) : BatchReader :=
  {| refCount := refCount r; schema := schema r; rows := rows r;
     record := record r; builder := builder r; err := x;
     rowDest := rowDest r; batchSize := batchSize r |}.
Definition set_rowDest (x : list ScanDest) (r : BatchReader) : BatchReader :=
  {| refCount := refCount r; schema := schema r; rows := rows r;
     record := record r; builder := builder r; err := err r; rowDest := x;
     batchSize := batchSize r |}.
Definition set_batchSize (x : Z) (r : BatchReader) : BatchReader :=
  {| refCount := refCount r; schema := schema r; rows := rows r;
     record := record r; builder := builder r; err := err r;
     rowDest := rowDest r; batchSize := x |}.

(** [NewBatchReaderWithSchema] *)
Definition NewBatchReaderWithSchema (h : Heap) (schema : arrow.Schema)
    (rows : sql.Rows) : BatchReader * Heap :=
  let rowDest := map createScanDest schema in
  let '(b, h') := NewRecordBuilder h schema in
  ({| refCount := 1; schema := schema; rows := Some rows; record := None;
      builder := Some b; err := None; rowDest := rowDest;
      batchSize := defaultBatchSize |}, h').

(** [SetBatchSize] *)
Definition SetBatchSize (r : BatchReader) (size : Z) : BatchReader :=
  if 0 <? size then set_batchSize size r else r.

(** [Schema] *)
Definition Schema (r : BatchReader) : arrow.Schema := schema r.

(** [Err] *)
Definition Err_ (r : BatchReader) : option error := err r.

(** [Retain] *)
Definition Retain (r : BatchReader) : BatchReader :=
  set_refCount (refCount r + 1) r.

(** [cleanup]: the cursor is closed and the builder released; the record, if
    any, is dropped without being released. *)
Definition cleanup (r : BatchReader) (h : Heap) : BatchReader * Heap :=
  let r :=
    match rows r with
    | Some rs => set_rows None r
    | None => r
    end in
  let '(r, h) :=
    match builder r with
    | Some b => (set_builder None r, RecordBuilder_Release b h)
    | None => (r, h)
    end in
  let r :=
    match record r with
    | Some _ => set_record None r
    | None => r
    end in
  (r, h).

(** [Release] *)
Definition Release_ (r : BatchReader) (h : Heap) : BatchReader * Heap :=
  let r := set_refCount (refCount r - 1) r in
  if refCount r =? 0 then cleanup r h else (r, h).

(** [Record]: nil when there is no current record, else a slice of all of
    its rows. *)
Definition Record_ (r : BatchReader) (h : Heap)
  : Outcome (option simpleRecord * Heap) :=
  match record r with
  | None => Ok (None, h)
  | Some rec =>
      res ←! NewSlice rec 0 (NumRows rec) h;
      let '(newRecSlice, h') := res in
      Ok (Some newRecSlice, h')
  end.

(** [appendValue]: a nil builder or a column index out of range panics. *)
Definition appendValue (r : BatchReader) (colIdx : nat) (value : ScanDest)
  : Outcome BatchReader :=
  match builder r with
  | None => Panic
  | Some b =>
      fb ←! Field b colIdx;
      fb' ←! appendValue_field fb value;
      Ok (set_builder (Some (set_Field b colIdx fb')) r)
  end.

(** The loop over [r.rowDest] in [Next]: all values appended, or the reader
    as the failing column finds it with the error of [appendValue] wrapped
    with the column index, or a panic. *)
Inductive Appended :=
| Done (r : BatchReader)
| Failed (r : BatchReader) (e : error)
| Panics.

Fixpoint appendRow (r : BatchReader) (colIdx : nat) (dests : list ScanDest)
  : Appended :=
  match dests with
  | [] => Done r
  | val :: rest =>
      match appendValue r colIdx val with
      | Ok r' => appendRow r' (S colIdx) rest
      | Err e =>
          Failed r (errors.Wrapf e errors.CodeInternal
                      "failed to append value for column " colIdx)
      | Panic => Panics
      end
  end.

(** How the row loop of [Next] is left. *)
Inductive Flow :=
| Return_false (r : BatchReader)
| Break (r : BatchReader) (rowsProcessedInBatch : Z)
| Crash.

(** What a call of [Next] does: it returns, or it panics; both with the
    heap as it is then. *)
Inductive Result :=
| Returned (b : bool) (r : BatchReader) (h : Heap)
| Panicked (h : Heap).

Section Reader.

(** The conversion of [database/sql] from a driver value into a destination
    ([convertAssign]); it belongs to the library and the driver, and the
    reader is verified for every such conversion. *)
Variable convertAssign : ScanDest → sql.Value → error + ScanDest.

Fixpoint Scan_loop (dest : list ScanDest) (cols : list sql.Value)
  : error + list ScanDest :=
  match dest, cols with
  | d :: dest', sv :: cols' =>
      match convertAssign d sv with
      | inl e => inl e
      | inr d' =>
          match Scan_loop dest' cols' with
          | inl e => inl e
          | inr ds => inr (d' :: ds)
          end
      end
  | _, _ => inr []
  end.

(** [rs.Scan(dest...)]: the destinations as the scan leaves them, or its
    error.  After an error the reader never looks at the destinations
    again, so what a failed scan has written is not recorded. *)
Definition Scan (rs : sql.Rows) (dest : list ScanDest)
  : error + list ScanDest :=
  match (if sql.finished rs then sql.ending rs else None) with
  | Some e => inl e
  | None =>
      if sql.closed rs then inl (errors.Foreign "sql: Rows are closed")
      else
        match sql.lastcols rs with
        | None => inl (errors.Foreign "sql: Scan called without calling Next")
        | Some cols =>
            if negb (length dest =? length cols)%nat
            then inl (errors.Foreign
                        "sql: wrong number of destination arguments in Scan")
            else Scan_loop dest cols
        end
  end.

(** The row loop of [Next]; [n] is the number of iterations left and [i] the
    loop counter. *)
Fixpoint Next_loop (n : nat) (i : Z) (r : BatchReader)
    (rowsProcessedInBatch : Z) : Flow :=
  match n with
  | O => Break r rowsProcessedInBatch
  | S n' =>
      match rows r with
      | None => Crash
      | Some rs =>
          let '(more, rs) := sql.Next rs in
          let r := set_rows (Some rs) r in
          if negb more then
            if i =? 0 then Return_false (set_err (sql.Err rs) r)
            else Break r rowsProcessedInBatch
          else
            match Scan rs (rowDest r) with
            | inl e =>
                Return_false
                  (set_err (Some (errors.Wrap e errors.CodeQueryFailed
                                    "failed to scan row")) r)
            | inr dest =>
                let r := set_rowDest dest r in
                match appendRow r 0 (rowDest r) with
                | Failed r e => Return_false (set_err (Some e) r)
                | Panics => Crash
                | Done r => Next_loop n' (i + 1) r (rowsProcessedInBatch + 1)
                end
            end
      end
  end.

(** The first block of [Next]: the prior record is released and its slot set
    to nil. *)
Definition release_record (r : BatchReader) (h : Heap) : BatchReader * Heap :=
  match record r with
  | Some rec => (set_record None r, records.Release rec h)
  | None => (r, h)
  end.

(** The second block of [Next]: the builder is released and a new one made
    for the schema. *)
Definition renew_builder (r : BatchReader) (h : Heap) : BatchReader * Heap :=
  let h :=
    match builder r with
    | Some b => RecordBuilder_Release b h
    | None => h
    end in
  let '(b, h) := NewRecordBuilder h (schema r) in
  (set_builder (Some b) r, h).

(** The end of [Next], after the row loop. *)
Definition finish (r : BatchReader) (rowsProcessedInBatch : Z) (h : Heap)
  : Result :=
  if 0 <? rowsProcessedInBatch then
    match builder r with
    | None => Panicked h
    | Some b =>
        match NewRecord b h with
        | Ok (rec, b', h') =>
            let r := set_builder (Some b') (set_record (Some rec) r) in
            match rows r with
            | None => Panicked h'
            | Some rs =>
                match sql.Err rs with
                | Some e => Returned false (set_err (Some e) r) h'
                | None => Returned true r h'
                end
            end
        | _ => Panicked h
        end
    end
  else Returned false r h.

(** [Next] *)
Definition Next (r : BatchReader) (h : Heap) : Result :=
  match err r with
  | Some _ => Returned false r h
  | None =>
      let '(r, h) := release_record r h in
      let '(r, h) := renew_builder r h in
      match Next_loop (Z.to_nat (batchSize r)) 0 r 0 with
      | Return_false r => Returned false r h
      | Crash => Panicked h
      | Break r rowsProcessedInBatch => finish r rowsProcessedInBatch h
      end
  end.

End Reader.

(** ** Consumers *)

(** The consumer loop [for r.Next() { rec := r.Record(); ... }], run for at
    most [fuel] calls of [Next]; it collects the records it is handed. *)
Inductive Drained :=
| Finished (batches : list simpleRecord) (r : BatchReader) (h : Heap)
| Crashed (batches : list simpleRecord)
| OutOfFuel (batches : list simpleRecord).

Definition emit (rec : simpleRecord) (d : Drained) : Drained :=
  match d with
  | Finished bs r h => Finished (rec :: bs) r h
  | Crashed bs => Crashed (rec :: bs)
  | OutOfFuel bs => OutOfFuel (rec :: bs)
  end.

Fixpoint drain (convertAssign : ScanDest → sql.Value → error + ScanDest)
    (fuel : nat) (r : BatchReader) (h : Heap) : Drained :=
  match fuel with
  | O => OutOfFuel []
  | S fuel' =>
      match Next convertAssign r h with
      | Panicked _ => Crashed []
      | Returned false r h => Finished [] r h
      | Returned true r h =>
          match Record_ r h with
          | Ok (Some rec, h) => emit rec (drain convertAssign fuel' r h)
          | _ => Crashed []
          end
      end
  end.

(** What the reader and its consumer can do, one step at a time.  The
    consumer keeps the records [Record] hands out and may release any of
    them, once. *)
Inductive Op :=
| OpNext
| OpRecord
| OpRetain
| OpRelease
| OpSetBatchSize (size : Z)
| OpDrop (k : nat).

Record Sys := {
  reader : BatchReader;
  heap : Heap;
  held : list simpleRecord;
  crashed : bool
}.

Definition step (convertAssign : ScanDest → sql.Value → error + ScanDest)
    (s : Sys) (op : Op) : Sys :=
  if crashed s then s
  else
    match op with
    | OpNext =>
        match Next convertAssign (reader s) (heap s) with
        | Returned _ r h =>
            {| reader := r; heap := h; held := held s; crashed := false |}
        | Panicked h =>
            {| reader := reader s; heap := h; held := held s;
               crashed := true |}
        end
    | OpRecord =>
        match Record_ (reader s) (heap s) with
        | Ok (Some rec, h) =>
            {| reader := reader s; heap := h; held := rec :: held s;
               crashed := false |}
        | Ok (None, h) =>
            {| reader := reader s; heap := h; held := held s;
               crashed := false |}
        | _ =>
            {| reader := reader s; heap := heap s; held := held s;
               crashed := true |}
        end
    | OpRetain =>
        {| reader := Retain (reader s); heap := heap s; held := held s;
           crashed := false |}
    | OpRelease =>
        let '(r, h) := Release_ (reader s) (heap s) in
        {| reader := r; heap := h; held := held s; crashed := false |}
    | OpSetBatchSize size =>
        {| reader := SetBatchSize (reader s) size; heap := heap s;
           held := held s; crashed := false |}
    | OpDrop k =>
        match held s !! k with
        | Some rec =>
            {| reader := reader s; heap := records.Release rec (heap s);
               held := delete k (held s); crashed := false |}
        | None => s
        end
    end.

Definition run (convertAssign : ScanDest → sql.Value → error + ScanDest)
    (s : Sys) (ops : list Op) : Sys :=
  foldl (step convertAssign) s ops.

(** ** A conversion for the examples *)

(** An instance of [convertAssign]: a value of the destination's own type is
    stored as it is, NULL is stored where the destination can hold it, a
    dynamic slot takes every value, and everything else is an error. *)
Definition convertAssign_basic (d : ScanDest) (sv : sql.Value)
  : error + ScanDest :=
  match d, sv with
  | PBool _, sql.Bool_ v => inr (PBool (Some v))
  | NullBool _ _, sql.Nil => inr (NullBool false false)
  | NullBool _ _, sql.Bool_ v => inr (NullBool true v)
  | PInt8 _, sql.Int64 v => inr (PInt8 (Some v))
  | PUint8 _, sql.Int64 v => inr (PUint8 (Some v))
  | NullByte _ _, sql.Nil => inr (NullByte false 0)
  | NullByte _ _, sql.Int64 v => inr (NullByte true v)
  | PInt16 _, sql.Int64 v => inr (PInt16 (Some v))
  | PUint16 _, sql.Int64 v => inr (PUint16 (Some v))
  | NullInt16 _ _, sql.Nil => inr (NullInt16 false 0)
  | NullInt16 _ _, sql.Int64 v => inr (NullInt16 true v)
  | PInt32 _, sql.Int64 v => inr (PInt32 (Some v))
  | PUint32 _, sql.Int64 v => inr (PUint32 (Some v))
  | NullInt32 _ _, sql.Nil => inr (NullInt32 false 0)
  | NullInt32 _ _, sql.Int64 v => inr (NullInt32 true v)
  | PInt64 _, sql.Int64 v => inr (PInt64 (Some v))
  | PUint64 _, sql.Int64 v => inr (PUint64 (Some v))
  | NullInt64 _ _, sql.Nil => inr (NullInt64 false 0)
  | NullInt64 _ _, sql.Int64 v => inr (NullInt64 true v)
  | PFloat32 _, sql.Float64 v => inr (PFloat32 (Some (F32_of_float64 v)))
  | PFloat64 _, sql.Float64 v => inr (PFloat64 (Some v))
  | NullFloat64 _ _, sql.Nil => inr (NullFloat64 false 0)
  | NullFloat64 _ _, sql.Float64 v => inr (NullFloat64 true v)
  | PString _, sql.String_ v => inr (PString (Some v))
  | NullString _ _, sql.Nil => inr (NullString false "")
  | NullString _ _, sql.String_ v => inr (NullString true v)
  | PBytes _, sql.Nil => inr (PBytes (Some None))
  | PBytes _, sql.Bytes v => inr (PBytes (Some (Some v)))
  | PTime _, sql.Time_ v => inr (PTime (Some v))
  | NullTime _ _, sql.Nil => inr (NullTime false time.zero)
  | NullTime _ _, sql.Time_ v => inr (NullTime true v)
  | PInterface _, sql.Nil => inr (PInterface (Some None))
  | PInterface _, sql.Int64 v => inr (PInterface (Some (Some (DInt64 v))))
  | PInterface _, sql.Float64 v => inr (PInterface (Some (Some (DFloat64 v))))
  | PInterface _, sql.Bool_ v => inr (PInterface (Some (Some (DBool v))))
  | PInterface _, sql.Bytes v => inr (PInterface (Some (Some (DBytes v))))
  | PInterface _, sql.String_ v => inr (PInterface (Some (Some (DString v))))
  | PInterface _, sql.Time_ v => inr (PInterface (Some (Some (DTime v))))
  | PPUint16 _, sql.Nil => inr (PPUint16 (Some None))
  | PPUint16 _, sql.Int64 v => inr (PPUint16 (Some (Some v)))
  | PPUint32 _, sql.Nil => inr (PPUint32 (Some None))
  | PPUint32 _, sql.Int64 v => inr (PPUint32 (Some (Some v)))
  | PPUint64 _, sql.Nil => inr (PPUint64 (Some None))
  | PPUint64 _, sql.Int64 v => inr (PPUint64 (Some (Some v)))
  | _, _ => inl (errors.Foreign "sql: unsupported Scan")
  end.

(** ** Specification vocabulary *)

(** The logical units of the temporal types, in the spec's words. *)
Definition days_since_epoch (t : time.Time) : Z := time.sec t `div` 86400.
Definition millis_since_epoch (t : time.Time) : Z :=
  time.sec t * 1000 + time.nsec t `div` 1000000.
Definition micros_since_epoch (t : time.Time) : Z :=
  time.sec t * 1000000 + time.nsec t `div` 1000.
Definition seconds_since_midnight (t : time.Time) : Z :=
  (time.sec t + time.offset t) `mod` 86400.
Definition micros_since_midnight (t : time.Time) : Z :=
  seconds_since_midnight t * 1000000 + time.nsec t `div` 1000.

(** The sizes [B, B, ..., N mod B or B] of the batches for [N] rows. *)
Definition batch_sizes (N B : nat) : list Z :=
  replicate (N / B)%nat (Z.of_nat B) ++
  (if (N `mod` B =? 0)%nat then [] else [Z.of_nat (N `mod` B)%nat]).

Definition ceil_div (N B : nat) : nat := ((N + B - 1) / B)%nat.

(** The cell a destination contributes to a column whose builder has kind
    [k], when the append succeeds. *)
Definition cell_of (k : array.Kind) (d : ScanDest) : option array.Cell :=
  match appendValue_field {| array.kind := k; array.vals := [] |} d with
  | Ok fb => head (array.vals fb)
  | _ => None
  end.

Fixpoint row_cells (ks : list array.Kind) (ds : list ScanDest)
  : option (list array.Cell) :=
  match ks, ds with
  | [], [] => Some []
  | k :: ks', d :: ds' =>
      c ← cell_of k d; cs ← row_cells ks' ds'; Some (c :: cs)
  | _, _ => None
  end.

(** The rows of a cursor as cells, row by row and without any batching: each
    row is scanned into the destinations the previous row has left, and
    every destination gives its cell.  [None] when a scan or an append would
    fail.  The destinations after the last row come along. *)
Fixpoint convert_rows (convertAssign : ScanDest → sql.Value → error + ScanDest)
    (ks : list array.Kind) (ds : list ScanDest) (rws : list (list sql.Value))
  : option (list (list array.Cell) * list ScanDest) :=
  match rws with
  | [] => Some ([], ds)
  | row :: rest =>
      if negb (length ds =? length row)%nat then None
      else
        match Scan_loop convertAssign ds row with
        | inl _ => None
        | inr ds' =>
            cs ← row_cells ks ds';
            res ← convert_rows convertAssign ks ds' rest;
            Some (cs :: res.1, res.2)
        end
  end.

Definition kinds_of (schema : arrow.Schema) : list array.Kind :=
  map (λ f, array.kind_of (arrow.Type_ f)) schema.

(** The data ids a record holds a reference to, with multiplicity. *)
Definition datas (rec : simpleRecord) : list nat := map data (arrs rec).

Definition record_datas (r : BatchReader) : list nat :=
  match record r with
  | Some rec => datas rec
  | None => []
  end.

(** Every reference in [holders] is counted in the heap, and fresh ids are
    not in use. *)
Definition accounted (h : Heap) (holders : list nat) : Prop :=
  (∀ d, (count_occ Nat.eq_dec holders d ≤ memory.refcount h d)%nat) ∧
  (∀ d, (memory.next_data h ≤ d)%nat → memory.refs h !! d = None).

(** The reader's builder was made by the allocator of this heap. *)
Definition builder_known (r : BatchReader) (h : Heap) : Prop :=
  ∀ b, builder r = Some b → (id b < memory.next_builder h)%nat.

(** The field builders after the cells of one more row, and of several. *)
Definition add_row (fs : list array.Builder) (cs : list array.Cell)
  : list array.Builder :=
  zip_with (λ f c, array.push c f) fs cs.

Definition add_rows (fs : list array.Builder) (cells : list (list array.Cell))
  : list array.Builder :=
  foldl add_row fs cells.

Definition with_fields (b : RecordBuilder) (fs : list array.Builder)
  : RecordBuilder :=
  {| id := id b; rb_schema := rb_schema b; fields := fs |}.

(** The reader [r'] that the row loop leaves when it started from [r] with
    builder [b] and appended [cells]: the cursor is [rs'], the destinations
    are [ds'], and nothing else has changed. *)
Definition loop_post (r r' : BatchReader) (b : RecordBuilder)
    (cells : list (list array.Cell)) (ds' : list ScanDest) (rs' : sql.Rows)
  : Prop :=
  rows r' = Some rs' ∧
  builder r' = Some (with_fields b (add_rows (fields b) cells)) ∧
  rowDest r' = ds' ∧
  err r' = err r ∧ record r' = record r ∧ schema r' = schema r ∧
  batchSize r' = batchSize r ∧ refCount r' = refCount r.

(** The cursor after [Next] has fetched [row] and left [rest]. *)
Definition fetched (rs : sql.Rows) (row : list sql.Value)
    (rest : list (list sql.Value)) : sql.Rows :=
  {| sql.pending := rest; sql.ending := sql.ending rs;
     sql.lastcols := Some row; sql.finished := false; sql.closed := false |}.

(** The cursor after [Next] has found it exhausted. *)
Definition exhausted (rs : sql.Rows) : sql.Rows :=
  {| sql.pending := []; sql.ending := sql.ending rs; sql.lastcols := None;
     sql.finished := true; sql.closed := true |}.

(** The references held on column data in a system: those of the reader's
    current record, unless the process has crashed, and those of the records
    in the consumer's hands. *)
Definition holders (s : Sys) : list nat :=
  (if crashed s then [] else record_datas (reader s)) ++
  concat (map datas (held s)).

(** What the row loop leaves alone: the current record, and the identity of
    the builder. *)
Definition framed (r r' : BatchReader) : Prop :=
  record r' = record r ∧
  ∀ b, builder r = Some b → ∃ b', builder r' = Some b' ∧ id b' = id b.

(** A record whose columns all have the length the record says. *)
Definition record_wf (rec : simpleRecord) : Prop :=
  0 ≤ NumRows rec ∧
  Forall (λ c, Z.of_nat (length (col_vals c)) = NumRows rec) (arrs rec).

(** The invariant of a system, with respect to references [extra] held by
    somebody outside of it: all references are counted, and the reader's
    current record is well formed. *)
Definition sound (s : Sys) (extra : list nat) : Prop :=
  accounted (heap s) (holders s ++ extra) ∧
  (crashed s = false → ∀ rec, record (reader s) = Some rec → record_wf rec).

(** A reader fresh from [NewBatchReaderWithSchema], on an empty heap, with a
    consumer that holds nothing. *)
Definition boot (schema : arrow.Schema) (rs : sql.Rows) : Sys :=
  let '(r, h) := NewBatchReaderWithSchema memory.empty schema rs in
  {| reader := r; heap := h; held := []; crashed := false |}.

(** ** Example values *)

Definition field (name : string) (t : arrow.Type_ID) (nullable : bool)
  : arrow.Field :=
  {| arrow.Name := name; arrow.Type_ := t; arrow.Nullable := nullable |}.

(** 1969-12-31 23:59:59 UTC, one second before the epoch. *)
Definition eve_of_epoch : time.Time :=
  {| time.sec := -1; time.nsec := 0; time.offset := 0 |}.

(** A reader over [rws] with the cursor ending in [ending]. *)
Definition reader_over (schema : arrow.Schema) (rws : list (list sql.Value))
    (ending : option error) (size : Z) : BatchReader * Heap :=
  let '(r, h) :=
    NewBatchReaderWithSchema memory.empty schema (sql.open rws ending) in
  (SetBatchSize r size, h).

Definition ids_schema : arrow.Schema := [field "id" arrow.INT64 false].
Definition ids (l : list Z) : list (list sql.Value) :=
  map (λ i, [sql.Int64 i]) l.

Definition conn_lost : error := errors.Foreign "driver: bad connection".

(** A reader whose only column is INT64 but whose destination has been
    replaced by a dynamic slot; the cursor holds one row with a string. *)
Definition forced_dynamic_reader : BatchReader * Heap :=
  let '(r, h) :=
    reader_over [field "n" arrow.INT64 true] [[sql.String_ "abc"]] None 3 in
  (set_rowDest [PInterface (Some None)] r, h).

(** A reader over a column of a type [createScanDest] has no case for (its
    destination is a dynamic slot), with one row holding a string. *)
Definition other_type_reader : BatchReader * Heap :=
  reader_over [field "s" (arrow.OTHER 0) true] [[sql.String_ "abc"]] None 3.

Definition nullable_uint16_reader : BatchReader * Heap :=
  reader_over [field "u" arrow.UINT16 true] [[sql.Int64 7]] None 3.

Definition nullable_int8_reader : BatchReader * Heap :=
  reader_over [field "i" arrow.INT8 true] [[sql.Int64 5]] None 3.

(** The record of the rows 1 and 2 of an [ids] cursor. *)
Definition base_record : simpleRecord :=
  {| rec_schema := ids_schema;
     arrs := [{| data := 0; col_kind := array.Int64Builder;
                 col_vals := [array.VInt 1; array.VInt 2] |}];
     rows_ := 2 |}.

(** A reader that has recorded an error. *)
Definition failed_reader : BatchReader * Heap :=
  let '(r, h) := reader_over ids_schema (ids [1; 2]) None 3 in
  (set_err (Some conn_lost) r, h).

(** A reader over a cursor without rows that ends with an error. *)
Definition empty_cursor_reader : BatchReader * Heap :=
  reader_over ids_schema [] (Some conn_lost) 3.

(** A reader over three rows, with batch size 2. *)
Definition three_rows_reader : BatchReader * Heap :=
  reader_over ids_schema (ids [1; 2; 3]) None 2.

(** The system of such a reader after its first call of [Next]. *)
Definition after_first_batch : Sys :=
  run convertAssign_basic (boot ids_schema (sql.open (ids [1; 2; 3]) None))
    [OpSetBatchSize 2; OpNext].

(** ** The rest of the reader *)

Section Construction.

(** The column descriptors of [database/sql] and the type converter of the
    repository ([GetArrowFieldFromColumn], which is not among the sources) are
    taken as they come: a type of column descriptors and the function from a
    descriptor to its field or an error. *)
Context {ColumnType : Type}.
Variable GetArrowFieldFromColumn : ColumnType → error + arrow.Field.

(** The loop of [NewBatchReader] over the column descriptors, from index [i]
    on: the fields and their destinations, or the error of the first column
    that has no field, wrapped with its index. *)
Fixpoint NewBatchReader_loop (i : nat) (cols : list ColumnType)
  : error + (list arrow.Field * list ScanDest) :=
  match cols with
  | [] => inr ([], [])
  | col :: cols' =>
      match GetArrowFieldFromColumn col with
      | inl err =>
          inl (errors.Wrapf err errors.CodeInternal
                 "failed to convert column " i)
      | inr field =>
          match NewBatchReader_loop (S i) cols' with
          | inl e => inl e
          | inr (fields, rowDest) =>
              inr (field :: fields, createScanDest field :: rowDest)
          end
      end
  end.

(** [NewBatchReader]; [ColumnTypes] is what [rows.ColumnTypes()] returns.  On
    an error the cursor is closed; it is returned beside the error. *)
Definition NewBatchReader (h : Heap)
    (ColumnTypes : sql.Rows → error + list ColumnType) (rows : sql.Rows)
  : (error * sql.Rows) + (BatchReader * Heap) :=
  match ColumnTypes rows with
  | inl err =>
      inl (errors.Wrap err errors.CodeInternal "failed to get column types",
           sql.Close rows)
  | inr cols =>
      match NewBatchReader_loop 0 cols with
      | inl e => inl (e, sql.Close rows)
      | inr (fields, rowDest) =>
          let '(b, h') := NewRecordBuilder h fields in
          inr ({| refCount := 1; schema := fields; rows := Some rows;
                  record := None; builder := Some b; err := None;
                  rowDest := rowDest; batchSize := defaultBatchSize |}, h')
      end
  end.

End Construction.

(** [Release], [n] times. *)
Fixpoint release_n (n : nat) (r : BatchReader) (h : Heap)
  : BatchReader * Heap :=
  match n with
  | O => (r, h)
  | S n' => let '(r', h') := Release_ r h in release_n n' r' h'
  end.

(** The columns whose destination and builder are of one type: all but the
    decimals, which are scanned as strings, the nullable INT8 and the
    nullable unsigned 16, 32 and 64 bit integers, and the types that get a
    dynamic slot. *)
Definition supported (f : arrow.Field) : bool :=
  match arrow.Type_ f with
  | arrow.DECIMAL | arrow.DECIMAL256 | arrow.OTHER _ => false
  | arrow.INT8 | arrow.UINT16 | arrow.UINT32 | arrow.UINT64 =>
      negb (arrow.Nullable f)
  | _ => true
  end.

(** A destination that points to something: no nil pointer in it. *)
Definition points (d : ScanDest) : bool :=
  match d with
  | PBool None | PInt8 None | PUint8 None | PInt16 None | PUint16 None
  | PInt32 None | PUint32 None | PInt64 None | PUint64 None
  | PFloat32 None | PFloat64 None | PString None | PBytes None | PTime None
  | PInterface None | PPUint16 None | PPUint32 None | PPUint64 None => false
  | _ => true
  end.

(** The first column of a row at which the append returns an error, with
    that error, when every column before it takes its cell; [None] when no
    column returns an error or an earlier one panics.  [j] is the index of
    the first column of [ks]. *)
Fixpoint first_error (j : nat) (ks : list array.Kind) (ds : list ScanDest)
  : option (nat * error) :=
  match ks, ds with
  | k :: ks', d :: ds' =>
      match appendValue_field {| array.kind := k; array.vals := [] |} d with
      | Ok _ => first_error (S j) ks' ds'
      | Err e => Some (j, e)
      | Panic => None
      end
  | _, _ => None
  end.

(** What no operation of the reader changes, and what only [Retain] and
    [Release] and [SetBatchSize] change. *)
Definition kept (r r' : BatchReader) : Prop :=
  schema r' = schema r ∧ batchSize r' = batchSize r ∧
  refCount r' = refCount r.

(** The longest column of a set of field builders is at most [m] long. *)
Definition within (m : nat) (fs : list array.Builder) : Prop :=
  ∀ f, f ∈ fs → (length (array.vals f) ≤ m)%nat.

(** The same in the middle of a row: the columns before [j] have taken the
    cell of the row, the others not yet. *)
Definition within_row (j m : nat) (fs : list array.Builder) : Prop :=
  ∀ k f, fs !! k = Some f →
         (length (array.vals f) ≤ if decide (k < j)%nat then S m else m)%nat.

(** 1970-01-01 13:00:00.5 on a wall clock one hour east of UTC. *)
Definition one_pm : time.Time :=
  {| time.sec := 43200; time.nsec := 500000000; time.offset := 3600 |}.

(** 1969-12-29 12:00:00 UTC, two days and a half before the epoch. *)
Definition before_epoch : time.Time :=
  {| time.sec := -216000; time.nsec := 0; time.offset := 0 |}.

(** [time.Unix(math.MinInt64, 0).UTC()], the least instant of 64-bit
    seconds. *)
Definition first_instant : time.Time :=
  {| time.sec := - 2 ^ 63; time.nsec := 0; time.offset := 0 |}.

(** A type converter for the examples, on the names of database types. *)
Definition demo_field (col : string) : error + arrow.Field :=
  if String.eqb col "BIGINT" then inr (field "n" arrow.INT64 true)
  else if String.eqb col "VARCHAR" then inr (field "s" arrow.STRING true)
  else inl (errors.Foreign ("unsupported type: " +:+ col)).

(** A cursor that reports the given column descriptors. *)
Definition demo_columns (cols : list string) (rs : sql.Rows)
  : error + list string := inr cols.

(** A reader whose second row does not scan: a string for an INT64. *)
Definition bad_scan_reader : BatchReader * Heap :=
  reader_over ids_schema [[sql.Int64 1]; [sql.String_ "x"]; [sql.Int64 3]]
    None 3.

(** A reader over a column with a dynamic slot, whose second row holds a
    time: no builder of such a column takes it. *)
Definition bad_append_reader : BatchReader * Heap :=
  reader_over [field "x" (arrow.OTHER 0) true] [[sql.Nil]; [sql.Time_ one_pm]]
    None 3.

(** * Verification *)

(** ** Basic facts about the heap operations *)

Lemma memory_Release_next_data d h :
  memory.next_data (memory.Release d h) = memory.next_data h.
Proof.
  unfold memory.Release.
  destruct (memory.refcount h d) as [|[|n]]; reflexivity.
Qed.

Lemma memory_Release_builders d h :
  memory.live (memory.Release d h) = memory.live h ∧
  memory.next_builder (memory.Release d h) = memory.next_builder h.
Proof.
  unfold memory.Release.
  destruct (memory.refcount h d) as [|[|n]]; split; reflexivity.
Qed.

Lemma Release_next_data rec h :
  memory.next_data (records.Release rec h) = memory.next_data h.
Proof.
  unfold records.Release.
  induction (arrs rec) as [|c cs IH]; simpl; [reflexivity|].
  rewrite memory_Release_next_data. exact IH.
Qed.

Lemma Release_builders rec h :
  memory.live (records.Release rec h) = memory.live h ∧
  memory.next_builder (records.Release rec h) = memory.next_builder h.
Proof.
  unfold records.Release.
  induction (arrs rec) as [|c cs [IH1 IH2]]; simpl; [done|].
  destruct (memory_Release_builders (data c)
              (foldr (λ c0, memory.Release (data c0)) h cs)) as [E1 E2].
  rewrite E1, E2. done.
Qed.

(** The two opening blocks of [Next] leave the cursor, the error, the
    destinations, the schema and the batch size alone. *)
Lemma release_record_fields r h :
  let r' := (release_record r h).1 in
  rows r' = rows r ∧ err r' = err r ∧ rowDest r' = rowDest r ∧
  schema r' = schema r ∧ batchSize r' = batchSize r ∧
  builder r' = builder r ∧ refCount r' = refCount r ∧ record r' = None.
Proof.
  unfold release_record. destruct (record r) eqn:E; simpl; rewrite ?E; done.
Qed.

Lemma renew_builder_fields r h :
  let r' := (renew_builder r h).1 in
  rows r' = rows r ∧ err r' = err r ∧ rowDest r' = rowDest r ∧
  schema r' = schema r ∧ batchSize r' = batchSize r ∧
  record r' = record r ∧ refCount r' = refCount r.
Proof. unfold renew_builder. simpl. done. Qed.

Lemma release_record_next_data r h :
  memory.next_data (release_record r h).2 = memory.next_data h.
Proof.
  unfold release_record. destruct (record r); simpl; [|reflexivity].
  apply Release_next_data.
Qed.

Lemma renew_builder_next_data r h :
  memory.next_data (renew_builder r h).2 = memory.next_data h.
Proof. unfold renew_builder. simpl. destruct (builder r); reflexivity. Qed.

(** ** The sticky error *)

(** C10. Once [Err] returns an error, [Next] returns false at once: the
    reader (cursor, current record, builder, error) and the heap come back
    unchanged, so no row is fetched. *)
Theorem C10_error_is_sticky convertAssign r h e :
  Err_ r = Some e →
  Next convertAssign r h = Returned false r h.
Proof. unfold Err_, Next. intros ->. reflexivity. Qed.

Lemma C10_error_is_sticky_witness :
  Err_ failed_reader.1 = Some conn_lost ∧
  Next convertAssign_basic failed_reader.1 failed_reader.2
  = Returned false failed_reader.1 failed_reader.2.
Proof.
  split; [reflexivity|].
  apply (C10_error_is_sticky convertAssign_basic _ _ conn_lost). reflexivity.
Defined.

(** ** No row on the first fetch *)

(** A call of [Next] whose first fetch yields no row. *)
Lemma Next_no_row convertAssign r h rs :
  err r = None →
  rows r = Some rs →
  0 < batchSize r →
  (sql.Next rs).1 = false →
  ∃ r' h',
    Next convertAssign r h = Returned false r' h' ∧
    err r' = sql.Err (sql.Next rs).2 ∧
    (sql.closed rs = false → err r' = sql.ending rs) ∧
    (sql.ending rs = None → err r' = None) ∧
    record r' = None ∧
    memory.next_data h' = memory.next_data h.
Proof.
  intros Herr Hrows Hsize Hnext.
  unfold Next. rewrite Herr.
  pose proof (release_record_fields r h) as F1.
  pose proof (release_record_next_data r h) as N1.
  destruct (release_record r h) as [r1 h1]. simpl in F1, N1.
  destruct F1 as (R1 & E1 & D1 & S1 & B1 & _ & _ & Rec1).
  pose proof (renew_builder_fields r1 h1) as F2.
  pose proof (renew_builder_next_data r1 h1) as N2.
  destruct (renew_builder r1 h1) as [r2 h2]. simpl in F2, N2.
  destruct F2 as (R2 & E2 & D2 & S2 & B2 & Rec2 & _).
  assert (Hn : ∃ n, Z.to_nat (batchSize r2) = S n).
  { exists (Nat.pred (Z.to_nat (batchSize r2))). lia. }
  destruct Hn as [n ->]. simpl.
  rewrite R2, R1, Hrows.
  destruct (sql.Next rs) as [more rs'] eqn:EN. simpl in Hnext. subst more.
  simpl. eexists _, _. split; [reflexivity|]. simpl.
  repeat split.
  - intros Hopen. unfold sql.Next in EN. rewrite Hopen in EN.
    destruct (sql.pending rs); [|discriminate].
    inversion EN. reflexivity.
  - intros Hclean. unfold sql.Next in EN.
    destruct (sql.closed rs).
    + inversion EN. subst rs'. unfold sql.Err. rewrite Hclean.
      destruct (sql.finished rs); reflexivity.
    + destruct (sql.pending rs); [|discriminate].
      inversion EN. unfold sql.Err. simpl. exact Hclean.
  - congruence.
  - congruence.
Qed.

(** C4. When the first fetch of a call of [Next] yields no row, the call
    returns false, the reader's error is what the cursor's [Err] reports
    then (the trailing error of a cursor that was still open, nothing after
    a clean end), the record slot is empty and no column data has been
    allocated. *)
Theorem C4_no_row_on_first_fetch convertAssign r h rs :
  err r = None →
  rows r = Some rs →
  0 < batchSize r →
  (sql.Next rs).1 = false →
  ∃ r' h',
    Next convertAssign r h = Returned false r' h' ∧
    err r' = sql.Err (sql.Next rs).2 ∧
    (sql.closed rs = false → err r' = sql.ending rs) ∧
    (sql.ending rs = None → err r' = None) ∧
    record r' = None ∧
    memory.next_data h' = memory.next_data h.
Proof. apply Next_no_row. Qed.

Lemma C4_no_row_on_first_fetch_witness :
  ∃ r' h',
    Next convertAssign_basic empty_cursor_reader.1 empty_cursor_reader.2
    = Returned false r' h' ∧
    err r' = Some conn_lost ∧ record r' = None.
Proof.
  destruct (C4_no_row_on_first_fetch convertAssign_basic
              empty_cursor_reader.1 empty_cursor_reader.2
              (sql.open [] (Some conn_lost)))
    as (r' & h' & HN & HE & _ & _ & HR & _);
    [reflexivity | reflexivity | reflexivity | reflexivity |].
  exists r', h'. split; [exact HN|]. split; [exact HE | exact HR].
Defined.

(** ** Type mismatches *)

(** Where the code checks the builder's type, a mismatch is an [Internal]
    error: a time value offered to a builder that is not temporal, and a
    nullable float offered to a builder that is not a float builder. *)
Lemma appendTimeValue_mismatch t :
  appendTimeValue (array.NewBuilder arrow.INT64) t =
  Err (errors.New errors.CodeInternal "unexpected builder type for time value").
Proof. reflexivity. Qed.

Lemma NullFloat64_mismatch x :
  appendValue_field (array.NewBuilder arrow.INT64) (NullFloat64 true x) =
  Err (errors.New errors.CodeInternal "unexpected builder type for float").
Proof. reflexivity. Qed.

(** C5. A string in a dynamic slot, appended to the builder of an INT64
    column: [appendDynamicValue] panics in its unchecked type assertion, and
    so does the call of [Next] that reads the row; no [Internal] error is
    returned.  The same happens through the constructor, for a column of a
    type that gets a dynamic slot. *)
Theorem C5_dynamic_mismatch_panics :
  appendDynamicValue (array.NewBuilder arrow.INT64) (Some (DString "abc"))
    = Panic ∧
  (∃ h, Next convertAssign_basic forced_dynamic_reader.1
          forced_dynamic_reader.2 = Panicked h) ∧
  (∃ h, Next convertAssign_basic other_type_reader.1 other_type_reader.2
        = Panicked h).
Proof.
  split; [reflexivity|].
  split; eexists; vm_compute; reflexivity.
Qed.

(** ** Nullable unsigned columns *)

(** C6. The destination of a nullable UINT16, UINT32 or UINT64 column is a
    pointer to a pointer, and [appendValue] has no case for it: whatever the
    slot holds and whatever the builder, the append is the error
    "unsupported scan type", which [Next] reports with false. *)
Theorem C6_nullable_unsigned_is_unsupported :
  (∀ name, createScanDest (field name arrow.UINT16 true) = PPUint16 (Some None)) ∧
  (∀ name, createScanDest (field name arrow.UINT32 true) = PPUint32 (Some None)) ∧
  (∀ name, createScanDest (field name arrow.UINT64 true) = PPUint64 (Some None)) ∧
  (∀ fb v, appendValue_field fb (PPUint16 v) =
     Err (errors.New errors.CodeInternal "unsupported scan type: **uint16")) ∧
  (∀ fb v, appendValue_field fb (PPUint32 v) =
     Err (errors.New errors.CodeInternal "unsupported scan type: **uint32")) ∧
  (∀ fb v, appendValue_field fb (PPUint64 v) =
     Err (errors.New errors.CodeInternal "unsupported scan type: **uint64")) ∧
  (∃ r' h',
     Next convertAssign_basic nullable_uint16_reader.1
       nullable_uint16_reader.2 = Returned false r' h' ∧
     record r' = None ∧
     err r' = Some (errors.Wrapped
                      (errors.Coded errors.CodeInternal
                         "unsupported scan type: **uint16")
                      errors.CodeInternal
                      "failed to append value for column 0")).
Proof.
  repeat split; try reflexivity.
  eexists _, _. split; [vm_compute; reflexivity|]. split; reflexivity.
Qed.

(** ** Nullable INT8 columns *)

(** C7. The destination of a nullable INT8 column is a [sql.NullByte];
    appending a valid value asserts that the builder is a [Uint8Builder],
    which the builder of an INT8 column is not: the append panics, and so
    does [Next].  Only the null value is appended. *)
Theorem C7_nullable_int8_valid_panics :
  (∀ name, createScanDest (field name arrow.INT8 true) = NullByte false 0) ∧
  (∀ x, appendValue_field (array.NewBuilder arrow.INT8) (NullByte true x)
        = Panic) ∧
  (∀ x, appendValue_field (array.NewBuilder arrow.INT8) (NullByte false x)
        = Ok (array.push array.Null (array.NewBuilder arrow.INT8))) ∧
  (∃ h, Next convertAssign_basic nullable_int8_reader.1
          nullable_int8_reader.2 = Panicked h).
Proof.
  repeat split; try reflexivity.
  eexists. vm_compute. reflexivity.
Qed.

(** ** Temporal values *)

Lemma wrap_int32_id z : - 2 ^ 31 ≤ z < 2 ^ 31 → wrap_int32 z = z.
Proof.
  intros H. unfold wrap_int32.
  rewrite Z.mod_small by lia. lia.
Qed.

Lemma wrap_int64_id z : - 2 ^ 63 ≤ z < 2 ^ 63 → wrap_int64 z = z.
Proof.
  intros H. unfold wrap_int64.
  rewrite Z.mod_small by lia. lia.
Qed.

Lemma quot_div_nonneg a b : 0 ≤ a → 0 < b → a `quot` b = a `div` b.
Proof. intros. apply Z.quot_div_nonneg; lia. Qed.

(** From the origin of Go's count on, the count is the wall clock's seconds
    shifted by whole days. *)
Lemma abs_from_origin t :
  - time.unixToAbsolute ≤ time.sec t + time.offset t < 2 ^ 63 →
  time.abs t = time.sec t + time.offset t + time.unixToAbsolute.
Proof.
  unfold time.abs, time.unixToAbsolute. intros H.
  apply Z.mod_small. lia.
Qed.

(** The wall clock reading is then the number of seconds since midnight. *)
Lemma clock_seconds t :
  - time.unixToAbsolute ≤ time.sec t + time.offset t < 2 ^ 63 →
  time.Hour t * 3600 + time.Minute t * 60 + time.Second t =
  seconds_since_midnight t.
Proof.
  intros Hr.
  unfold time.Hour, time.Minute, time.Second, seconds_since_midnight.
  assert (E0 : time.abs t `mod` 86400 =
               (time.sec t + time.offset t) `mod` 86400).
  { rewrite (abs_from_origin t Hr).
    change time.unixToAbsolute with (106751991073094 * 86400).
    apply Z.mod_add. lia. }
  rewrite <- E0. set (a := time.abs t).
  pose proof (Z.mod_pos_bound a 86400 ltac:(lia)) as B1.
  pose proof (Z.mod_pos_bound a 3600 ltac:(lia)) as B2.
  rewrite !quot_div_nonneg by lia.
  assert (E1 : a `mod` 3600 = (a `mod` 86400) `mod` 3600).
  { symmetry. apply Z.mod_mod_divide. exists 24; lia. }
  assert (E2 : a `mod` 60 = (a `mod` 3600) `mod` 60).
  { symmetry. apply Z.mod_mod_divide. exists 60; lia. }
  rewrite E2, E1.
  pose proof (Z.div_mod (a `mod` 86400) 3600 ltac:(lia)).
  pose proof (Z.div_mod ((a `mod` 86400) `mod` 3600) 60 ltac:(lia)).
  lia.
Qed.

(** DATE64, TIME32, TIME64 and TIMESTAMP store the unit the spec names: the
    epoch types for every time whose result fits the 64-bit integer that
    carries it, the clock types for every time whose wall clock is not before
    the origin of Go's count. *)
Lemma appendTimeValue_date64 t vs :
  time.valid t → - 2 ^ 63 ≤ millis_since_epoch t < 2 ^ 63 →
  appendTimeValue {| array.kind := array.Date64Builder; array.vals := vs |} t =
  Ok {| array.kind := array.Date64Builder;
        array.vals := vs ++ [array.VInt (millis_since_epoch t)] |}.
Proof.
  unfold time.valid, millis_since_epoch. intros Hv Hr.
  unfold appendTimeValue, Append, array.push, time.UnixMilli. simpl.
  rewrite quot_div_nonneg by lia. rewrite wrap_int64_id by lia. reflexivity.
Qed.

Lemma appendTimeValue_timestamp t vs :
  time.valid t → - 2 ^ 63 ≤ micros_since_epoch t < 2 ^ 63 →
  appendTimeValue
    {| array.kind := array.TimestampBuilder; array.vals := vs |} t =
  Ok {| array.kind := array.TimestampBuilder;
        array.vals := vs ++ [array.VInt (micros_since_epoch t)] |}.
Proof.
  unfold time.valid, micros_since_epoch. intros Hv Hr.
  unfold appendTimeValue, Append, array.push, time.UnixMicro. simpl.
  rewrite quot_div_nonneg by lia. rewrite wrap_int64_id by lia. reflexivity.
Qed.

Lemma appendTimeValue_time32 t vs :
  - time.unixToAbsolute ≤ time.sec t + time.offset t < 2 ^ 63 →
  appendTimeValue {| array.kind := array.Time32Builder; array.vals := vs |} t =
  Ok {| array.kind := array.Time32Builder;
        array.vals := vs ++ [array.VInt (seconds_since_midnight t)] |}.
Proof.
  intros Hr.
  unfold appendTimeValue, Append, array.push. simpl.
  rewrite clock_seconds by exact Hr.
  pose proof (Z.mod_pos_bound (time.sec t + time.offset t) 86400 ltac:(lia)).
  rewrite wrap_int32_id by (unfold seconds_since_midnight; lia).
  reflexivity.
Qed.

Lemma appendTimeValue_time64 t vs :
  time.valid t →
  - time.unixToAbsolute ≤ time.sec t + time.offset t < 2 ^ 63 →
  appendTimeValue {| array.kind := array.Time64Builder; array.vals := vs |} t =
  Ok {| array.kind := array.Time64Builder;
        array.vals := vs ++ [array.VInt (micros_since_midnight t)] |}.
Proof.
  unfold time.valid. intros Hv Hr.
  unfold appendTimeValue, Append, array.push. simpl.
  unfold time.Nanosecond. rewrite quot_div_nonneg by lia.
  pose proof (clock_seconds t Hr) as C.
  pose proof (Z.mod_pos_bound (time.sec t + time.offset t) 86400 ltac:(lia)).
  assert (B : 0 ≤ time.nsec t `div` 1000 < 1000000).
  { split; [apply Z.div_pos; lia | apply Z.div_lt_upper_bound; lia]. }
  unfold micros_since_midnight.
  replace (time.Hour t * 3600000000 + time.Minute t * 60000000 +
           time.Second t * 1000000 + time.nsec t `div` 1000)
    with (seconds_since_midnight t * 1000000 + time.nsec t `div` 1000)
    by (rewrite <- C; lia).
  rewrite wrap_int64_id by (unfold seconds_since_midnight; lia).
  reflexivity.
Qed.

(** DATE32 stores the number of days since the epoch for the instants that
    are not before it. *)
Lemma appendTimeValue_date32_from_epoch t vs :
  0 ≤ time.sec t < 86400 * 2 ^ 31 →
  appendTimeValue {| array.kind := array.Date32Builder; array.vals := vs |} t =
  Ok {| array.kind := array.Date32Builder;
        array.vals := vs ++ [array.VInt (days_since_epoch t)] |}.
Proof.
  intros H. unfold appendTimeValue, Append, array.push, time.Unix. simpl.
  rewrite quot_div_nonneg by lia.
  unfold days_since_epoch.
  assert (0 ≤ time.sec t `div` 86400 < 2 ^ 31).
  { split; [apply Z.div_pos; lia | apply Z.div_lt_upper_bound; lia]. }
  rewrite wrap_int32_id by lia. reflexivity.
Qed.

(** C8. One second before the epoch, on 1969-12-31, the number of days since
    the epoch is -1; the DATE32 path divides with truncation and stores 0,
    the day of the epoch itself. *)
Theorem C8_date32_before_epoch :
  days_since_epoch eve_of_epoch = -1 ∧
  appendTimeValue (array.NewBuilder arrow.DATE32) eve_of_epoch =
  Ok {| array.kind := array.Date32Builder; array.vals := [array.VInt 0] |}.
Proof. split; reflexivity. Qed.

(** ** The row loop

    An append either adds one cell, which depends on the kind of the builder
    and on the destination only, or leaves the builder alone. *)
Lemma appendValue_field_cell fb d :
  match cell_of (array.kind fb) d with
  | Some c => appendValue_field fb d = Ok (array.push c fb)
  | None => ∀ fb', appendValue_field fb d ≠ Ok fb'
  end.
Proof.
  destruct fb as [k vs]. unfold cell_of.
  destruct d as
    [[?|]|[] ?|[?|]|[?|]|[] ?|[?|]|[?|]|[] ?|[?|]|[?|]|[] ?|[?|]|[?|]|[] ?
    |[?|]|[?|]|[] ?|[?|]|[] ?|[[?|]|]|[?|]|[] ?|[[[]|]|]|?|?|?];
    cbn [appendValue_field appendDynamicValue negb array.kind array.vals];
    unfold appendTimeValue, Append, AppendNull, array.push;
    cbn [array.kind array.vals];
    destruct k; repeat case_decide; try discriminate; try congruence;
    cbn [head app]; try reflexivity; try (intros ? ?; discriminate).
Qed.

Lemma row_cells_length ks ds cs :
  row_cells ks ds = Some cs → length ks = length ds ∧ length cs = length ks.
Proof.
  revert ds cs. induction ks as [|k ks IH]; intros [|d ds] cs H; simpl in H; try discriminate.
  - inversion H. done.
  - destruct (cell_of k d) as [c|]; simpl in H; [|discriminate].
    destruct (row_cells ks ds) as [cs'|] eqn:E; simpl in H; [|discriminate].
    inversion H. destruct (IH _ _ E). simpl. lia.
Qed.

Lemma add_row_kinds fs cs :
  length cs = length fs →
  map array.kind (add_row fs cs) = map array.kind fs.
Proof.
  revert cs. induction fs as [|f fs IH]; intros [|c cs] H; simpl in *; try lia; [done|].
  f_equal. apply IH. lia.
Qed.

Lemma add_row_length fs cs :
  length cs = length fs → length (add_row fs cs) = length fs.
Proof.
  intros H. unfold add_row. rewrite length_zip_with. lia.
Qed.

Lemma appendRow_cells ds : ∀ r b pre fs cs,
  builder r = Some b →
  fields b = pre ++ fs →
  row_cells (map array.kind fs) ds = Some cs →
  appendRow r (length pre) ds =
  Done (set_builder (Some (with_fields b (pre ++ add_row fs cs))) r).
Proof.
  induction ds as [|d ds IH]; intros r b pre fs cs Hb Hf Hc.
  - destruct fs; simpl in Hc; [|discriminate]. inversion Hc. subst cs.
    simpl. f_equal.
    destruct r, b. simpl in *. subst. unfold set_builder, with_fields. simpl.
    rewrite !app_nil_r. reflexivity.
  - destruct fs as [|f fs]; simpl in Hc; [discriminate|].
    pose proof (appendValue_field_cell f d) as Hcell.
    destruct (cell_of (array.kind f) d) as [c|]; simpl in Hc; [|discriminate].
    destruct (row_cells (map array.kind fs) ds) as [cs'|] eqn:E; simpl in Hc; [|discriminate].
    inversion Hc. subst cs. clear Hc.
    cbn [appendRow]. unfold appendValue. rewrite Hb. unfold Field.
    rewrite Hf. rewrite list_lookup_middle by reflexivity.
    cbn [obind]. rewrite Hcell. cbn [obind].
    set (r1 := set_builder _ r).
    specialize (IH r1 (set_Field b (length pre) (array.push c f))
                  (pre ++ [array.push c f]) fs cs').
    rewrite length_app in IH. simpl in IH.
    replace (length pre + 1)%nat with (S (length pre)) in IH by lia.
    rewrite IH; [| reflexivity | | exact E].
    + f_equal. unfold r1, with_fields. simpl. rewrite <- app_assoc. reflexivity.
    + simpl. rewrite Hf. rewrite insert_app_r_alt by lia.
      rewrite Nat.sub_diag. simpl. rewrite <- app_assoc. reflexivity.
Qed.

Section Loop.
Variable conv : ScanDest → sql.Value → error + ScanDest.

Lemma Next_loop_step n i r cnt rs b row rest ds1 cs :
  rows r = Some rs → sql.closed rs = false → sql.pending rs = row :: rest →
  builder r = Some b →
  length (rowDest r) = length row →
  Scan_loop conv (rowDest r) row = inr ds1 →
  row_cells (map array.kind (fields b)) ds1 = Some cs →
  Next_loop conv (S n) i r cnt =
  Next_loop conv n (i + 1)
    (set_builder (Some (with_fields b (add_row (fields b) cs)))
       (set_rowDest ds1 (set_rows (Some (fetched rs row rest)) r)))
    (cnt + 1).
Proof.
  intros Hr Hc Hp Hb Hl Hs Hcells.
  cbn [Next_loop]. rewrite Hr. unfold sql.Next. rewrite Hc, Hp.
  cbn [negb]. unfold Scan. cbn [sql.finished sql.closed sql.lastcols rowDest set_rows].
  rewrite Hl. rewrite Nat.eqb_refl. cbn [negb]. rewrite Hs.
  pose proof (appendRow_cells ds1
    (set_rowDest ds1 (set_rows (Some (fetched rs row rest)) r))
    b [] (fields b) cs) as HA.
  unfold fetched in HA. simpl in HA. cbn [rowDest set_rowDest].
  rewrite HA; [reflexivity | exact Hb | reflexivity | exact Hcells].
Qed.

Lemma convert_rows_cons ks ds row rest cells ds' :
  convert_rows conv ks ds (row :: rest) = Some (cells, ds') →
  ∃ ds1 cs cells2,
    length ds = length row ∧ Scan_loop conv ds row = inr ds1 ∧
    row_cells ks ds1 = Some cs ∧
    convert_rows conv ks ds1 rest = Some (cells2, ds') ∧ cells = cs :: cells2.
Proof.
  cbn [convert_rows]. intros H.
  destruct (length ds =? length row)%nat eqn:EL; simpl in H; [|discriminate].
  apply Nat.eqb_eq in EL.
  destruct (Scan_loop conv ds row) as [e|ds1] eqn:ES; [discriminate|].
  destruct (row_cells ks ds1) as [cs|] eqn:EC; simpl in H; [|discriminate].
  destruct (convert_rows conv ks ds1 rest) as [[cells2 dsf]|] eqn:ER;
    simpl in H; [|discriminate].
  inversion H. subst. exists ds1, cs, cells2. done.
Qed.

Lemma loop_post_refl r b rs :
  rows r = Some rs → builder r = Some b → loop_post r r b [] (rowDest r) rs.
Proof.
  intros Hr Hb. unfold loop_post. simpl. repeat split; try done.
  rewrite Hb. destruct b; reflexivity.
Qed.

Lemma loop_post_step r r' b cs cells ds1 ds' rs1 rs' :
  length cs = length (fields b) →
  loop_post
    (set_builder (Some (with_fields b (add_row (fields b) cs)))
       (set_rowDest ds1 (set_rows (Some rs1) r)))
    r' (with_fields b (add_row (fields b) cs)) cells ds' rs' →
  loop_post r r' b (cs :: cells) ds' rs'.
Proof.
  unfold loop_post. simpl. intros _ H. exact H.
Qed.

(** The loop when the cursor has at least [n] rows left: it runs to its
    bound. *)
Lemma Next_loop_rows n : ∀ r i cnt rs b cells ds',
  rows r = Some rs → sql.closed rs = false → builder r = Some b →
  (n ≤ length (sql.pending rs))%nat →
  convert_rows conv (map array.kind (fields b)) (rowDest r)
    (take n (sql.pending rs)) = Some (cells, ds') →
  ∃ r' rs',
    Next_loop conv n i r cnt = Break r' (cnt + Z.of_nat n) ∧
    loop_post r r' b cells ds' rs' ∧
    sql.pending rs' = drop n (sql.pending rs) ∧
    sql.ending rs' = sql.ending rs ∧ sql.closed rs' = false ∧
    ((0 < n)%nat → sql.finished rs' = false) ∧
    length cells = n.
Proof.
  induction n as [|n IH]; intros r i cnt rs b cells ds' Hr Hc Hb Hn Hconv.
  - simpl in Hconv. inversion Hconv. subst.
    exists r, rs. cbn [Next_loop]. rewrite Z.add_0_r.
    split; [reflexivity|]. split; [by apply loop_post_refl|].
    repeat split; try done. intros; lia.
  - destruct (sql.pending rs) as [|row rest] eqn:Hp; simpl in Hn; [lia|].
    rewrite firstn_cons in Hconv.
    apply convert_rows_cons in Hconv
      as (ds1 & cs & cells2 & HL & HS & HC & Hrest & ->).
    rewrite (Next_loop_step n i r cnt rs b row rest ds1 cs) by done.
    destruct (row_cells_length _ _ _ HC) as [HL1 HL2].
    rewrite length_map in HL2.
    set (b1 := with_fields b (add_row (fields b) cs)).
    set (r1 := set_builder (Some b1) _).
    destruct (IH r1 (i + 1) (cnt + 1) (fetched rs row rest) b1 cells2 ds')
      as (r' & rs' & HN & HP & Hpend & Hend & Hcl & Hfin & Hlen).
    + reflexivity.
    + reflexivity.
    + reflexivity.
    + simpl. lia.
    + simpl. rewrite add_row_kinds by done. exact Hrest.
    + exists r', rs'. rewrite HN. split; [f_equal; lia|].
      split; [by apply (loop_post_step r r' b cs cells2 ds1 ds' (fetched rs row rest) rs')|].
      simpl in Hpend, Hend. repeat split; try done.
      * intros _. destruct n; [|apply Hfin; lia].
        (* n = 0: the cursor is the one just fetched *)
        simpl in HN. inversion HN. subst r'.
        destruct HP as (HR & _). simpl in HR. inversion HR. reflexivity.
      * simpl. lia.
Qed.

(** The loop when the cursor runs out before the bound, after at least one
    row of this call. *)
Lemma Next_loop_exhaust rws : ∀ n r i cnt rs b cells ds',
  rows r = Some rs → sql.closed rs = false → sql.pending rs = rws →
  builder r = Some b →
  (length rws < n)%nat → 0 ≤ i → (0 < i ∨ rws ≠ []) →
  convert_rows conv (map array.kind (fields b)) (rowDest r) rws
    = Some (cells, ds') →
  ∃ r',
    Next_loop conv n i r cnt = Break r' (cnt + Z.of_nat (length rws)) ∧
    loop_post r r' b cells ds' (exhausted rs) ∧
    length cells = length rws.
Proof.
  induction rws as [|row rest IH];
    intros n r i cnt rs b cells ds' Hr Hc Hp Hb Hn Hi Hne Hconv.
  - destruct n as [|n]; [simpl in Hn; lia|].
    simpl in Hconv. inversion Hconv. subst.
    cbn [Next_loop]. rewrite Hr. unfold sql.Next. rewrite Hc, Hp.
    cbn [negb].
    destruct (i =? 0) eqn:Ei; [apply Z.eqb_eq in Ei; destruct Hne; [lia|done]|].
    eexists. rewrite Z.add_0_r. split; [reflexivity|].
    split; [|reflexivity].
    unfold loop_post. simpl. repeat split; try done.
    rewrite Hb. destruct b; reflexivity.
  - destruct n as [|n]; [simpl in Hn; lia|].
    apply convert_rows_cons in Hconv
      as (ds1 & cs & cells2 & HL & HS & HC & Hrest & ->).
    rewrite (Next_loop_step n i r cnt rs b row rest ds1 cs) by done.
    destruct (row_cells_length _ _ _ HC) as [HL1 HL2].
    rewrite length_map in HL2.
    set (b1 := with_fields b (add_row (fields b) cs)).
    set (r1 := set_builder (Some b1) _).
    destruct (IH n r1 (i + 1) (cnt + 1) (fetched rs row rest) b1 cells2 ds')
      as (r' & HN & HP & Hlen).
    + reflexivity.
    + reflexivity.
    + reflexivity.
    + reflexivity.
    + simpl in Hn. lia.
    + lia.
    + left. lia.
    + simpl. rewrite add_row_kinds by done. exact Hrest.
    + exists r'. rewrite HN. split; [f_equal; simpl length; lia|].
      split; [|simpl; lia].
      by apply (loop_post_step r r' b cs cells2 ds1 ds' (fetched rs row rest) (exhausted rs)).
Qed.
End Loop.

(** ** Rows and columns *)

Lemma add_row_lengths fs cs m :
  length cs = length fs →
  Forall (λ f, length (array.vals f) = m) fs →
  Forall (λ f, length (array.vals f) = S m) (add_row fs cs).
Proof.
  revert cs. induction fs as [|f fs IH]; intros [|c cs] HL HF; simpl in *; try lia.
  - constructor.
  - inversion HF; subst. constructor.
    + simpl. rewrite length_app. simpl. lia.
    + apply IH; [lia | done].
Qed.

Lemma row_at_add_row_old fs cs i :
  length cs = length fs →
  Forall (λ f, (i < length (array.vals f))%nat) fs →
  row_at (map array.vals (add_row fs cs)) i = row_at (map array.vals fs) i.
Proof.
  revert cs. induction fs as [|f fs IH]; intros [|c cs] HL HF; simpl in *; try lia.
  - reflexivity.
  - inversion HF; subst. unfold row_at in *. simpl. f_equal.
    + rewrite app_nth1 by done. reflexivity.
    + apply IH; [lia | done].
Qed.

Lemma row_at_add_row_new fs cs m :
  length cs = length fs →
  Forall (λ f, length (array.vals f) = m) fs →
  row_at (map array.vals (add_row fs cs)) m = cs.
Proof.
  revert cs. induction fs as [|f fs IH]; intros [|c cs] HL HF; simpl in *; try lia.
  - reflexivity.
  - inversion HF; subst. unfold row_at in *. simpl. f_equal.
    + rewrite app_nth2 by lia. rewrite Nat.sub_diag. reflexivity.
    + apply IH; [lia | done].
Qed.

Lemma add_rows_inv cells : ∀ fs m rows0,
  Forall (λ f, length (array.vals f) = m) fs →
  Forall (λ cs, length cs = length fs) cells →
  map (row_at (map array.vals fs)) (seq 0 m) = rows0 →
  Forall (λ f, length (array.vals f) = (m + length cells)%nat)
    (add_rows fs cells) ∧
  map (row_at (map array.vals (add_rows fs cells)))
    (seq 0 (m + length cells)) = rows0 ++ cells ∧
  map array.kind (add_rows fs cells) = map array.kind fs ∧
  length (add_rows fs cells) = length fs.
Proof.
  induction cells as [|cs cells IH]; intros fs m rows0 HF HC HR.
  - simpl. rewrite Nat.add_0_r, app_nil_r. done.
  - inversion HC as [|? ? Hcs HC']; subst.
    cbn [add_rows foldl].
    destruct (IH (add_row fs cs) (S m)
                (map (row_at (map array.vals fs)) (seq 0 m) ++ [cs]))
      as (I1 & I2 & I3 & I4).
    + by apply add_row_lengths.
    + rewrite add_row_length by done. exact HC'.
    + rewrite seq_S, map_app. simpl. f_equal.
      * apply map_ext_in. intros i Hi. apply in_seq in Hi.
        apply row_at_add_row_old; [done|].
        eapply Forall_impl; [exact HF|]. simpl. intros; lia.
      * f_equal. by apply row_at_add_row_new.
    + simpl length. replace (m + S (length cells))%nat with (S m + length cells)%nat by lia.
      fold (add_rows (add_row fs cs) cells).
      split; [exact I1|]. split; [rewrite I2, <- app_assoc; reflexivity|].
      split; [rewrite I3; by apply add_row_kinds|].
      rewrite I4. by apply add_row_length.
Qed.

Lemma convert_rows_lengths conv ks rws : ∀ ds cells ds',
  convert_rows conv ks ds rws = Some (cells, ds') →
  Forall (λ cs, length cs = length ks) cells ∧ length cells = length rws.
Proof.
  induction rws as [|row rest IH]; intros ds cells ds' H.
  - simpl in H. inversion H. split; [constructor | reflexivity].
  - apply convert_rows_cons in H
      as (ds1 & cs & cells2 & HL & HS & HC & Hrest & ->).
    destruct (IH _ _ _ Hrest) as [F L].
    destruct (row_cells_length _ _ _ HC) as [_ HL2].
    split; [constructor; done | simpl; lia].
Qed.

Lemma convert_rows_app conv ks l1 : ∀ l2 ds cells ds',
  convert_rows conv ks ds (l1 ++ l2) = Some (cells, ds') →
  ∃ c1 d1 c2,
    convert_rows conv ks ds l1 = Some (c1, d1) ∧
    convert_rows conv ks d1 l2 = Some (c2, ds') ∧ cells = c1 ++ c2.
Proof.
  induction l1 as [|row l1 IH]; intros l2 ds cells ds' H.
  - exists [], ds, cells. done.
  - simpl app in H. apply convert_rows_cons in H
      as (ds1 & cs & cells2 & HL & HS & HC & Hrest & ->).
    destruct (IH _ _ _ _ Hrest) as (c1 & d1 & c2 & H1 & H2 & ->).
    exists (cs :: c1), d1, c2. split; [|done].
    cbn [convert_rows]. rewrite HL, Nat.eqb_refl. cbn [negb]. rewrite HS, HC.
    simpl. rewrite H1. reflexivity.
Qed.

Lemma NewRecord_loop_ok fs : ∀ i rows0 h m,
  Forall (λ f, length (array.vals f) = m) fs →
  i = 0%nat ∨ rows0 = Z.of_nat m →
  ∃ cols h',
    NewRecord_loop fs i rows0 h =
      Ok (cols, (if fs is [] then rows0 else Z.of_nat m), h') ∧
    map col_vals cols = map array.vals fs ∧
    map col_kind cols = map array.kind fs.
Proof.
  induction fs as [|f fs IH]; intros i rows0 h m HF Hi.
  - exists [], h. done.
  - inversion HF as [|? ? Hf HF']; subst.
    cbn [NewRecord_loop]. unfold NewArray. cbn [memory.alloc col_vals].
    assert (Hguard : (0 <? i)%nat && negb (Z.of_nat (length (array.vals f)) =? rows0) = false).
    { destruct Hi as [-> | ->]; [reflexivity|].
      rewrite Z.eqb_refl. simpl. apply andb_false_r. }
    rewrite Hguard.
    match goal with
    | |- context [NewRecord_loop fs (S i) ?z ?h1] =>
        destruct (IH (S i) z h1 (length (array.vals f)) HF')
          as (cols & h' & HN & HV & HK); [by right|]
    end.
    rewrite HN. cbn [obind].
    eexists _, _. split.
    + f_equal. f_equal. f_equal. destruct fs; reflexivity.
    + simpl. rewrite HV, HK. done.
Qed.

Lemma renew_builder_builder r h :
  ∃ b, builder (renew_builder r h).1 = Some b ∧
       id b = memory.next_builder h ∧ rb_schema b = schema r ∧
       fields b = map (λ f, array.NewBuilder (arrow.Type_ f)) (schema r).
Proof.
  unfold renew_builder, NewRecordBuilder. simpl.
  eexists. split; [reflexivity|]. simpl.
  destruct (builder r); done.
Qed.

Lemma fresh_kinds (schema : arrow.Schema) :
  map array.kind (map (λ f, array.NewBuilder (arrow.Type_ f)) schema)
  = kinds_of schema.
Proof. unfold kinds_of. rewrite map_map. reflexivity. Qed.

Lemma NewRecord_rows b h cells :
  fields b ≠ [] →
  Forall (λ f, length (array.vals f) = length cells) (fields b) →
  map (row_at (map array.vals (fields b))) (seq 0 (length cells)) = cells →
  ∃ rec b' h',
    NewRecord b h = Ok (rec, b', h') ∧
    record_rows rec = cells ∧ NumRows rec = Z.of_nat (length cells) ∧
    Forall (λ c, length (col_vals c) = length cells) (arrs rec) ∧
    id b' = id b.
Proof.
  intros Hne HF HR. unfold NewRecord.
  destruct (NewRecord_loop_ok (fields b) 0 0 h (length cells) HF)
    as (cols & h' & HN & HV & HK); [by left|].
  rewrite HN. cbn [obind].
  eexists _, _, _. split; [reflexivity|].
  unfold record_rows, NumRows. simpl.
  assert (HFc : Forall (λ c, length (col_vals c) = length cells) cols).
  { apply Forall_map with (f := col_vals) (P := λ vs, length vs = length cells).
    rewrite HV. apply Forall_map. exact HF. }
  destruct (fields b) eqn:E; [done|].
  rewrite HV, Nat2Z.id. done.
Qed.

Section Batch.
Variable conv : ScanDest → sql.Value → error + ScanDest.

(** A call of [Next] that reads [n ≥ 1] rows, all of which scan and append:
    the record it stores, what it returns, and the cursor it leaves. *)
Lemma Next_batch r h rs n cells ds' :
  err r = None → rows r = Some rs → sql.closed rs = false →
  schema r ≠ [] →
  n = (Z.to_nat (batchSize r) `min` length (sql.pending rs))%nat →
  (0 < n)%nat →
  convert_rows conv (kinds_of (schema r)) (rowDest r)
    (take n (sql.pending rs)) = Some (cells, ds') →
  ∃ rec r' h' rs',
    Next conv r h = Returned (bool_decide (err r' = None)) r' h' ∧
    record r' = Some rec ∧ record_rows rec = cells ∧
    NumRows rec = Z.of_nat n ∧
    Forall (λ c, length (col_vals c) = n) (arrs rec) ∧
    rows r' = Some rs' ∧ rowDest r' = ds' ∧ schema r' = schema r ∧
    batchSize r' = batchSize r ∧
    sql.pending rs' = drop n (sql.pending rs) ∧
    sql.ending rs' = sql.ending rs ∧
    (if decide (Z.to_nat (batchSize r) ≤ length (sql.pending rs))%nat
     then sql.closed rs' = false ∧ err r' = None
     else rs' = exhausted rs ∧ err r' = sql.ending rs).
Proof.
  intros Herr Hrows Hopen Hschema Hn Hpos Hconv.
  unfold Next. rewrite Herr.
  pose proof (release_record_fields r h) as F1.
  destruct (release_record r h) as [r1 h1]. simpl in F1.
  destruct F1 as (R1 & E1 & D1 & S1 & B1 & _ & _ & Rec1).
  pose proof (renew_builder_fields r1 h1) as F2.
  destruct (renew_builder_builder r1 h1) as (b2 & Hb2 & _ & _ & Hfs).
  destruct (renew_builder r1 h1) as [r2 h2]. simpl in F2, Hb2.
  destruct F2 as (R2 & E2 & D2 & S2 & B2 & Rec2 & _).
  assert (Hr2 : rows r2 = Some rs) by congruence.
  assert (Hk : map array.kind (fields b2) = kinds_of (schema r)).
  { rewrite Hfs, fresh_kinds. congruence. }
  assert (Hc2 : convert_rows conv (map array.kind (fields b2)) (rowDest r2)
                  (take n (sql.pending rs)) = Some (cells, ds')).
  { rewrite Hk. replace (rowDest r2) with (rowDest r) by congruence. exact Hconv. }
  destruct (convert_rows_lengths _ _ _ _ _ _ Hc2) as [Hcl Hlen].
  assert (Hinv := add_rows_inv cells (fields b2) 0 []).
  destruct Hinv as (I1 & I2 & I3 & I4).
  { rewrite Hfs. apply Forall_map. apply Forall_true. done. }
  { eapply Forall_impl; [exact Hcl|]. simpl. intros cs Hcs.
    rewrite Hcs, length_map. reflexivity. }
  { reflexivity. }
  simpl in I1, I2.
  assert (Hfin : ∀ r3 rs3,
    loop_post r2 r3 b2 cells ds' rs3 → length cells = n →
    sql.pending rs3 = drop n (sql.pending rs) →
    sql.ending rs3 = sql.ending rs →
    (if decide (Z.to_nat (batchSize r) ≤ length (sql.pending rs))%nat
     then sql.closed rs3 = false ∧ sql.finished rs3 = false
     else rs3 = exhausted rs) →
    ∃ rec r' h' rs',
      finish r3 (0 + Z.of_nat n) h2 = Returned (bool_decide (err r' = None)) r' h' ∧
      record r' = Some rec ∧ record_rows rec = cells ∧
      NumRows rec = Z.of_nat n ∧
      Forall (λ c, length (col_vals c) = n) (arrs rec) ∧
      rows r' = Some rs' ∧ rowDest r' = ds' ∧ schema r' = schema r ∧
      batchSize r' = batchSize r ∧
      sql.pending rs' = drop n (sql.pending rs) ∧
      sql.ending rs' = sql.ending rs ∧
      (if decide (Z.to_nat (batchSize r) ≤ length (sql.pending rs))%nat
       then sql.closed rs' = false ∧ err r' = None
       else rs' = exhausted rs ∧ err r' = sql.ending rs)).
  { intros r3 rs3 (P1 & P2 & P3 & P4 & P5 & P6 & P7 & P8) Hl Hp He Hcase.
    unfold finish.
    replace (0 <? 0 + Z.of_nat n) with true by (symmetry; apply Z.ltb_lt; lia).
    rewrite P2.
    destruct (NewRecord_rows (with_fields b2 (add_rows (fields b2) cells)) h2 cells)
      as (rec & b' & h' & HN & HR & HNum & HFc & _).
    { simpl. intros Hnil. apply (f_equal length) in Hnil.
      rewrite I4, Hfs, length_map in Hnil. simpl in Hnil.
      destruct (schema r1) eqn:Es; [|discriminate].
      apply Hschema. congruence. }
    { exact I1. }
    { exact I2. }
    rewrite Hl in HFc, HNum.
    rewrite HN. cbn [rows set_builder set_record]. rewrite P1.
    assert (Herr3 : err r3 = None) by congruence.
    destruct (sql.Err rs3) as [e|] eqn:EE.
    - exists rec, (set_err (Some e) (set_builder (Some b') (set_record (Some rec) r3))), h', rs3.
      split; [reflexivity|]. simpl.
      repeat split; try done; try congruence.
      destruct (decide _); [destruct Hcase as [Hc Hf]|].
      + unfold sql.Err in EE. rewrite Hf in EE. discriminate.
      + split; [done|]. subst rs3. unfold sql.Err in EE. simpl in EE. done.
    - exists rec, (set_builder (Some b') (set_record (Some rec) r3)), h', rs3.
      split.
      { simpl. rewrite Herr3. reflexivity. }
      simpl. repeat split; try done; try congruence.
      destruct (decide _); [destruct Hcase as [Hc Hf]; done|].
      split; [done|]. subst rs3. unfold sql.Err in EE. simpl in EE. congruence. }
  replace (batchSize r2) with (batchSize r) by congruence.
  destruct (decide (Z.to_nat (batchSize r) ≤ length (sql.pending rs))%nat) as [Hle|Hgt].
  - assert (Hn' : n = Z.to_nat (batchSize r)) by lia.
    rewrite <- Hn'.
    assert (Hle' : (n ≤ length (sql.pending rs))%nat) by lia.
    destruct (Next_loop_rows conv n r2 0 0 rs b2 cells ds' Hr2 Hopen Hb2 Hle' Hc2)
      as (r3 & rs3 & HL & HP & Hpend & Hend & Hcl3 & Hfin3 & Hlen3).
    rewrite HL. apply (Hfin r3 rs3); try done.
    split; [done | apply Hfin3; lia].
  - assert (Hn' : n = length (sql.pending rs)) by lia.
    rewrite Hn', firstn_all in Hc2.
    assert (Hlt : (length (sql.pending rs) < Z.to_nat (batchSize r))%nat) by lia.
    assert (Hne : 0 < 0 ∨ sql.pending rs ≠ []).
    { right. intros Hnil. rewrite Hnil in Hn'. simpl in Hn'. lia. }
    destruct (Next_loop_exhaust conv (sql.pending rs) (Z.to_nat (batchSize r))
                r2 0 0 rs b2 cells ds' Hr2 Hopen eq_refl Hb2 Hlt (Z.le_refl 0)
                Hne Hc2)
      as (r3 & HL & HP & Hlen3).
    rewrite HL. rewrite <- Hn'. apply (Hfin r3 (exhausted rs)); try done.
    all: try lia.
    simpl. rewrite Hn', drop_all. reflexivity.
Qed.
End Batch.

(** ** Draining a cursor *)

Example batch_sizes_7_3 : batch_sizes 7 3 = [3; 3; 1] ∧ ceil_div 7 3 = 3%nat.
Proof. split; reflexivity. Qed.

Lemma NewSlice_cols_full cs m h :
  Forall (λ c, length (col_vals c) = m) cs →
  ∃ h', NewSlice_cols cs 0 (Z.of_nat m) h = Ok (cs, h').
Proof.
  revert h. induction cs as [|c cs IH]; intros h HF.
  - exists h. reflexivity.
  - inversion HF as [|? ? Hc HF']; subst.
    cbn [NewSlice_cols]. unfold NewSlice_col.
    replace (Z.of_nat (length (col_vals c)) >? Z.of_nat (length (col_vals c)))
      with false by (symmetry; rewrite Z.gtb_ltb; apply Z.ltb_ge; lia).
    replace (0 >? Z.of_nat (length (col_vals c)))
      with false by (symmetry; rewrite Z.gtb_ltb; apply Z.ltb_ge; lia).
    cbn [orb Z.ltb Z.compare obind].
    destruct (IH (memory.Retain (data c) h) HF') as [h' HN].
    rewrite HN. cbn [obind]. exists h'.
    rewrite Z.sub_0_r, Nat2Z.id. simpl drop. rewrite firstn_all.
    destruct c; reflexivity.
Qed.

Lemma Record_full r h rec m :
  record r = Some rec → NumRows rec = Z.of_nat m →
  Forall (λ c, length (col_vals c) = m) (arrs rec) →
  ∃ h', Record_ r h = Ok (Some rec, h').
Proof.
  intros Hr Hn HF. unfold Record_, NewSlice. rewrite Hr, Hn.
  destruct (NewSlice_cols_full (arrs rec) m h HF) as [h' HS].
  rewrite HS. cbn [obind]. exists h'.
  rewrite Z.sub_0_r. unfold NumRows in Hn. rewrite <- Hn.
  destruct rec; reflexivity.
Qed.

Lemma batch_sizes_0 B : (0 < B)%nat → batch_sizes 0 B = [].
Proof.
  intros HB. unfold batch_sizes.
  rewrite Nat.Div0.div_0_l, Nat.Div0.mod_0_l. reflexivity.
Qed.

Lemma batch_sizes_step N B :
  (0 < B)%nat → (B ≤ N)%nat →
  batch_sizes N B = Z.of_nat B :: batch_sizes (N - B) B.
Proof.
  intros HB HN.
  assert (E1 : (N / B = S ((N - B) / B))%nat).
  { replace N with ((N - B) + 1 * B)%nat at 1 by lia.
    rewrite Nat.div_add by lia. lia. }
  assert (E2 : (N `mod` B = (N - B) `mod` B)%nat).
  { replace N with ((N - B) + 1 * B)%nat at 1 by lia.
    apply Nat.Div0.mod_add. }
  unfold batch_sizes. rewrite E1, E2. reflexivity.
Qed.

Lemma batch_sizes_last N B :
  (0 < N)%nat → (N < B)%nat → batch_sizes N B = [Z.of_nat N].
Proof.
  intros HN HB. unfold batch_sizes.
  rewrite Nat.div_small, Nat.mod_small by lia.
  destruct (N =? 0)%nat eqn:E; [apply Nat.eqb_eq in E; lia|]. reflexivity.
Qed.

Lemma ceil_div_0 B : (0 < B)%nat → ceil_div 0 B = 0%nat.
Proof. intros. unfold ceil_div. apply Nat.div_small. lia. Qed.

Lemma ceil_div_step N B :
  (0 < B)%nat → (B ≤ N)%nat → ceil_div N B = S (ceil_div (N - B) B).
Proof.
  intros HB HN. unfold ceil_div.
  replace (N + B - 1)%nat with ((N - B + B - 1) + 1 * B)%nat by lia.
  rewrite Nat.div_add by lia. lia.
Qed.

Lemma ceil_div_last N B :
  (0 < N)%nat → (N < B)%nat → ceil_div N B = 1%nat.
Proof.
  intros HN HB. unfold ceil_div.
  replace (N + B - 1)%nat with ((N - 1) + 1 * B)%nat by lia.
  rewrite Nat.div_add by lia. rewrite Nat.div_small by lia. reflexivity.
Qed.

Lemma batch_sizes_length N B :
  (0 < B)%nat → length (batch_sizes N B) = ceil_div N B.
Proof.
  intros HB. induction N as [N IH] using lt_wf_ind.
  destruct (decide (B ≤ N)%nat) as [Hle|Hgt].
  - rewrite batch_sizes_step, ceil_div_step by done. simpl. f_equal.
    apply IH. lia.
  - destruct (decide (N = 0)%nat) as [->|Hne].
    + rewrite batch_sizes_0, ceil_div_0 by done. reflexivity.
    + rewrite batch_sizes_last, ceil_div_last by lia. reflexivity.
Qed.

Section Drain.
Variable conv : ScanDest → sql.Value → error + ScanDest.

(** The consumer loop over a cursor that ends cleanly, from any state of the
    cursor a call of [Next] can leave. *)
Lemma drain_all B : (0 < B)%nat → ∀ fuel r h rs cells ds',
  err r = None → rows r = Some rs →
  sql.closed rs = false ∨ sql.pending rs = [] →
  sql.ending rs = None →
  batchSize r = Z.of_nat B → schema r ≠ [] →
  convert_rows conv (kinds_of (schema r)) (rowDest r) (sql.pending rs)
    = Some (cells, ds') →
  (ceil_div (length (sql.pending rs)) B < fuel)%nat →
  ∃ batches r' h',
    drain conv fuel r h = Finished batches r' h' ∧ err r' = None ∧
    map NumRows batches = batch_sizes (length (sql.pending rs)) B ∧
    concat (map record_rows batches) = cells.
Proof.
  intros HB. induction fuel as [|fuel IH];
    intros r h rs cells ds' Herr Hrows Hcur Hend Hsize Hschema Hconv Hfuel;
    [lia|].
  destruct (sql.pending rs) as [|row rest] eqn:Hp.
  - (* nothing left: the call returns false *)
    destruct (Next_no_row conv r h rs Herr Hrows) as (r' & h' & HN & _ & _ & HE & _).
    { lia. }
    { unfold sql.Next. destruct (sql.closed rs); [reflexivity|].
      rewrite Hp. reflexivity. }
    cbn [drain]. rewrite HN.
    exists [], r', h'. simpl in Hconv. inversion Hconv.
    rewrite batch_sizes_0 by done. split; [reflexivity|].
    split; [by apply HE|]. done.
  - destruct Hcur as [Hopen|]; [|discriminate].
    set (N := length (row :: rest)).
    set (n := (B `min` N)%nat).
    assert (Hn : n = (Z.to_nat (batchSize r) `min` length (sql.pending rs))%nat).
    { rewrite Hsize, Nat2Z.id, Hp. reflexivity. }
    assert (Hpos : (0 < n)%nat) by (unfold n, N; simpl; lia).
    rewrite <- (take_drop n (row :: rest)) in Hconv.
    apply convert_rows_app in Hconv as (c1 & d1 & c2 & H1 & H2 & ->).
    rewrite <- Hp in H1.
    destruct (Next_batch conv r h rs n c1 d1 Herr Hrows Hopen Hschema Hn Hpos H1)
      as (rec & r1 & h1 & rs1 & HN & Hrec & Hrr & Hnum & Hcols & Hrows1 & Hd1
          & Hs1 & Hb1 & Hp1 & He1 & Hcase).
    assert (Herr1 : err r1 = None).
    { destruct (decide _); destruct Hcase as [_ ->]; done. }
    cbn [drain]. rewrite HN, Herr1.
    rewrite bool_decide_eq_true_2 by reflexivity.
    destruct (Record_full r1 h1 rec n Hrec Hnum Hcols) as [h2 HR].
    rewrite HR.
    destruct (IH r1 h2 rs1 c2 ds') as (bs & r' & h' & HD & HE' & HS & HC).
    + exact Herr1.
    + exact Hrows1.
    + destruct (decide _); [left; apply Hcase|].
      right. destruct Hcase as [-> _]. reflexivity.
    + congruence.
    + congruence.
    + congruence.
    + rewrite Hs1, Hd1, Hp1, Hp. exact H2.
    + rewrite Hp1, Hp, length_drop. fold N.
      fold N in Hfuel.
      destruct (decide (B ≤ N)%nat).
      * rewrite ceil_div_step in Hfuel by done.
        replace n with B by (unfold n; lia). lia.
      * replace n with N by (unfold n; lia).
        rewrite ceil_div_last in Hfuel by (unfold N in *; simpl in *; lia).
        rewrite Nat.sub_diag, ceil_div_0 by done. lia.
    + rewrite HD. exists (rec :: bs), r', h'.
      split; [reflexivity|]. split; [exact HE'|].
      cbn [map concat]. rewrite HC, Hrr. split; [|reflexivity].
      rewrite HS, Hnum, Hp1, Hp, length_drop. fold N.
      destruct (decide (B ≤ N)%nat).
      * replace n with B by (unfold n; lia).
        rewrite (batch_sizes_step N B) by done. reflexivity.
      * replace n with N by (unfold n; lia).
        rewrite Nat.sub_diag, batch_sizes_0 by done.
        rewrite batch_sizes_last by (unfold N in *; simpl in *; lia).
        reflexivity.
Qed.
End Drain.

(** C3 as stated fails: a cursor that yields one row and then reports an
    error, read with batch size 2.  The call reads the row and finalizes the
    batch, but returns false. *)
Lemma C3_counterexample :
  ∃ r' h' rec,
    Next convertAssign_basic
      (reader_over ids_schema (ids [1]) (Some conn_lost) 2).1
      (reader_over ids_schema (ids [1]) (Some conn_lost) 2).2
    = Returned false r' h' ∧
    record r' = Some rec ∧ record_rows rec = [[array.VInt 1]] ∧
    err r' = Some conn_lost.
Proof.
  eexists _, _, _. split; [vm_compute; reflexivity|].
  split; [reflexivity|]. split; reflexivity.
Qed.

(** C3, amended. A call of [Next] on a reader without error over a schema
    with at least one column, in which [n ≥ 1] rows are read (as many as the
    batch size allows and the cursor has) and all of them scan and append:
    the call finalizes a record of exactly these rows and stores it as the
    current record.  It returns true, unless the cursor ended with an error
    during the call; then that error is recorded and the call returns
    false. *)
Theorem C3_rows_read_make_the_batch convertAssign r h rs n cells ds' :
  err r = None → rows r = Some rs → sql.closed rs = false →
  schema r ≠ [] →
  n = (Z.to_nat (batchSize r) `min` length (sql.pending rs))%nat →
  (0 < n)%nat →
  convert_rows convertAssign (kinds_of (schema r)) (rowDest r)
    (take n (sql.pending rs)) = Some (cells, ds') →
  ∃ rec r' h',
    Next convertAssign r h = Returned (bool_decide (err r' = None)) r' h' ∧
    record r' = Some rec ∧ record_rows rec = cells ∧
    NumRows rec = Z.of_nat n ∧
    err r' =
      (if decide (Z.to_nat (batchSize r) ≤ length (sql.pending rs))%nat
       then None else sql.ending rs).
Proof.
  intros Herr Hrows Hopen Hschema Hn Hpos Hconv.
  destruct (Next_batch convertAssign r h rs n cells ds'
              Herr Hrows Hopen Hschema Hn Hpos Hconv)
    as (rec & r' & h' & rs' & HN & Hrec & Hrr & Hnum & _ & _ & _ & _ & _ & _
        & _ & Hcase).
  exists rec, r', h'. repeat split; try done.
  destruct (decide _); destruct Hcase as [_ ->]; reflexivity.
Qed.

Lemma C3_rows_read_make_the_batch_witness :
  ∃ rec r' h',
    Next convertAssign_basic
      (reader_over ids_schema (ids [1; 2; 3]) (Some conn_lost) 2).1
      (reader_over ids_schema (ids [1; 2; 3]) (Some conn_lost) 2).2
    = Returned (bool_decide (err r' = None)) r' h' ∧
    record r' = Some rec ∧
    record_rows rec = [[array.VInt 1]; [array.VInt 2]] ∧
    NumRows rec = 2 ∧ err r' = None.
Proof.
  apply (C3_rows_read_make_the_batch convertAssign_basic
           (reader_over ids_schema (ids [1; 2; 3]) (Some conn_lost) 2).1
           (reader_over ids_schema (ids [1; 2; 3]) (Some conn_lost) 2).2
           (sql.open (ids [1; 2; 3]) (Some conn_lost)) 2
           [[array.VInt 1]; [array.VInt 2]] [PInt64 (Some 2)]);
    [reflexivity | reflexivity | reflexivity | discriminate | reflexivity
    | lia | reflexivity].
Defined.

(** C1 as stated fails: a clean cursor alone does not make the batches.  A
    cursor that yields three rows and ends cleanly, read with batch size 3
    over an INT64 column: its second row holds a string, which does not scan,
    and the consumer loop ends with an error and without any record, where
    the claim has one record of three rows.  Likewise a cursor of one row
    over a nullable UINT16 column, whose destination no append takes. *)
Lemma C1_counterexample :
  (rows bad_scan_reader.1 =
     Some (sql.open [[sql.Int64 1]; [sql.String_ "x"]; [sql.Int64 3]] None) ∧
   err bad_scan_reader.1 = None ∧ batchSize bad_scan_reader.1 = 3 ∧
   ceil_div 3 3 = 1%nat ∧
   ∃ r' h' e,
     drain convertAssign_basic 2 bad_scan_reader.1 bad_scan_reader.2
     = Finished [] r' h' ∧ err r' = Some e) ∧
  (rows nullable_uint16_reader.1 = Some (sql.open [[sql.Int64 7]] None) ∧
   err nullable_uint16_reader.1 = None ∧
   batchSize nullable_uint16_reader.1 = 3 ∧
   ceil_div 1 3 = 1%nat ∧
   ∃ r' h' e,
     drain convertAssign_basic 2 nullable_uint16_reader.1
       nullable_uint16_reader.2
     = Finished [] r' h' ∧ err r' = Some e).
Proof.
  split; (do 4 (split; [reflexivity|]));
    eexists _, _, _; (split; [vm_compute; reflexivity | reflexivity]).
Qed.

(** C1, amended. A cursor that yields [N] rows and then ends cleanly, read by
    a reader without a recorded error with a batch size [B > 0] over a schema
    with at least one column, every row of which scans and appends: the
    consumer loop ends after [ceil(N/B)] records without error; their row
    counts are [B, ..., B] and then [N mod B] when that is not zero; and
    their rows, one record after the other, are the cells of the cursor's
    rows in order. *)
Theorem C1_batches_of_a_clean_cursor convertAssign r h rws B cells ds' fuel :
  err r = None →
  rows r = Some (sql.open rws None) →
  batchSize r = Z.of_nat B → (0 < B)%nat →
  schema r ≠ [] →
  convert_rows convertAssign (kinds_of (schema r)) (rowDest r) rws
    = Some (cells, ds') →
  (ceil_div (length rws) B < fuel)%nat →
  ∃ batches r' h',
    drain convertAssign fuel r h = Finished batches r' h' ∧
    err r' = None ∧
    length batches = ceil_div (length rws) B ∧
    map NumRows batches = batch_sizes (length rws) B ∧
    concat (map record_rows batches) = cells.
Proof.
  intros Herr Hrows Hsize HB Hschema Hconv Hfuel.
  destruct (drain_all convertAssign B HB fuel r h (sql.open rws None)
              cells ds' Herr Hrows)
    as (bs & r' & h' & HD & HE & HS & HC); try done.
  { by left. }
  simpl in HS. exists bs, r', h'. repeat split; try done.
  rewrite <- (length_map NumRows), HS. by apply batch_sizes_length.
Qed.

Lemma C1_batches_of_a_clean_cursor_witness :
  ∃ batches r' h',
    drain convertAssign_basic 4
      (reader_over ids_schema (ids [1; 2; 3; 4; 5; 6; 7]) None 3).1
      (reader_over ids_schema (ids [1; 2; 3; 4; 5; 6; 7]) None 3).2
    = Finished batches r' h' ∧
    err r' = None ∧
    length batches = 3%nat ∧
    map NumRows batches = [3; 3; 1] ∧
    concat (map record_rows batches) =
      map (λ i, [array.VInt i]) [1; 2; 3; 4; 5; 6; 7].
Proof.
  apply (C1_batches_of_a_clean_cursor convertAssign_basic
           (reader_over ids_schema (ids [1; 2; 3; 4; 5; 6; 7]) None 3).1
           (reader_over ids_schema (ids [1; 2; 3; 4; 5; 6; 7]) None 3).2
           (ids [1; 2; 3; 4; 5; 6; 7]) 3
           (map (λ i, [array.VInt i]) [1; 2; 3; 4; 5; 6; 7])
           [PInt64 (Some 7)] 4);
    [reflexivity | reflexivity | reflexivity | lia | discriminate
    | reflexivity | vm_compute; lia].
Defined.

(** ** What the row loop leaves alone *)

Lemma appendValue_frame r colIdx value r' :
  appendValue r colIdx value = Ok r' →
  record r' = record r ∧ rows r' = rows r ∧ err r' = err r ∧
  ∀ b, builder r = Some b → ∃ b', builder r' = Some b' ∧ id b' = id b.
Proof.
  unfold appendValue. destruct (builder r) as [b|] eqn:Hb; [|discriminate].
  destruct (Field b colIdx) as [fb| |]; simpl; try discriminate.
  destruct (appendValue_field fb value) as [fb'| |]; simpl; try discriminate.
  intros H. inversion H. subst r'. simpl. repeat split; try done.
  intros b0 Hb0. inversion Hb0. subst b0. eexists. split; reflexivity.
Qed.

Lemma appendRow_frame dests : ∀ r colIdx,
  match appendRow r colIdx dests with
  | Done r' | Failed r' _ =>
      record r' = record r ∧ rows r' = rows r ∧ err r' = err r ∧
      ∀ b, builder r = Some b → ∃ b', builder r' = Some b' ∧ id b' = id b
  | Panics => True
  end.
Proof.
  induction dests as [|d ds IH]; intros r colIdx; cbn [appendRow].
  - repeat split; try done. intros b Hb. by exists b.
  - destruct (appendValue r colIdx d) as [r1| |] eqn:E; [| |done].
    + destruct (appendValue_frame _ _ _ _ E) as (F1 & F2 & F3 & F4).
      specialize (IH r1 (S colIdx)).
      destruct (appendRow r1 (S colIdx) ds) as [r'|r' e|]; [| |done].
      * destruct IH as (I1 & I2 & I3 & I4).
        repeat split; try congruence.
        intros b Hb. destruct (F4 b Hb) as (b1 & Hb1 & Hid1).
        destruct (I4 b1 Hb1) as (b' & Hb' & Hid'). exists b'. split; [done|congruence].
      * destruct IH as (I1 & I2 & I3 & I4).
        repeat split; try congruence.
        intros b Hb. destruct (F4 b Hb) as (b1 & Hb1 & Hid1).
        destruct (I4 b1 Hb1) as (b' & Hb' & Hid'). exists b'. split; [done|congruence].
    + repeat split; try done. intros b Hb. by exists b.
Qed.

Section Frame.
Variable conv : ScanDest → sql.Value → error + ScanDest.

Lemma framed_refl r : framed r r.
Proof. split; [done|]. intros b Hb. by exists b. Qed.

Lemma framed_trans r1 r2 r3 : framed r1 r2 → framed r2 r3 → framed r1 r3.
Proof.
  intros [A1 A2] [B1 B2]. split; [congruence|].
  intros b Hb. destruct (A2 b Hb) as (b2 & Hb2 & Hid2).
  destruct (B2 b2 Hb2) as (b3 & Hb3 & Hid3). exists b3. split; [done|congruence].
Qed.

Lemma Next_loop_frame n : ∀ i r cnt,
  match Next_loop conv n i r cnt with
  | Return_false r' | Break r' _ => framed r r'
  | Crash => True
  end.
Proof.
  induction n as [|n IH]; intros i r cnt; cbn [Next_loop].
  - apply framed_refl.
  - destruct (rows r) as [rs|]; [|done].
    destruct (sql.Next rs) as [more rs'].
    destruct more; cbn [negb].
    + destruct (Scan conv rs' _) as [e|dest].
      * split; [done|]. intros b Hb. by exists b.
      * cbn [rowDest set_rowDest].
        pose proof (appendRow_frame dest (set_rowDest dest (set_rows (Some rs') r)) 0%nat) as HA.
        destruct (appendRow _ 0 dest) as [r1|r1 e|]; [| |done].
        -- destruct HA as (A1 & A2 & A3 & A4).
           specialize (IH (i + 1) r1 (cnt + 1)).
           destruct (Next_loop conv n (i + 1) r1 (cnt + 1)); try done;
             (eapply framed_trans; [|exact IH]; split; [exact A1 | exact A4]).
        -- destruct HA as (A1 & A2 & A3 & A4). split; [exact A1 | exact A4].
    + destruct (i =? 0); split; try done; intros b Hb; by exists b.
Qed.
End Frame.

(** ** Reference counts *)

Lemma refcount_Retain h d d' :
  memory.refcount (memory.Retain d h) d' =
  if decide (d = d') then S (memory.refcount h d) else memory.refcount h d'.
Proof.
  unfold memory.Retain, memory.refcount at 1. simpl.
  rewrite lookup_insert. case_decide; reflexivity.
Qed.

Lemma refcount_Release h d d' :
  memory.refcount (memory.Release d h) d' =
  if decide (d = d') then Nat.pred (memory.refcount h d)
  else memory.refcount h d'.
Proof.
  unfold memory.Release.
  destruct (memory.refcount h d) as [|[|n]] eqn:E.
  - case_decide; [subst; rewrite E|]; reflexivity.
  - unfold memory.refcount at 1. simpl. rewrite lookup_delete.
    case_decide; reflexivity.
  - unfold memory.refcount at 1. simpl. rewrite lookup_insert.
    case_decide; reflexivity.
Qed.

Lemma refcount_None h d :
  memory.refs h !! d = None → memory.refcount h d = 0%nat.
Proof. unfold memory.refcount. intros ->. reflexivity. Qed.

Lemma refcount_pos_Some h d :
  (0 < memory.refcount h d)%nat → memory.refs h !! d ≠ None.
Proof. unfold memory.refcount. intros H E. rewrite E in H. simpl in H. lia. Qed.

Lemma accounted_le h X X' :
  (∀ d, (count_occ Nat.eq_dec X' d ≤ count_occ Nat.eq_dec X d)%nat) →
  accounted h X → accounted h X'.
Proof.
  intros Hle [H1 H2]. split; [|exact H2].
  intros d. specialize (Hle d). specialize (H1 d). lia.
Qed.

Lemma accounted_heap h h' X :
  memory.refs h' = memory.refs h → memory.next_data h' = memory.next_data h →
  accounted h X → accounted h' X.
Proof.
  intros E1 E2 [H1 H2]. unfold accounted, memory.refcount in *.
  rewrite E1, E2. done.
Qed.

Lemma accounted_held h X d :
  accounted h X → In d X → (0 < memory.refcount h d)%nat.
Proof.
  intros [H1 _] Hin. specialize (H1 d).
  apply (count_occ_In Nat.eq_dec) in Hin. lia.
Qed.

Lemma accounted_Retain h X d :
  (0 < memory.refcount h d)%nat →
  accounted h X → accounted (memory.Retain d h) (d :: X).
Proof.
  intros Hpos [H1 H2]. split.
  - intros d'. rewrite refcount_Retain. specialize (H1 d').
    simpl. destruct (Nat.eq_dec d d'); case_decide; try congruence; subst; lia.
  - intros d' Hd'. simpl in *. apply refcount_pos_Some in Hpos.
    rewrite lookup_insert. case_decide; [|by apply H2].
    subst d'. exfalso. apply Hpos. by apply H2.
Qed.

Lemma accounted_Release h X d :
  accounted h (d :: X) → accounted (memory.Release d h) X.
Proof.
  intros [H1 H2]. split.
  - intros d'. rewrite refcount_Release. specialize (H1 d').
    simpl in H1. destruct (Nat.eq_dec d d'); case_decide; try congruence; subst; lia.
  - intros d' Hd'. rewrite memory_Release_next_data in Hd'.
    specialize (H2 d' Hd').
    unfold memory.Release.
    destruct (memory.refcount h d) as [|[|n]] eqn:E; simpl.
    + exact H2.
    + rewrite lookup_delete. case_decide; done.
    + rewrite lookup_insert. case_decide; [|done].
      subst d'. rewrite (refcount_None h d H2) in E. discriminate.
Qed.

Lemma accounted_alloc h X :
  accounted h X → accounted (memory.alloc h).2 ((memory.alloc h).1 :: X).
Proof.
  intros [H1 H2]. unfold memory.alloc. simpl. split.
  - intros d. unfold memory.refcount. simpl. rewrite lookup_insert.
    specialize (H1 d). unfold memory.refcount in H1.
    destruct (Nat.eq_dec (memory.next_data h) d); case_decide;
      try congruence; try done.
    subst d. rewrite (H2 (memory.next_data h)) in H1 by lia. simpl in *. lia.
  - intros d Hd. simpl in *. rewrite lookup_insert_ne by lia. apply H2. lia.
Qed.

Lemma Release_accounted cs : ∀ h Y,
  accounted h (map data cs ++ Y) →
  accounted (foldr (λ c, memory.Release (data c)) h cs) Y.
Proof.
  induction cs as [|c cs IH]; intros h Y H; [exact H|].
  simpl. apply accounted_Release. apply IH.
  eapply accounted_le; [|exact H].
  intros d. simpl. rewrite !count_occ_app. simpl.
  destruct (Nat.eq_dec (data c) d); lia.
Qed.

Lemma NewRecord_loop_heap fs : ∀ i z h cols z' h' X,
  NewRecord_loop fs i z h = Ok (cols, z', h') →
  accounted h X →
  accounted h' (map data cols ++ X) ∧
  memory.live h' = memory.live h ∧
  memory.next_builder h' = memory.next_builder h.
Proof.
  induction fs as [|f fs IH]; intros i z h cols z' h' X HN HA.
  - simpl in HN. inversion HN. subst. done.
  - cbn [NewRecord_loop] in HN. unfold NewArray in HN.
    pose proof (accounted_alloc h X HA) as HA1.
    destruct (memory.alloc h) as [d h1] eqn:EA. simpl in HA1.
    assert (EB : memory.live h1 = memory.live h ∧
                 memory.next_builder h1 = memory.next_builder h).
    { unfold memory.alloc in EA. inversion EA. done. }
    cbn [col_vals] in HN.
    destruct ((0 <? i)%nat && negb (Z.of_nat (length (array.vals f)) =? z));
      [discriminate|].
    destruct (NewRecord_loop fs (S i) _ h1) as [[[cols1 z1] h2]| |] eqn:E1;
      simpl in HN; try discriminate.
    inversion HN. subst.
    destruct (IH _ _ _ _ _ _ (d :: X) E1 HA1) as (I1 & I2 & I3).
    destruct EB as [EB1 EB2].
    split; [|split; congruence].
    eapply accounted_le; [|exact I1].
    intros d'. simpl. rewrite !count_occ_app. simpl.
    destruct (Nat.eq_dec d d'); lia.
Qed.

Lemma NewSlice_cols_heap cs : ∀ i j h cs' h' Y,
  NewSlice_cols cs i j h = Ok (cs', h') →
  (∀ c, In c cs → In (data c) Y) →
  accounted h Y →
  map data cs' = map data cs ∧
  accounted h' (map data cs ++ Y) ∧
  (∀ d, memory.refcount h' d =
        (memory.refcount h d + count_occ Nat.eq_dec (map data cs) d)%nat) ∧
  Forall2 (λ c c', col_vals c' =
             take (Z.to_nat (j - i)) (drop (Z.to_nat i) (col_vals c)))
    cs cs'.
Proof.
  induction cs as [|c cs IH]; intros i j h cs' h' Y HN Hin HA.
  - simpl in HN. inversion HN. subst. simpl.
    split; [done|]. split; [done|]. split; [intros d; lia | constructor].
  - cbn [NewSlice_cols] in HN. unfold NewSlice_col in HN.
    destruct ((j >? Z.of_nat (length (col_vals c))) || (i >? j) || (i <? 0));
      [discriminate|].
    cbn [obind] in HN.
    destruct (NewSlice_cols cs i j (memory.Retain (data c) h))
      as [[cs1 h1]| |] eqn:E1; simpl in HN; try discriminate.
    inversion HN. subst.
    assert (Hpos : (0 < memory.refcount h (data c))%nat).
    { eapply accounted_held; [exact HA|]. apply Hin. by left. }
    destruct (IH i j _ _ _ (data c :: Y) E1) as (I1 & I2 & I3 & I4).
    { intros c0 Hc0. right. apply Hin. by right. }
    { by apply accounted_Retain. }
    simpl. split; [|split; [|split]].
    + f_equal. exact I1.
    + eapply accounted_le; [|exact I2].
      intros d'. simpl. rewrite !count_occ_app. simpl.
      destruct (Nat.eq_dec (data c) d'); lia.
    + intros d. rewrite I3, refcount_Retain.
      destruct (Nat.eq_dec (data c) d); case_decide; try congruence; subst; lia.
    + constructor; [reflexivity | exact I4].
Qed.

Lemma NewRecord_loop_agree fs : ∀ i z h cols z' h',
  NewRecord_loop fs (S i) z h = Ok (cols, z', h') →
  z' = z ∧ Forall (λ c, Z.of_nat (length (col_vals c)) = z) cols.
Proof.
  induction fs as [|f fs IH]; intros i z h cols z' h' HN.
  - simpl in HN. inversion HN. subst. split; [done | constructor].
  - cbn [NewRecord_loop] in HN. unfold NewArray in HN.
    destruct (memory.alloc h) as [d h1]. cbn [col_vals] in HN.
    destruct (Z.of_nat (length (array.vals f)) =? z) eqn:Ez;
      [|simpl in HN; discriminate].
    apply Z.eqb_eq in Ez. simpl in HN.
    destruct (NewRecord_loop fs (S (S i)) _ h1) as [[[cols1 z1] h2]| |] eqn:E1;
      simpl in HN; try discriminate.
    inversion HN. subst cols z' h'.
    destruct (IH _ _ _ _ _ _ E1) as [-> HF].
    split; [done|]. constructor; [exact Ez|].
    rewrite <- Ez. exact HF.
Qed.

Lemma NewRecord_wf b h rec b' h' :
  NewRecord b h = Ok (rec, b', h') → record_wf rec ∧ id b' = id b.
Proof.
  unfold NewRecord.
  destruct (NewRecord_loop (fields b) 0 0 h) as [[[cols z] h1]| |] eqn:E;
    simpl; try discriminate.
  intros H. inversion H. subst. split; [|reflexivity].
  unfold record_wf, NumRows. simpl.
  destruct (fields b) as [|f fs].
  - simpl in E. inversion E. subst. split; [lia | constructor].
  - cbn [NewRecord_loop] in E. unfold NewArray in E.
    destruct (memory.alloc h) as [d h0]. cbn [col_vals] in E.
    simpl in E.
    destruct (NewRecord_loop fs 1 _ h0) as [[[cols1 z1] h2]| |] eqn:E1;
      simpl in E; try discriminate.
    inversion E. subst.
    destruct (NewRecord_loop_agree _ _ _ _ _ _ _ E1) as [-> HF].
    split; [lia|]. constructor; [reflexivity | exact HF].
Qed.

Lemma record_datas_set_record rec r :
  record_datas (set_record (Some rec) r) = datas rec.
Proof. reflexivity. Qed.

Section Invariant.
Variable conv : ScanDest → sql.Value → error + ScanDest.

Lemma finish_inv r k h Y :
  record r = None → accounted h Y →
  match finish r k h with
  | Returned _ r' h' =>
      accounted h' (record_datas r' ++ Y) ∧
      (∀ rec, record r' = Some rec → record_wf rec) ∧
      framed (set_record (record r') r) r' ∧
      memory.live h' = memory.live h ∧
      memory.next_builder h' = memory.next_builder h
  | Panicked h' => accounted h' Y
  end.
Proof.
  intros Hrec HA. unfold finish.
  destruct (0 <? k).
  - destruct (builder r) as [b|] eqn:Hb; [|exact HA].
    destruct (NewRecord b h) as [[[rec b'] h']| |] eqn:EN; try exact HA.
    destruct (NewRecord_wf _ _ _ _ _ EN) as [Hwf Hid].
    unfold NewRecord in EN.
    destruct (NewRecord_loop (fields b) 0 0 h) as [[[cols z] h1]| |] eqn:EL;
      simpl in EN; try discriminate.
    inversion EN. subst rec b' h'. clear EN.
    destruct (NewRecord_loop_heap _ _ _ _ _ _ _ Y EL HA) as (A1 & A2 & A3).
    cbn [rows set_builder set_record].
    destruct (rows r) as [rs|].
    + destruct (sql.Err rs); simpl; (split; [exact A1|]);
        (split; [intros rec0 H0; inversion H0; subst; exact Hwf|]);
        (split; [|done]); (split; [reflexivity|]);
        intros b0 Hb0; simpl in Hb0; rewrite Hb in Hb0; inversion Hb0; subst;
        eexists; split; reflexivity.
    + eapply accounted_le; [|exact A1]. intros d. rewrite count_occ_app. lia.
  - unfold record_datas. rewrite Hrec. simpl. split; [exact HA|].
    split; [intros rec0 H0; congruence|].
    split; [|done]. split; [simpl; congruence|].
    intros b Hb. simpl in Hb. by exists b.
Qed.

Lemma renew_builder_heap r h :
  memory.refs (renew_builder r h).2 = memory.refs h ∧
  memory.next_data (renew_builder r h).2 = memory.next_data h ∧
  memory.next_builder (renew_builder r h).2 = S (memory.next_builder h).
Proof. unfold renew_builder. simpl. destruct (builder r); done. Qed.

Lemma release_record_accounted r h Y :
  accounted h (record_datas r ++ Y) → accounted (release_record r h).2 Y.
Proof.
  unfold release_record, record_datas.
  destruct (record r) as [rec|]; simpl; [|done].
  apply Release_accounted.
Qed.

(** [Next] keeps the references accounted for, and the record it stores is
    well formed. *)
Lemma Next_inv r h Y :
  accounted h (record_datas r ++ Y) →
  (∀ rec, record r = Some rec → record_wf rec) →
  match Next conv r h with
  | Returned _ r' h' =>
      accounted h' (record_datas r' ++ Y) ∧
      (∀ rec, record r' = Some rec → record_wf rec)
  | Panicked h' => accounted h' Y
  end.
Proof.
  intros HA Hwf. unfold Next.
  destruct (err r); [done|].
  pose proof (release_record_accounted r h Y HA) as HA1.
  pose proof (release_record_fields r h) as F1.
  destruct (release_record r h) as [r1 h1]. simpl in HA1, F1.
  destruct F1 as (_ & _ & _ & _ & _ & _ & _ & Rec1).
  pose proof (renew_builder_heap r1 h1) as (E1 & E2 & _).
  pose proof (renew_builder_fields r1 h1) as F2.
  destruct (renew_builder r1 h1) as [r2 h2]. simpl in E1, E2, F2.
  destruct F2 as (_ & _ & _ & _ & _ & Rec2 & _).
  assert (HA2 : accounted h2 Y) by (by apply (accounted_heap h1)).
  pose proof (Next_loop_frame conv (Z.to_nat (batchSize r2)) 0 r2 0) as HF.
  destruct (Next_loop conv _ 0 r2 0) as [r3|r3 k|]; [| |exact HA2].
  - destruct HF as [HR _]. unfold record_datas. rewrite HR, Rec2, Rec1.
    split; [exact HA2 | congruence].
  - destruct HF as [HR _].
    pose proof (finish_inv r3 k h2 Y) as HFin.
    destruct (finish r3 k h2); [|apply HFin; congruence].
    destruct HFin as (P1 & P2 & _); [congruence | done |]. done.
Qed.
End Invariant.

(** ** Records in the consumer's hands *)

Lemma count_concat_delete (hs : list simpleRecord) : ∀ k rec d,
  hs !! k = Some rec →
  count_occ Nat.eq_dec (concat (map datas hs)) d =
  (count_occ Nat.eq_dec (datas rec) d +
   count_occ Nat.eq_dec (concat (map datas (delete k hs))) d)%nat.
Proof.
  induction hs as [|x hs IH]; intros k rec d Hk; [done|].
  destruct k as [|k]; simpl in *.
  - inversion Hk. subst. rewrite count_occ_app. reflexivity.
  - rewrite !count_occ_app. rewrite (IH k rec d Hk). lia.
Qed.

Lemma cleanup_inv r h :
  record (cleanup r h).1 = None ∧
  memory.refs (cleanup r h).2 = memory.refs h ∧
  memory.next_data (cleanup r h).2 = memory.next_data h.
Proof.
  unfold cleanup.
  destruct (rows r); simpl; destruct (builder r); simpl;
    destruct (record r) eqn:E; simpl; rewrite ?E; done.
Qed.

Section Steps.
Variable conv : ScanDest → sql.Value → error + ScanDest.

(** Every step of the reader or of its consumer keeps the invariant. *)
Lemma step_sound s op extra : sound s extra → sound (step conv s op) extra.
Proof.
  intros H. unfold step.
  destruct (crashed s) eqn:Hc; [exact H|].
  destruct H as [HA Hwf].
  specialize (Hwf Hc).
  unfold holders in HA. rewrite Hc in HA.
  destruct op as [| | | |size|k].
  - (* Next *)
    rewrite <- app_assoc in HA.
    pose proof (Next_inv conv (reader s) (heap s) _ HA Hwf) as HN.
    destruct (Next conv (reader s) (heap s)) as [b r' h'|h'].
    + destruct HN as [HA' Hwf']. split; [|intros _; exact Hwf'].
      unfold holders. simpl. rewrite <- app_assoc. exact HA'.
    + split; [|simpl; done]. unfold holders. simpl. exact HN.
  - (* Record *)
    unfold Record_.
    destruct (record (reader s)) as [rec|] eqn:Hrec.
    + unfold NewSlice.
      destruct (NewSlice_cols (arrs rec) 0 (NumRows rec) (heap s))
        as [[cs' h']| |] eqn:ES; simpl.
      * destruct (NewSlice_cols_heap _ _ _ _ _ _
                    (record_datas (reader s) ++ concat (map datas (held s)) ++ extra)
                    ES) as (D1 & D2 & _ & _).
        { intros c Hc0. apply in_or_app. left. unfold record_datas.
          rewrite Hrec. unfold datas. by apply in_map. }
        { rewrite app_assoc. exact HA. }
        split; [|simpl; intros _ rec0 H0; apply Hwf; congruence].
        unfold holders. simpl.
        eapply accounted_le; [|exact D2].
        intros d. unfold datas at 1. simpl. rewrite D1.
        rewrite !count_occ_app. lia.
      * split; [|simpl; done]. unfold holders. simpl.
        eapply accounted_le; [|exact HA]. intros d.
        rewrite !count_occ_app. lia.
      * split; [|simpl; done]. unfold holders. simpl.
        eapply accounted_le; [|exact HA]. intros d.
        rewrite !count_occ_app. lia.
    + simpl. split; [|simpl; intros _ rec0 H0; apply Hwf; congruence].
      unfold holders. simpl. exact HA.
  - (* Retain *)
    split; [|simpl; intros _ rec0 H0; apply Hwf; congruence]. unfold holders. simpl. exact HA.
  - (* Release *)
    unfold Release_.
    destruct (refCount (set_refCount (refCount (reader s) - 1) (reader s)) =? 0).
    + pose proof (cleanup_inv (set_refCount (refCount (reader s) - 1) (reader s))
                    (heap s)) as (C1 & C2 & C3).
      destruct (cleanup _ (heap s)) as [r' h']. simpl in C1, C2, C3.
      split; [|simpl; intros _ rec Hr; congruence].
      unfold holders, record_datas. simpl. rewrite C1. simpl.
      apply (accounted_heap (heap s)); [done | done |].
      eapply accounted_le; [|exact HA]. intros d.
      rewrite !count_occ_app. lia.
    + split; [|simpl; intros _ rec0 H0; apply Hwf; congruence]. unfold holders. simpl. exact HA.
  - (* SetBatchSize *)
    split.
    + unfold holders. simpl. unfold SetBatchSize.
      destruct (0 <? size); exact HA.
    + simpl. intros _. unfold SetBatchSize. destruct (0 <? size); exact Hwf.
  - (* the consumer releases a record *)
    destruct (held s !! k) as [rec|] eqn:Hk.
    + split; [|simpl; intros _ rec0 H0; apply Hwf; congruence].
      unfold holders. simpl. unfold records.Release.
      apply Release_accounted.
      eapply accounted_le; [|exact HA]. intros d.
      fold (datas rec). rewrite !count_occ_app.
      rewrite (count_concat_delete (held s) k rec d Hk). lia.
    + split; [|rewrite Hc; intros _ rec0 H0; apply Hwf; congruence].
      unfold holders. rewrite Hc. exact HA.
Qed.

Lemma run_sound ops : ∀ s extra, sound s extra → sound (run conv s ops) extra.
Proof.
  induction ops as [|op ops IH]; intros s extra H; [exact H|].
  simpl. apply IH. by apply step_sound.
Qed.

Lemma boot_sound schema rs : sound (boot schema rs) [].
Proof.
  unfold boot, sound, holders, accounted. simpl.
  split; [|intros _ rec H; discriminate].
  split; [intros d; lia | intros d _; apply lookup_empty].
Qed.
End Steps.

(** C2. In every state a reader made by [NewBatchReaderWithSchema] and its
    consumer can reach without a crash, with a current record of [R] rows:
    [Record] returns a record with the same column data (no copy) and the
    slots [0, R) of every column, each column's reference count is one higher
    for every column of the record that uses it, and whatever the reader and
    the consumer do next (calls of [Next], the release of the reader, the
    release of other records), every column of the returned record stays
    readable, as nobody releases that record itself. *)
Theorem C2_record_is_a_retained_slice conv schema rs ops0 rec :
  let s := run conv (boot schema rs) ops0 in
  crashed s = false →
  record (reader s) = Some rec →
  ∃ slice h1,
    Record_ (reader s) (heap s) = Ok (Some slice, h1) ∧
    NumRows slice = NumRows rec ∧
    Forall2 (λ c c', data c' = data c ∧
                     col_vals c' = take (Z.to_nat (NumRows rec)) (col_vals c))
      (arrs rec) (arrs slice) ∧
    (∀ d, memory.refcount h1 d =
          (memory.refcount (heap s) d +
           count_occ Nat.eq_dec (datas rec) d)%nat) ∧
    ∀ ops,
      Forall (λ c, memory.readable
                     (heap (run conv {| reader := reader s; heap := h1;
                                        held := held s; crashed := false |}
                              ops))
                     (data c))
        (arrs slice).
Proof.
  intros s Hc Hrec.
  destruct (run_sound conv ops0 _ _ (boot_sound schema rs)) as [HA Hwf].
  fold s in HA, Hwf. rewrite app_nil_r in HA.
  destruct (Hwf Hc rec Hrec) as [Hnn Hlen].
  destruct (Record_full (reader s) (heap s) rec (Z.to_nat (NumRows rec)) Hrec)
    as [h1 HR].
  { lia. }
  { eapply Forall_impl; [exact Hlen|]. simpl. intros c Hcl. lia. }
  exists rec, h1. split; [exact HR|]. split; [reflexivity|].
  unfold Record_, NewSlice in HR. rewrite Hrec in HR.
  destruct (NewSlice_cols (arrs rec) 0 (NumRows rec) (heap s))
    as [[cs' h']| |] eqn:ES; simpl in HR; try discriminate.
  assert (h' = h1) by congruence. subst h'. clear HR.
  destruct (NewSlice_cols_heap _ _ _ _ _ _ (holders s) ES) as (D1 & D2 & D3 & D4).
  { intros c Hin. unfold holders. rewrite Hc. apply in_or_app. left.
    unfold record_datas. rewrite Hrec. unfold datas. by apply in_map. }
  { exact HA. }
  split; [|split; [exact D3|]].
  - clear -Hlen. induction (arrs rec) as [|c cs IH]; [constructor|].
    inversion Hlen; subst. constructor; [|by apply IH].
    split; [reflexivity|]. rewrite firstn_all2 by lia. reflexivity.
  - intros ops.
    set (s1 := {| reader := reader s; heap := h1; held := held s;
                  crashed := false |}).
    assert (HS1 : sound s1 (datas rec)).
    { split; [|simpl; intros _; apply Hwf, Hc].
      unfold holders in *. simpl. rewrite Hc in D2.
      eapply accounted_le; [|exact D2]. intros d.
      fold (datas rec). rewrite !count_occ_app. lia. }
    destruct (run_sound conv ops _ _ HS1) as [HA' _].
    apply Forall_forall. intros c Hin. unfold memory.readable.
    eapply accounted_held; [exact HA'|].
    apply in_or_app. right. unfold datas. apply in_map.
    by apply list_elem_of_In.
Qed.

Lemma C2_record_is_a_retained_slice_witness :
  ∃ slice h1,
    Record_ (reader after_first_batch) (heap after_first_batch)
    = Ok (Some slice, h1) ∧
    ∀ ops,
      Forall (λ c, memory.readable
                     (heap (run convertAssign_basic
                              {| reader := reader after_first_batch;
                                 heap := h1;
                                 held := held after_first_batch;
                                 crashed := false |} ops))
                     (data c))
        (arrs slice).
Proof.
  destruct (C2_record_is_a_retained_slice convertAssign_basic ids_schema
              (sql.open (ids [1; 2; 3]) None) [OpSetBatchSize 2; OpNext]
              base_record)
    as (slice & h1 & HR & _ & _ & _ & Hops); [reflexivity | reflexivity |].
  exists slice, h1. split; [exact HR | exact Hops].
Defined.

(** ** One builder per batch *)

Lemma NewRecord_loop_builders fs : ∀ i z h cols z' h',
  NewRecord_loop fs i z h = Ok (cols, z', h') →
  memory.live h' = memory.live h ∧
  memory.next_builder h' = memory.next_builder h.
Proof.
  induction fs as [|f fs IH]; intros i z h cols z' h' HN.
  - simpl in HN. inversion HN. subst. done.
  - cbn [NewRecord_loop] in HN. unfold NewArray, memory.alloc in HN.
    cbn [col_vals] in HN.
    destruct ((0 <? i)%nat && negb (Z.of_nat (length (array.vals f)) =? z));
      [discriminate|].
    match type of HN with
    | context [NewRecord_loop fs ?i1 ?z1 ?h1] =>
        destruct (NewRecord_loop fs i1 z1 h1) as [[[cols1 z1'] h2]| |] eqn:E1;
          simpl in HN; try discriminate
    end.
    inversion HN. subst.
    destruct (IH _ _ _ _ _ _ E1) as [I1 I2]. simpl in I1, I2. done.
Qed.

Lemma finish_builder r k h bl r' h' :
  finish r k h = Returned bl r' h' →
  (∀ b, builder r = Some b → ∃ b', builder r' = Some b' ∧ id b' = id b) ∧
  memory.next_builder h' = memory.next_builder h.
Proof.
  unfold finish. destruct (0 <? k).
  - destruct (builder r) as [b|] eqn:Hb; [|discriminate].
    destruct (NewRecord b h) as [[[rec b'] h1]| |] eqn:EN; try discriminate.
    destruct (NewRecord_wf _ _ _ _ _ EN) as [_ Hid].
    unfold NewRecord in EN.
    destruct (NewRecord_loop (fields b) 0 0 h) as [[[cols z] h0]| |] eqn:EL;
      simpl in EN; try discriminate.
    destruct (NewRecord_loop_builders _ _ _ _ _ _ _ EL) as [_ Hnb].
    assert (h1 = h0) by congruence. subst h0.
    cbn [rows set_builder set_record].
    destruct (rows r) as [rs|]; [|discriminate].
    destruct (sql.Err rs); intros H; inversion H; subst; simpl;
      (split; [|exact Hnb]); intros b0 Hb0; inversion Hb0; subst;
      exists b'; done.
  - intros H. inversion H. subst. split; [|reflexivity].
    intros b Hb. by exists b.
Qed.

(** What a call of [Next] does with the record slot and the builder. *)
Lemma Next_renews conv r h :
  err r = None →
  builder_known r h →
  ∃ b2,
    (* the blocks of [Next], in this order *)
    Next conv r h =
      (let '(r1, h1) := release_record r h in
       let '(r2, h2) := renew_builder r1 h1 in
       match Next_loop conv (Z.to_nat (batchSize r2)) 0 r2 0 with
       | Return_false r' => Returned false r' h2
       | Crash => Panicked h2
       | Break r' rowsProcessedInBatch => finish r' rowsProcessedInBatch h2
       end) ∧
    (* the prior record is released and its slot nil *)
    record (release_record r h).1 = None ∧
    (∀ rec, record r = Some rec →
            (release_record r h).2 = records.Release rec h) ∧
    (* the builder the rows are read with is new and bound to the schema *)
    builder (renew_builder (release_record r h).1 (release_record r h).2).1
      = Some b2 ∧
    rb_schema b2 = schema r ∧
    fields b2 = map (λ f, array.NewBuilder (arrow.Type_ f)) (schema r) ∧
    id b2 = memory.next_builder h ∧
    (* the previous builder is another one, and it has been released *)
    (∀ b, builder r = Some b →
          id b ≠ id b2 ∧
          id b ∉ memory.live
                   (renew_builder (release_record r h).1
                      (release_record r h).2).2) ∧
    (* the reader comes back with this builder, known to the heap *)
    (∀ bl r' h', Next conv r h = Returned bl r' h' →
       (∃ b', builder r' = Some b' ∧ id b' = id b2) ∧ builder_known r' h').
Proof.
  intros Herr Hknown.
  pose proof (release_record_fields r h) as F1.
  destruct (renew_builder_builder (release_record r h).1 (release_record r h).2)
    as (b2 & Hb2 & Hid & Hsch & Hfs).
  exists b2.
  assert (Hnb : memory.next_builder (release_record r h).2 = memory.next_builder h
                ∧ memory.live (release_record r h).2 = memory.live h).
  { unfold release_record. destruct (record r) as [rec|]; simpl; [|done].
    destruct (Release_builders rec h). done. }
  destruct Hnb as [Hnb Hlv].
  cbn zeta in F1. destruct F1 as (R1 & E1 & D1 & S1 & B1 & Bd1 & _ & Rec1).
  split.
  { unfold Next. rewrite Herr. reflexivity. }
  split; [exact Rec1|].
  split.
  { intros rec Hrec. unfold release_record. rewrite Hrec. reflexivity. }
  split; [exact Hb2|].
  split; [congruence|].
  split; [rewrite Hfs, S1; reflexivity|].
  split; [congruence|].
  split.
  { intros b Hb. specialize (Hknown b Hb). split; [lia|].
    unfold renew_builder. rewrite Bd1, Hb. simpl. rewrite Hlv, Hnb.
    intros Hin. apply elem_of_union in Hin as [Hin|Hin].
    - apply elem_of_singleton in Hin. lia.
    - apply elem_of_difference in Hin as [_ Hin]. apply Hin.
      by apply elem_of_singleton. }
  intros bl r' h' HN. unfold Next in HN. rewrite Herr in HN.
  destruct (release_record r h) as [r1 h1]. cbn [fst snd] in *.
  pose proof (renew_builder_heap r1 h1) as (_ & _ & Hnb2).
  destruct (renew_builder r1 h1) as [r2 h2]. cbn [fst snd] in *.
  pose proof (Next_loop_frame conv (Z.to_nat (batchSize r2)) 0 r2 0) as HF.
  assert (Hres : ∀ r3,
            (∀ b, builder r2 = Some b → ∃ b', builder r3 = Some b' ∧ id b' = id b) →
            memory.next_builder h' = memory.next_builder h2 →
            (∃ b', builder r3 = Some b' ∧ id b' = id b2) ∧ builder_known r3 h').
  { intros r3 Hfr Hnb'. destruct (Hfr b2 Hb2) as (b' & Hb' & Hid').
    split; [by exists b'|]. intros b0 Hb0. rewrite Hb' in Hb0.
    inversion Hb0. subst b0. lia. }
  destruct (Next_loop conv _ 0 r2 0) as [r3|r3 k|]; [| |discriminate].
  - inversion HN. subst. apply Hres; [apply HF | reflexivity].
  - destruct (finish_builder _ _ _ _ _ _ HN) as [Hfb Hnb3].
    apply Hres; [|exact Hnb3].
    intros b Hb. destruct HF as [_ HF]. destruct (HF b Hb) as (b3 & Hb3 & Hid3).
    destruct (Hfb b3 Hb3) as (b' & Hb' & Hid'). exists b'. split; [done|congruence].
Qed.

(** C9. A call of [Next] that gets past the error check runs its blocks in
    this order: the prior record is released and its slot set to nil; the
    previous builder is released and a new builder is made for the reader's
    schema, with empty fields and an identity no builder had before; then
    the rows are read and the record is finalized with this builder.  So the
    builders of two calls are different, and the one of the earlier call is
    released when the later call reads its rows. *)
Theorem C9_fresh_builder_per_batch conv r h :
  err r = None →
  builder_known r h →
  ∃ b2,
    Next conv r h =
      (let '(r1, h1) := release_record r h in
       let '(r2, h2) := renew_builder r1 h1 in
       match Next_loop conv (Z.to_nat (batchSize r2)) 0 r2 0 with
       | Return_false r' => Returned false r' h2
       | Crash => Panicked h2
       | Break r' rowsProcessedInBatch => finish r' rowsProcessedInBatch h2
       end) ∧
    record (release_record r h).1 = None ∧
    (∀ rec, record r = Some rec →
            (release_record r h).2 = records.Release rec h) ∧
    builder (renew_builder (release_record r h).1 (release_record r h).2).1
      = Some b2 ∧
    rb_schema b2 = schema r ∧
    fields b2 = map (λ f, array.NewBuilder (arrow.Type_ f)) (schema r) ∧
    id b2 = memory.next_builder h ∧
    (∀ b, builder r = Some b →
          id b ≠ id b2 ∧
          id b ∉ memory.live
                   (renew_builder (release_record r h).1
                      (release_record r h).2).2) ∧
    (∀ bl r' h', Next conv r h = Returned bl r' h' →
       (∃ b', builder r' = Some b' ∧ id b' = id b2) ∧ builder_known r' h') ∧
    (∀ bl r' h' hx bl2 r'' h'',
       Next conv r h = Returned bl r' h' →
       err r' = None → builder_known r' hx →
       Next conv r' hx = Returned bl2 r'' h'' →
       ∃ b' b'', builder r' = Some b' ∧ builder r'' = Some b'' ∧
                 id b' ≠ id b'' ∧
                 id b' ∉ memory.live
                          (renew_builder (release_record r' hx).1
                             (release_record r' hx).2).2).
Proof.
  intros Herr Hknown.
  destruct (Next_renews conv r h Herr Hknown)
    as (b2 & H1 & H2 & H3 & H4 & H5 & H6 & H7 & H8 & H9).
  exists b2. do 8 (split; [assumption|]). split; [exact H9|].
  intros bl r' h' hx bl2 r'' h'' HN Herr' Hknown' HN'.
  destruct (H9 bl r' h' HN) as [(b' & Hb' & Hid') _].
  destruct (Next_renews conv r' hx Herr' Hknown')
    as (b3 & _ & _ & _ & _ & _ & _ & _ & G8 & G9).
  destruct (G9 bl2 r'' h'' HN') as [(b'' & Hb'' & Hid'') _].
  destruct (G8 b' Hb') as [Hne Hrel].
  exists b', b''. split; [exact Hb'|]. split; [exact Hb''|].
  split; [congruence | exact Hrel].
Qed.

Lemma C9_fresh_builder_per_batch_witness :
  ∃ b2,
    builder (renew_builder
               (release_record three_rows_reader.1 three_rows_reader.2).1
               (release_record three_rows_reader.1 three_rows_reader.2).2).1
      = Some b2 ∧
    id b2 = 1%nat ∧
    (∀ b, builder three_rows_reader.1 = Some b → id b ≠ id b2) ∧
    (∀ bl r' h',
       Next convertAssign_basic three_rows_reader.1 three_rows_reader.2
       = Returned bl r' h' →
       ∃ b', builder r' = Some b' ∧ id b' = id b2).
Proof.
  destruct (C9_fresh_builder_per_batch convertAssign_basic
              three_rows_reader.1 three_rows_reader.2)
    as (b2 & _ & _ & _ & Hb2 & _ & _ & Hid & Hold & Hret & _).
  { reflexivity. }
  { intros b Hb. inversion Hb. simpl. lia. }
  exists b2. split; [exact Hb2|]. split; [exact Hid|].
  split; [intros b Hb; apply (Hold b Hb)|].
  intros bl r' h' HN. apply (Hret bl r' h' HN).
Defined.

(** ** Scenarios *)

(** An empty result: no record, a clean end. *)
Example scenario_empty_result :
  ∃ r' h',
    drain convertAssign_basic 2
      (reader_over [field "f0" arrow.INT32 false] [] None 1024).1
      (reader_over [field "f0" arrow.INT32 false] [] None 1024).2
    = Finished [] r' h' ∧ err r' = None.
Proof. eexists _, _. split; [vm_compute; reflexivity | reflexivity]. Qed.

(** Nulls in nullable INT64 and STRING columns. *)
Example scenario_null_propagation :
  ∃ rec r' h',
    Next convertAssign_basic
      (reader_over [field "a" arrow.INT64 true; field "b" arrow.STRING true]
         [[sql.Int64 1; sql.String_ "x"]; [sql.Nil; sql.String_ "y"];
          [sql.Int64 2; sql.Nil]] None 1024).1
      (reader_over [field "a" arrow.INT64 true; field "b" arrow.STRING true]
         [[sql.Int64 1; sql.String_ "x"]; [sql.Nil; sql.String_ "y"];
          [sql.Int64 2; sql.Nil]] None 1024).2
    = Returned true r' h' ∧
    record r' = Some rec ∧
    map col_vals (arrs rec) =
      [[array.VInt 1; array.Null; array.VInt 2];
       [array.VString "x"; array.VString "y"; array.Null]].
Proof.
  eexists _, _, _. split; [vm_compute; reflexivity|].
  split; reflexivity.
Qed.

(** * The rest of the reader *)

(** ** Destinations and builders *)

(** X1. For every column [createScanDest] and the builder agree on (all types
    but the decimals, the nullable INT8, the nullable UINT16, UINT32 and
    UINT64 and those with a dynamic slot), a destination of the type
    [createScanDest] chose that is not a nil pointer, whatever it holds, is
    appended to the column's builder as exactly one cell: no error and no
    panic. *)
Theorem X1_supported_columns_append f d :
  supported f = true →
  type_name d = type_name (createScanDest f) →
  points d = true →
  ∃ c, appendValue_field (array.NewBuilder (arrow.Type_ f)) d =
       Ok (array.push c (array.NewBuilder (arrow.Type_ f))).
Proof.
  destruct f as [name t nullable]. unfold supported, createScanDest. simpl.
  intros Hs Ht Hp.
  destruct t, nullable; try discriminate Hs; simpl in Ht;
    destruct d as
      [[?|]|[] ?|[?|]|[?|]|[] ?|[?|]|[?|]|[] ?|[?|]|[?|]|[] ?|[?|]|[?|]|[] ?
      |[?|]|[?|]|[] ?|[?|]|[] ?|[[?|]|]|[?|]|[] ?|[[[]|]|]|?|?|?];
    try discriminate Ht; try discriminate Hp;
    eexists; reflexivity.
Qed.

(** X2. A DECIMAL or DECIMAL256 column is scanned as a string, and a string
    is appended with an assertion that the builder is a [StringBuilder]: with
    the decimal builder of the column every value panics; only the null of a
    nullable column is appended. *)
Theorem X2_decimal_value_panics f s :
  arrow.Type_ f = arrow.DECIMAL ∨ arrow.Type_ f = arrow.DECIMAL256 →
  type_name (createScanDest f) =
    (if arrow.Nullable f then "*sql.NullString" else "*string") ∧
  appendValue_field (array.NewBuilder (arrow.Type_ f))
    (if arrow.Nullable f then NullString true s else PString (Some s))
  = Panic ∧
  appendValue_field (array.NewBuilder (arrow.Type_ f)) (NullString false s)
  = Ok (array.push array.Null (array.NewBuilder (arrow.Type_ f))).
Proof.
  destruct f as [name t nullable]. simpl.
  intros [-> | ->]; destruct nullable; repeat split; reflexivity.
Qed.

(** ** Temporal units, exactly *)

(** X3. For every time whose wall clock is not before the origin of Go's
    unsigned count of seconds ([unixToAbsolute] seconds before the epoch,
    some 292 billion years back), TIME32 and TIME64 store the wall clock of
    the time's location as seconds and microseconds since midnight, and the
    stored value lies within one day. *)
Theorem X3_clock_units t vs :
  time.valid t →
  - time.unixToAbsolute ≤ time.sec t + time.offset t < 2 ^ 63 →
  0 ≤ seconds_since_midnight t < 86400 ∧
  0 ≤ micros_since_midnight t < 86400000000 ∧
  appendTimeValue {| array.kind := array.Time32Builder; array.vals := vs |} t =
    Ok {| array.kind := array.Time32Builder;
          array.vals := vs ++ [array.VInt (seconds_since_midnight t)] |} ∧
  appendTimeValue {| array.kind := array.Time64Builder; array.vals := vs |} t =
    Ok {| array.kind := array.Time64Builder;
          array.vals := vs ++ [array.VInt (micros_since_midnight t)] |}.
Proof.
  intros Hv Hr.
  pose proof (Z.mod_pos_bound (time.sec t + time.offset t) 86400 ltac:(lia)) as B.
  assert (Bn : 0 ≤ time.nsec t `div` 1000 < 1000000).
  { unfold time.valid in Hv.
    split; [apply Z.div_pos; lia | apply Z.div_lt_upper_bound; lia]. }
  split; [exact B|].
  split; [unfold micros_since_midnight, seconds_since_midnight in *; lia|].
  split; [by apply appendTimeValue_time32 | by apply appendTimeValue_time64].
Qed.

(** Before that origin the count has wrapped and the reading is another: at
    the least instant of Go's 64-bit seconds, in UTC, the wall clock is
    08:29:52 and TIME32 stores 15:30:08. *)
Lemma clock_wraps_before_the_origin vs :
  seconds_since_midnight first_instant = 30592 ∧
  appendTimeValue {| array.kind := array.Time32Builder; array.vals := vs |}
    first_instant =
  Ok {| array.kind := array.Time32Builder;
        array.vals := vs ++ [array.VInt 55808] |}.
Proof. split; reflexivity. Qed.

(** X4. DATE64 stores the milliseconds and TIMESTAMP the microseconds since
    the Unix epoch, for every time whose microseconds fit 64 bits; the
    location of the time does not matter. *)
Theorem X4_epoch_units t vs :
  time.valid t →
  - 2 ^ 63 ≤ micros_since_epoch t < 2 ^ 63 →
  appendTimeValue {| array.kind := array.Date64Builder; array.vals := vs |} t =
    Ok {| array.kind := array.Date64Builder;
          array.vals := vs ++ [array.VInt (millis_since_epoch t)] |} ∧
  appendTimeValue
    {| array.kind := array.TimestampBuilder; array.vals := vs |} t =
    Ok {| array.kind := array.TimestampBuilder;
          array.vals := vs ++ [array.VInt (micros_since_epoch t)] |}.
Proof.
  intros Hv Hr. split; [|by apply appendTimeValue_timestamp].
  apply appendTimeValue_date64; [done|].
  unfold time.valid, micros_since_epoch, millis_since_epoch in *.
  assert (0 ≤ time.nsec t `div` 1000 < 1000000).
  { split; [apply Z.div_pos; lia | apply Z.div_lt_upper_bound; lia]. }
  assert (0 ≤ time.nsec t `div` 1000000 < 1000).
  { split; [apply Z.div_pos; lia | apply Z.div_lt_upper_bound; lia]. }
  lia.
Qed.

(** X5. What DATE32 stores, for every time within the range of 32-bit days:
    the number of days since the epoch, plus one when the time is before the
    epoch and not at midnight UTC. *)
Theorem X5_date32_value t vs :
  - 86400 * 2 ^ 31 < time.sec t < 86400 * 2 ^ 31 →
  appendTimeValue {| array.kind := array.Date32Builder; array.vals := vs |} t =
    Ok {| array.kind := array.Date32Builder;
          array.vals := vs ++
            [array.VInt (days_since_epoch t +
                         (if decide (time.sec t < 0 ∧
                                     time.sec t `mod` 86400 ≠ 0)
                          then 1 else 0))] |}.
Proof.
  intros Hr. unfold appendTimeValue, Append, array.push, time.Unix. simpl.
  unfold days_since_epoch.
  set (s := time.sec t) in *.
  pose proof (Z.quot_rem' s 86400) as Hq.
  pose proof (Z.div_mod s 86400 ltac:(lia)) as Hd.
  pose proof (Z.mod_pos_bound s 86400 ltac:(lia)) as Hm.
  assert (Hrem : (0 ≤ s → 0 ≤ Z.rem s 86400 < 86400) ∧
                 (s ≤ 0 → - 86400 < Z.rem s 86400 ≤ 0)).
  { split; intros Hs.
    - apply Z.rem_bound_pos; lia.
    - pose proof (Z.rem_bound_pos (- s) 86400 ltac:(lia) ltac:(lia)) as Hb.
      rewrite Z.rem_opp_l in Hb by lia. lia. }
  destruct Hrem as [Hp Hn].
  assert (E : s `quot` 86400 =
              s `div` 86400 +
              (if decide (s < 0 ∧ s `mod` 86400 ≠ 0) then 1 else 0)).
  { case_decide as Hc.
    - destruct Hc as [Hneg Hnz]. specialize (Hn ltac:(lia)). lia.
    - destruct (decide (s < 0)) as [Hneg|Hpos].
      + assert (s `mod` 86400 = 0) by (destruct (decide (s `mod` 86400 = 0)); tauto).
        specialize (Hn ltac:(lia)). lia.
      + specialize (Hp ltac:(lia)). lia. }
  rewrite E.
  rewrite wrap_int32_id; [reflexivity|].
  case_decide; lia.
Qed.

(** ** Construction from the cursor's columns *)

Section NewReader.
Context {ColumnType : Type}.
Variable G : ColumnType → error + arrow.Field.

Lemma NewBatchReader_loop_ok cols : ∀ i fields,
  Forall2 (λ col f, G col = inr f) cols fields →
  NewBatchReader_loop G i cols = inr (fields, map createScanDest fields).
Proof.
  induction cols as [|col cols IH]; intros i fields HF.
  - inversion HF. reflexivity.
  - inversion HF as [|? f ? fs Hc HF']; subst.
    cbn [NewBatchReader_loop]. rewrite Hc, (IH (S i) fs HF'). reflexivity.
Qed.

Lemma NewBatchReader_loop_fail pre : ∀ i bad rest e,
  Forall (λ col, ∃ f, G col = inr f) pre →
  G bad = inl e →
  NewBatchReader_loop G i (pre ++ bad :: rest) =
  inl (errors.Wrapf e errors.CodeInternal "failed to convert column "
         (i + length pre)).
Proof.
  induction pre as [|col pre IH]; intros i bad rest e HF Hbad.
  - simpl. rewrite Hbad, Nat.add_0_r. reflexivity.
  - inversion HF as [|? ? [f Hf] HF']; subst.
    simpl. rewrite Hf, (IH (S i) bad rest e HF' Hbad).
    do 2 f_equal. lia.
Qed.

(** X6. When the cursor gives its column descriptors and every one has a
    field, [NewBatchReader] makes the reader [NewBatchReaderWithSchema] makes
    for these fields, in the order of the columns. *)
Theorem X6_NewBatchReader_infers_the_schema h CT rows cols fields :
  CT rows = inr cols →
  Forall2 (λ col f, G col = inr f) cols fields →
  NewBatchReader G h CT rows = inr (NewBatchReaderWithSchema h fields rows).
Proof.
  intros HC HF. unfold NewBatchReader, NewBatchReaderWithSchema.
  rewrite HC, (NewBatchReader_loop_ok cols 0 fields HF). reflexivity.
Qed.

(** X7. When a column has no field, [NewBatchReader] returns the converter's
    error for the first such column, wrapped as [Internal] with the index of
    that column, and closes the cursor: a later [Next] of the cursor yields
    nothing. *)
Theorem X7_NewBatchReader_fails_at_the_first_bad_column
    h CT rows pre bad rest e :
  CT rows = inr (pre ++ bad :: rest) →
  Forall (λ col, ∃ f, G col = inr f) pre →
  G bad = inl e →
  NewBatchReader G h CT rows =
  inl (errors.Wrapf e errors.CodeInternal "failed to convert column "
         (length pre),
       sql.Close rows) ∧
  sql.closed (sql.Close rows) = true ∧
  sql.Next (sql.Close rows) = (false, sql.Close rows).
Proof.
  intros HC HF Hbad. unfold NewBatchReader.
  rewrite HC, (NewBatchReader_loop_fail pre 0 bad rest e HF Hbad).
  repeat split.
Qed.
End NewReader.

(** ** Reference counting of the reader *)

Lemma release_n_snoc n : ∀ r h,
  release_n (S n) r h =
  let '(r', h') := release_n n r h in Release_ r' h'.
Proof.
  induction n as [|n IH]; intros r h.
  - simpl. destruct (Release_ r h). reflexivity.
  - change (release_n (S (S n)) r h)
      with (let '(r', h') := Release_ r h in release_n (S n) r' h').
    destruct (Release_ r h) as [r1 h1] eqn:E.
    rewrite IH. simpl. rewrite E. reflexivity.
Qed.

Lemma release_n_keeps n : ∀ r h,
  Z.of_nat n < refCount r →
  ∃ r', release_n n r h = (r', h) ∧
        refCount r' = refCount r - Z.of_nat n ∧
        rows r' = rows r ∧ builder r' = builder r ∧ record r' = record r ∧
        err r' = err r ∧ schema r' = schema r ∧ batchSize r' = batchSize r ∧
        rowDest r' = rowDest r.
Proof.
  induction n as [|n IH]; intros r h Hn.
  - exists r. simpl. rewrite Z.sub_0_r. done.
  - cbn [release_n]. unfold Release_. cbn [refCount set_refCount].
    destruct (refCount r - 1 =? 0) eqn:E; [apply Z.eqb_eq in E; lia|].
    destruct (IH (set_refCount (refCount r - 1) r) h) as (r' & HR & H1 & H2);
      [simpl; lia|].
    exists r'. rewrite HR. split; [reflexivity|].
    simpl in H1, H2. split; [lia | exact H2].
Qed.

Lemma cleanup_all r h :
  rows (cleanup r h).1 = None ∧ builder (cleanup r h).1 = None ∧
  record (cleanup r h).1 = None ∧
  memory.refs (cleanup r h).2 = memory.refs h ∧
  (∀ b, builder r = Some b → id b ∉ memory.live (cleanup r h).2) ∧
  err (cleanup r h).1 = err r ∧ batchSize (cleanup r h).1 = batchSize r.
Proof.
  unfold cleanup.
  destruct (rows r) eqn:E1; simpl; destruct (builder r) as [b|] eqn:E2; simpl;
    destruct (record r) eqn:E3; simpl; rewrite ?E1, ?E2, ?E3;
    repeat split; try done;
    intros b0 Hb0 Hin; inversion Hb0; subst;
    apply elem_of_difference in Hin as [_ Hin]; apply Hin;
    by apply elem_of_singleton.
Qed.

(** X8. A reader with reference count [n + 1] is untouched by [n] releases;
    the next release cleans up: cursor, builder and record slots are nil, and
    the builder is released.  The column data of the current record is not
    released by the cleanup: its reference counts stay as they are. *)
Theorem X8_cleanup_at_the_last_release n r h :
  refCount r = Z.of_nat (S n) →
  (∃ r1, release_n n r h = (r1, h) ∧
         rows r1 = rows r ∧ builder r1 = builder r ∧ record r1 = record r) ∧
  (∃ r2 h2, release_n (S n) r h = (r2, h2) ∧
            rows r2 = None ∧ builder r2 = None ∧ record r2 = None ∧
            memory.refs h2 = memory.refs h ∧
            ∀ b, builder r = Some b → id b ∉ memory.live h2).
Proof.
  intros Hrc.
  destruct (release_n_keeps n r h) as (r1 & HR & H1 & H2 & H3 & H4 & _);
    [lia|].
  split; [exists r1; done|].
  rewrite release_n_snoc, HR. unfold Release_. cbn [refCount set_refCount].
  replace (refCount r1 - 1 =? 0) with true by (symmetry; apply Z.eqb_eq; lia).
  pose proof (cleanup_all (set_refCount (refCount r1 - 1) r1) h)
    as (C1 & C2 & C3 & C4 & C5 & _).
  destruct (cleanup _ h) as [r2 h2]. simpl in C1, C2, C3, C4, C5.
  exists r2, h2. repeat split; try done.
  intros b Hb. apply C5. congruence.
Qed.

Section After.
Variable conv : ScanDest → sql.Value → error + ScanDest.

(** X9. After the cleanup, [Record] returns nil, and [Next] (of a reader
    without error) panics when it fetches from the nil cursor. *)
Theorem X9_use_after_cleanup r h hx :
  err r = None → 0 < batchSize r →
  Record_ (cleanup r h).1 hx = Ok (None, hx) ∧
  ∃ h', Next conv (cleanup r h).1 hx = Panicked h'.
Proof.
  intros Herr Hsize.
  pose proof (cleanup_all r h) as (C1 & C2 & C3 & _ & _ & C6 & C7).
  destruct (cleanup r h) as [r' h2]. simpl in *.
  split; [unfold Record_; rewrite C3; reflexivity|].
  unfold Next. rewrite C6, Herr.
  pose proof (release_record_fields r' hx) as F1.
  destruct (release_record r' hx) as [r1 h1]. simpl in F1.
  destruct F1 as (R1 & _ & _ & _ & B1 & _).
  pose proof (renew_builder_fields r1 h1) as F2.
  destruct (renew_builder r1 h1) as [r2 h3]. simpl in F2.
  destruct F2 as (R2 & _ & _ & _ & B2 & _).
  assert (Hn : ∃ n, Z.to_nat (batchSize r2) = S n).
  { exists (Nat.pred (Z.to_nat (batchSize r2))). lia. }
  destruct Hn as [n ->]. cbn [Next_loop].
  rewrite R2, R1, C1. by exists h3.
Qed.
End After.

(** ** What stays as it was configured *)

Lemma kept_refl r : kept r r.
Proof. done. Qed.

Lemma kept_trans r1 r2 r3 : kept r1 r2 → kept r2 r3 → kept r1 r3.
Proof. unfold kept. intros (A & B & C) (D & E & F). repeat split; congruence. Qed.

Lemma appendValue_kept r colIdx value r' :
  appendValue r colIdx value = Ok r' →
  kept r r' ∧ rowDest r' = rowDest r.
Proof.
  unfold appendValue. destruct (builder r) as [b|]; [|discriminate].
  destruct (Field b colIdx) as [fb| |]; simpl; try discriminate.
  destruct (appendValue_field fb value) as [fb'| |]; simpl; try discriminate.
  intros H. inversion H. done.
Qed.

Lemma appendRow_kept dests : ∀ r colIdx,
  match appendRow r colIdx dests with
  | Done r' | Failed r' _ => kept r r' ∧ rowDest r' = rowDest r
  | Panics => True
  end.
Proof.
  induction dests as [|d ds IH]; intros r colIdx; cbn [appendRow]; [done|].
  destruct (appendValue r colIdx d) as [r1| |] eqn:E; [| done |done].
  destruct (appendValue_kept _ _ _ _ E) as [K1 D1].
  specialize (IH r1 (S colIdx)).
  destruct (appendRow r1 (S colIdx) ds) as [r'|r' e|]; [| |done];
    destruct IH as [K2 D2]; (split; [by eapply kept_trans | congruence]).
Qed.

Section Config.
Variable conv : ScanDest → sql.Value → error + ScanDest.

Lemma Scan_loop_length dest : ∀ cols ds,
  length dest = length cols →
  Scan_loop conv dest cols = inr ds → length ds = length dest.
Proof.
  induction dest as [|d dest IH]; intros [|c cols] ds HL HS; simpl in *;
    try lia.
  - inversion HS. reflexivity.
  - destruct (conv d c) as [e|d']; [discriminate|].
    destruct (Scan_loop conv dest cols) as [e|ds'] eqn:E; [discriminate|].
    inversion HS. simpl. f_equal. apply (IH cols); [lia | exact E].
Qed.

Lemma Scan_length rs dest ds :
  Scan conv rs dest = inr ds → length ds = length dest.
Proof.
  unfold Scan.
  destruct (if sql.finished rs then sql.ending rs else None); [discriminate|].
  destruct (sql.closed rs); [discriminate|].
  destruct (sql.lastcols rs) as [cols|]; [|discriminate].
  destruct (length dest =? length cols)%nat eqn:E; simpl; [|discriminate].
  apply Nat.eqb_eq in E. by apply Scan_loop_length.
Qed.

Lemma Next_loop_kept n : ∀ i r cnt,
  match Next_loop conv n i r cnt with
  | Return_false r' | Break r' _ =>
      kept r r' ∧ length (rowDest r') = length (rowDest r)
  | Crash => True
  end.
Proof.
  induction n as [|n IH]; intros i r cnt; cbn [Next_loop]; [done|].
  destruct (rows r) as [rs|]; [|done].
  destruct (sql.Next rs) as [more rs'].
  destruct more; cbn [negb].
  - destruct (Scan conv rs' _) as [e|dest] eqn:ES; [done|].
    apply Scan_length in ES. cbn [rowDest set_rows] in ES.
    cbn [rowDest set_rowDest].
    pose proof (appendRow_kept dest (set_rowDest dest (set_rows (Some rs') r))
                  0%nat) as HA.
    destruct (appendRow _ 0 dest) as [r1|r1 e|]; [| |done].
    + destruct HA as [K1 D1]. simpl in D1.
      specialize (IH (i + 1) r1 (cnt + 1)).
      destruct (Next_loop conv n (i + 1) r1 (cnt + 1)); try done;
        destruct IH as [K2 L2];
        (split; [eapply kept_trans; [|exact K2]; exact K1 | congruence]).
    + destruct HA as [K1 D1]. simpl in D1. split; [exact K1|].
      simpl. congruence.
  - destruct (i =? 0); done.
Qed.

Lemma finish_kept r k h :
  match finish r k h with
  | Returned _ r' _ => kept r r' ∧ rowDest r' = rowDest r
  | Panicked _ => True
  end.
Proof.
  unfold finish. destruct (0 <? k); [|done].
  destruct (builder r) as [b|]; [|done].
  destruct (NewRecord b h) as [[[rec b'] h']| |]; try done.
  cbn [rows set_builder set_record].
  destruct (rows r) as [rs|]; [|done].
  destruct (sql.Err rs); done.
Qed.

Lemma Next_kept r h :
  match Next conv r h with
  | Returned _ r' _ => kept r r' ∧ length (rowDest r') = length (rowDest r)
  | Panicked _ => True
  end.
Proof.
  unfold Next. destruct (err r); [done|].
  pose proof (release_record_fields r h) as F1.
  destruct (release_record r h) as [r1 h1]. simpl in F1.
  destruct F1 as (_ & _ & D1 & S1 & B1 & _ & C1 & _).
  pose proof (renew_builder_fields r1 h1) as F2.
  destruct (renew_builder r1 h1) as [r2 h2]. simpl in F2.
  destruct F2 as (_ & _ & D2 & S2 & B2 & _ & C2).
  assert (K0 : kept r r2) by (unfold kept; repeat split; congruence).
  pose proof (Next_loop_kept (Z.to_nat (batchSize r2)) 0 r2 0) as HL.
  destruct (Next_loop conv _ 0 r2 0) as [r3|r3 k|]; [| |done].
  - destruct HL as [K L]. split; [by eapply kept_trans | congruence].
  - destruct HL as [K L].
    pose proof (finish_kept r3 k h2) as HF.
    destruct (finish r3 k h2); [|done].
    destruct HF as [K' D']. split; [|congruence].
    eapply kept_trans; [exact K0|]. by eapply kept_trans.
Qed.

Lemma step_config s op :
  schema (reader (step conv s op)) = schema (reader s) ∧
  length (rowDest (reader (step conv s op))) = length (rowDest (reader s)) ∧
  (0 < batchSize (reader s) → 0 < batchSize (reader (step conv s op))).
Proof.
  unfold step. destruct (crashed s); [done|].
  destruct op as [| | | |size|k]; simpl.
  - pose proof (Next_kept (reader s) (heap s)) as HN.
    destruct (Next conv (reader s) (heap s)); simpl; [|done].
    destruct HN as [(S1 & B1 & _) L]. repeat split; try done. lia.
  - destruct (Record_ (reader s) (heap s)) as [[[rec|] h]| |]; done.
  - done.
  - unfold Release_. cbn [refCount set_refCount].
    destruct (refCount (reader s) - 1 =? 0); [|done].
    unfold cleanup. cbn [rows set_refCount].
    destruct (rows (reader s)); cbn [builder set_rows set_refCount];
      destruct (builder (reader s));
      cbn [record set_builder set_rows set_refCount];
      destruct (record (reader s)); done.
  - unfold SetBatchSize. destruct (0 <? size) eqn:E; [|done].
    simpl. apply Z.ltb_lt in E. done.
  - destruct (held s !! k); done.
Qed.

(** X10. Whatever a reader made by [NewBatchReaderWithSchema] and its
    consumer do, the schema stays the one given, there is one destination per
    column, and the batch size stays positive. *)
Theorem X10_configuration_is_stable sch rs ops :
  Schema (reader (run conv (boot sch rs) ops)) = sch ∧
  length (rowDest (reader (run conv (boot sch rs) ops))) = length sch ∧
  0 < batchSize (reader (run conv (boot sch rs) ops)).
Proof.
  assert (H : ∀ ops s,
            schema (reader (run conv s ops)) = schema (reader s) ∧
            length (rowDest (reader (run conv s ops)))
              = length (rowDest (reader s)) ∧
            (0 < batchSize (reader s) →
             0 < batchSize (reader (run conv s ops)))).
  { clear. induction ops as [|op ops' IH]; intros s; [done|].
    simpl. destruct (IH (step conv s op)) as (A & B & C).
    destruct (step_config s op) as (A' & B' & C').
    repeat split; try congruence. intros Hpos. apply C, C', Hpos. }
  destruct (H ops (boot sch rs)) as (A & B & C).
  unfold Schema. rewrite A, B. simpl. rewrite length_map.
  split; [done|]. split; [done|]. apply C. simpl. done.
Qed.
End Config.

(** ** The batch size bounds every record *)

Lemma appendValue_field_push fb d fb' :
  appendValue_field fb d = Ok fb' → ∃ c, fb' = array.push c fb.
Proof.
  intros H. pose proof (appendValue_field_cell fb d) as HC.
  destruct (cell_of (array.kind fb) d) as [c|].
  - exists c. congruence.
  - exfalso. by apply (HC fb').
Qed.

Lemma appendRow_within ds : ∀ r j b m,
  builder r = Some b → within_row j m (fields b) →
  match appendRow r j ds with
  | Done r' => ∃ b', builder r' = Some b' ∧ within (S m) (fields b')
  | _ => True
  end.
Proof.
  induction ds as [|d ds IH]; intros r j b m Hb HW; cbn [appendRow].
  - exists b. split; [done|]. intros f Hf.
    apply list_elem_of_lookup in Hf as [k Hk].
    specialize (HW k f Hk). case_decide; lia.
  - unfold appendValue. rewrite Hb. unfold Field.
    destruct (fields b !! j) as [fb|] eqn:Hj; cbn [obind]; [|done].
    destruct (appendValue_field fb d) as [fb'| |] eqn:EA; cbn [obind]; try done.
    apply appendValue_field_push in EA as [c ->].
    apply (IH _ (S j) (set_Field b j (array.push c fb)) m); [reflexivity|].
    intros k f Hk. simpl in Hk.
    destruct (decide (k = j)) as [->|Hne].
    + rewrite list_lookup_insert_eq in Hk by (by eapply lookup_lt_Some).
      inversion Hk. subst f. simpl. rewrite length_app. simpl.
      specialize (HW j fb Hj). rewrite decide_False in HW by lia.
      rewrite decide_True by lia. lia.
    + rewrite list_lookup_insert_ne in Hk by done.
      specialize (HW k f Hk).
      repeat case_decide; lia.
Qed.

Section Bound.
Variable conv : ScanDest → sql.Value → error + ScanDest.

Lemma Next_loop_within n : ∀ i r cnt b m,
  builder r = Some b → within m (fields b) →
  match Next_loop conv n i r cnt with
  | Break r' _ => ∃ b', builder r' = Some b' ∧ within (m + n) (fields b')
  | _ => True
  end.
Proof.
  induction n as [|n IH]; intros i r cnt b m Hb HW; cbn [Next_loop].
  - exists b. rewrite Nat.add_0_r. done.
  - destruct (rows r) as [rs|]; [|done].
    destruct (sql.Next rs) as [more rs'].
    destruct more; cbn [negb].
    + destruct (Scan conv rs' _) as [e|dest]; [done|].
      cbn [rowDest set_rowDest].
      pose proof (appendRow_within dest
                    (set_rowDest dest (set_rows (Some rs') r)) 0%nat b m Hb)
        as HA.
      destruct (appendRow _ 0 dest) as [r1|r1 e|]; [|done|done].
      destruct HA as (b1 & Hb1 & HW1).
      { intros k f Hk. rewrite decide_False by lia.
        apply HW. by eapply list_elem_of_lookup_2. }
      specialize (IH (i + 1) r1 (cnt + 1) b1 (S m) Hb1 HW1).
      destruct (Next_loop conv n (i + 1) r1 (cnt + 1)); try done.
      destruct IH as (b' & Hb' & HW'). exists b'. split; [done|].
      replace (m + S n)%nat with (S m + n)%nat by lia. exact HW'.
    + destruct (i =? 0); [done|].
      exists b. split; [done|]. intros f Hf. specialize (HW f Hf). lia.
Qed.

Lemma NewRecord_loop_rows fs : ∀ i z h cols z' h',
  NewRecord_loop fs i z h = Ok (cols, z', h') →
  z' = z ∨ ∃ f, f ∈ fs ∧ z' = Z.of_nat (length (array.vals f)).
Proof.
  induction fs as [|f fs IH]; intros i z h cols z' h' HN.
  - simpl in HN. inversion HN. by left.
  - cbn [NewRecord_loop] in HN. unfold NewArray in HN.
    destruct (memory.alloc h) as [d h1]. cbn [col_vals] in HN.
    destruct ((0 <? i)%nat && negb (Z.of_nat (length (array.vals f)) =? z));
      [discriminate|].
    destruct (NewRecord_loop fs (S i) _ h1) as [[[cols1 z1] h2]| |] eqn:E1;
      simpl in HN; try discriminate.
    inversion HN. subst.
    destruct (IH _ _ _ _ _ _ E1) as [->|(f' & Hf' & ->)].
    + right. exists f. split; [by left | reflexivity].
    + right. exists f'. split; [by right | reflexivity].
Qed.

(** X11. The record a call of [Next] stores never has more rows than the
    batch size, whatever the cursor and the conversion do; and all its
    columns have its number of rows. *)
Theorem X11_no_batch_beyond_the_batch_size r h bl r' h' rec :
  err r = None → 0 < batchSize r →
  Next conv r h = Returned bl r' h' →
  record r' = Some rec →
  0 ≤ NumRows rec ≤ batchSize r ∧
  Forall (λ c, Z.of_nat (length (col_vals c)) = NumRows rec) (arrs rec).
Proof.
  intros Herr Hsize HN Hrec. unfold Next in HN. rewrite Herr in HN.
  pose proof (release_record_fields r h) as F1.
  destruct (release_record r h) as [r1 h1]. simpl in F1.
  destruct F1 as (_ & _ & _ & _ & B1 & _ & _ & Rec1).
  pose proof (renew_builder_fields r1 h1) as F2.
  destruct (renew_builder_builder r1 h1) as (b2 & Hb2 & _ & _ & Hfs).
  destruct (renew_builder r1 h1) as [r2 h2]. simpl in F2, Hb2.
  destruct F2 as (_ & _ & _ & _ & B2 & Rec2 & _).
  pose proof (Next_loop_frame conv (Z.to_nat (batchSize r2)) 0 r2 0) as HF.
  pose proof (Next_loop_within (Z.to_nat (batchSize r2)) 0 r2 0 b2 0 Hb2) as HW.
  destruct (Next_loop conv _ 0 r2 0) as [r3|r3 k|]; [| |discriminate].
  - inversion HN. subst. destruct HF as [HR _]. congruence.
  - destruct HF as [HR _]. destruct HW as (b3 & Hb3 & HW).
    { rewrite Hfs. intros f Hf. apply list_elem_of_fmap in Hf as (x & -> & _).
      simpl. lia. }
    unfold finish in HN. destruct (0 <? k); [|inversion HN; subst; congruence].
    rewrite Hb3 in HN.
    destruct (NewRecord b3 h2) as [[[rec0 b'] h0]| |] eqn:EN; try discriminate.
    destruct (NewRecord_wf _ _ _ _ _ EN) as [[Hnn Hlen] _].
    assert (Hrec0 : rec0 = rec).
    { cbn [rows set_builder set_record] in HN.
      destruct (rows r3) as [rs|]; [|discriminate].
      destruct (sql.Err rs); inversion HN; subst; simpl in Hrec; congruence. }
    subst rec0. split; [|exact Hlen]. split; [exact Hnn|].
    unfold NewRecord in EN.
    destruct (NewRecord_loop (fields b3) 0 0 h2) as [[[cols z] h3]| |] eqn:EL;
      simpl in EN; try discriminate.
    inversion EN. subst. unfold NumRows. simpl.
    destruct (NewRecord_loop_rows _ _ _ _ _ _ _ EL) as [->|(f & Hf & ->)];
      [lia|].
    specialize (HW f Hf). simpl in HW. lia.
Qed.
End Bound.

(** ** The prior record is freed *)

Lemma refcount_foldr_notin cs : ∀ h d,
  d ∉ map data cs →
  memory.refcount (foldr (λ c, memory.Release (data c)) h cs) d
  = memory.refcount h d.
Proof.
  induction cs as [|c cs IH]; intros h d Hd; [reflexivity|].
  simpl. rewrite refcount_Release. simpl in Hd.
  apply not_elem_of_cons in Hd as [Hne Hd].
  rewrite decide_False by congruence. by apply IH.
Qed.

Lemma refcount_foldr_free cs : ∀ h,
  NoDup (map data cs) →
  (∀ d, d ∈ map data cs → memory.refcount h d = 1%nat) →
  ∀ d, d ∈ map data cs →
       memory.refcount (foldr (λ c, memory.Release (data c)) h cs) d = 0%nat.
Proof.
  induction cs as [|c cs IH]; intros h ND H1 d Hd; [by apply elem_of_nil in Hd|].
  simpl in *. apply NoDup_cons in ND as [Hnotin ND].
  rewrite refcount_Release.
  case_decide as Hc.
  - subst d. rewrite refcount_foldr_notin by done.
    rewrite H1 by (by left). reflexivity.
  - apply elem_of_cons in Hd as [Hd|Hd]; [congruence|].
    apply IH; [done | | done]. intros d' Hd'. apply H1. by right.
Qed.

Lemma NewRecord_loop_old fs : ∀ i z h cols z' h',
  NewRecord_loop fs i z h = Ok (cols, z', h') →
  ∀ d, (d < memory.next_data h)%nat →
       memory.refcount h' d = memory.refcount h d.
Proof.
  induction fs as [|f fs IH]; intros i z h cols z' h' HN d Hd.
  - simpl in HN. inversion HN. reflexivity.
  - cbn [NewRecord_loop] in HN. unfold NewArray, memory.alloc in HN.
    cbn [col_vals] in HN.
    destruct ((0 <? i)%nat && negb (Z.of_nat (length (array.vals f)) =? z));
      [discriminate|].
    match type of HN with
    | context [NewRecord_loop fs ?i1 ?z1 ?h1] =>
        destruct (NewRecord_loop fs i1 z1 h1) as [[[cols1 z1'] h2]| |] eqn:E1;
          simpl in HN; try discriminate
    end.
    inversion HN. subst.
    rewrite (IH _ _ _ _ _ _ E1 d) by (simpl; lia).
    unfold memory.refcount. simpl. rewrite lookup_insert_ne by lia.
    reflexivity.
Qed.

Section Freed.
Variable conv : ScanDest → sql.Value → error + ScanDest.

(** X12. When nobody but the reader holds the column data of the current
    record, the next call of [Next] that gets past the error check frees it:
    none of its columns is readable afterwards. *)
Theorem X12_Next_frees_an_unshared_record r h rec bl r' h' :
  err r = None →
  record r = Some rec →
  NoDup (datas rec) →
  (∀ d, d ∈ datas rec →
        memory.refcount h d = 1%nat ∧ (d < memory.next_data h)%nat) →
  Next conv r h = Returned bl r' h' →
  ∀ d, d ∈ datas rec → ¬ memory.readable h' d.
Proof.
  intros Herr Hrec ND Hone HN d Hd. unfold memory.readable.
  enough (memory.refcount h' d = 0%nat) by lia.
  unfold Next in HN. rewrite Herr in HN.
  assert (H1 : memory.refcount (release_record r h).2 d = 0%nat ∧
               memory.next_data (release_record r h).2 = memory.next_data h).
  { split; [|apply release_record_next_data].
    unfold release_record. rewrite Hrec. simpl. unfold records.Release.
    apply refcount_foldr_free; try done. intros d' Hd'. by apply Hone. }
  destruct (release_record r h) as [r1 h1]. simpl in H1.
  destruct H1 as [H1 N1].
  pose proof (renew_builder_heap r1 h1) as (E2 & N2 & _).
  destruct (renew_builder r1 h1) as [r2 h2]. simpl in E2, N2.
  assert (H2 : memory.refcount h2 d = 0%nat).
  { unfold memory.refcount in *. rewrite E2. exact H1. }
  destruct (Next_loop conv _ 0 r2 0) as [r3|r3 k|]; [| |discriminate].
  - inversion HN. subst. exact H2.
  - unfold finish in HN. destruct (0 <? k); [|inversion HN; subst; exact H2].
    destruct (builder r3) as [b|]; [|discriminate].
    destruct (NewRecord b h2) as [[[rec0 b'] h0]| |] eqn:EN; try discriminate.
    unfold NewRecord in EN.
    destruct (NewRecord_loop (fields b) 0 0 h2) as [[[cols z] h3]| |] eqn:EL;
      simpl in EN; try discriminate.
    assert (h0 = h3) by congruence. subst h0.
    assert (h' = h3).
    { cbn [rows set_builder set_record] in HN.
      destruct (rows r3) as [rs|]; [|discriminate].
      destruct (sql.Err rs); inversion HN; reflexivity. }
    subst h'.
    rewrite (NewRecord_loop_old _ _ _ _ _ _ _ EL d); [exact H2|].
    destruct (Hone d Hd). lia.
Qed.
End Freed.

(** ** Errors in the middle of a batch *)

Lemma appendValue_field_err fb d e :
  appendValue_field {| array.kind := array.kind fb; array.vals := [] |} d
    = Err e →
  appendValue_field fb d = Err e.
Proof.
  destruct fb as [k vs].
  destruct d as
    [[?|]|[] ?|[?|]|[?|]|[] ?|[?|]|[?|]|[] ?|[?|]|[?|]|[] ?|[?|]|[?|]|[] ?
    |[?|]|[?|]|[] ?|[?|]|[] ?|[[?|]|]|[?|]|[] ?|[[[]|]|]|?|?|?];
    cbn [appendValue_field appendDynamicValue negb array.kind array.vals];
    unfold appendTimeValue, Append, AppendNull, array.push;
    cbn [array.kind array.vals];
    destruct k; repeat case_decide; try discriminate; try congruence;
    try (intros H; exact H).
Qed.

Lemma appendRow_first_error ds : ∀ r b pre fs j e,
  builder r = Some b →
  fields b = pre ++ fs →
  first_error (length pre) (map array.kind fs) ds = Some (j, e) →
  ∃ r', appendRow r (length pre) ds =
          Failed r' (errors.Wrapf e errors.CodeInternal
                       "failed to append value for column " j) ∧
        rows r' = rows r ∧ record r' = record r ∧ err r' = err r.
Proof.
  induction ds as [|d ds IH]; intros r b pre fs j e Hb Hf HE.
  - destruct fs; simpl in HE; discriminate.
  - destruct fs as [|f fs]; simpl in HE; [discriminate|].
    cbn [appendRow]. unfold appendValue. rewrite Hb. unfold Field.
    rewrite Hf, list_lookup_middle by reflexivity. cbn [obind].
    pose proof (appendValue_field_cell f d) as Hcell. unfold cell_of in Hcell.
    destruct (appendValue_field {| array.kind := array.kind f;
                                   array.vals := [] |} d)
      as [fb1|e1|] eqn:E0; [| |discriminate].
    + destruct (head (array.vals fb1)) as [c|] eqn:Hh.
      * rewrite Hcell. cbn [obind].
        set (r1 := set_builder _ r).
        destruct (IH r1 (set_Field b (length pre) (array.push c f))
                    (pre ++ [array.push c f]) fs j e) as (r' & HA & H1 & H2 & H3).
        { reflexivity. }
        { simpl. rewrite Hf, insert_app_r_alt by lia.
          rewrite Nat.sub_diag. simpl. rewrite <- app_assoc. reflexivity. }
        { rewrite length_app. simpl.
          replace (length pre + 1)%nat with (S (length pre)) by lia. exact HE. }
        rewrite length_app in HA. simpl in HA.
        replace (length pre + 1)%nat with (S (length pre)) in HA by lia.
        exists r'. split; [exact HA|]. done.
      * exfalso.
        destruct (appendValue_field_push _ _ _ E0) as [c ->].
        simpl in Hh. discriminate.
    + inversion HE. subst.
      rewrite (appendValue_field_err f d e E0). cbn [obind].
      exists r. done.
Qed.

Section Errors.
Variable conv : ScanDest → sql.Value → error + ScanDest.

Lemma Next_loop_skip pre : ∀ n r i cnt rs b rest cells ds',
  rows r = Some rs → sql.closed rs = false →
  sql.pending rs = pre ++ rest →
  builder r = Some b →
  convert_rows conv (map array.kind (fields b)) (rowDest r) pre
    = Some (cells, ds') →
  ∃ r1 rs1,
    Next_loop conv (length pre + n) i r cnt =
      Next_loop conv n (i + Z.of_nat (length pre)) r1
        (cnt + Z.of_nat (length pre)) ∧
    loop_post r r1 b cells ds' rs1 ∧
    sql.pending rs1 = rest ∧ sql.closed rs1 = false ∧
    sql.ending rs1 = sql.ending rs.
Proof.
  induction pre as [|row pre IH];
    intros n r i cnt rs b rest cells ds' Hr Hc Hp Hb Hconv.
  - simpl in Hconv. inversion Hconv. subst.
    exists r, rs. simpl. rewrite !Z.add_0_r.
    split; [reflexivity|]. split; [by apply loop_post_refl|]. done.
  - apply convert_rows_cons in Hconv
      as (ds1 & cs & cells2 & HL & HS & HC & Hrest & ->).
    simpl in Hp. simpl length. simpl Nat.add.
    rewrite (Next_loop_step conv (length pre + n) i r cnt rs b row
               (pre ++ rest) ds1 cs) by done.
    destruct (row_cells_length _ _ _ HC) as [HL1 HL2].
    rewrite length_map in HL2.
    set (b1 := with_fields b (add_row (fields b) cs)).
    set (r1 := set_builder (Some b1) _).
    destruct (IH n r1 (i + 1) (cnt + 1) (fetched rs row (pre ++ rest)) b1
                rest cells2 ds')
      as (r' & rs' & HN & HP & Hpend & Hcl & Hend); try reflexivity.
    { simpl. rewrite add_row_kinds by done. exact Hrest. }
    exists r', rs'. rewrite HN.
    split; [f_equal; lia|].
    split; [by apply (loop_post_step r r' b cs cells2 ds1 ds'
                        (fetched rs row (pre ++ rest)) rs')|].
    done.
Qed.

(** X13. When a row fails to scan, after rows of the same call that were
    appended, [Next] returns false with the scan's error wrapped as
    [QueryFailed]; the rows before it are dropped with the builder: no record
    is stored. *)
Theorem X13_scan_error_ends_the_call r h rs pre bad rest cells ds1 e :
  err r = None → rows r = Some rs → sql.closed rs = false →
  sql.pending rs = pre ++ bad :: rest →
  (length pre < Z.to_nat (batchSize r))%nat →
  convert_rows conv (kinds_of (schema r)) (rowDest r) pre = Some (cells, ds1) →
  Scan conv (fetched rs bad rest) ds1 = inl e →
  ∃ r' h',
    Next conv r h = Returned false r' h' ∧
    err r' = Some (errors.Wrap e errors.CodeQueryFailed "failed to scan row") ∧
    record r' = None ∧
    rows r' = Some (fetched rs bad rest).
Proof.
  intros Herr Hrows Hopen Hp Hlen Hconv Hscan.
  unfold Next. rewrite Herr.
  pose proof (release_record_fields r h) as F1.
  destruct (release_record r h) as [r1 h1]. simpl in F1.
  destruct F1 as (R1 & E1 & D1 & S1 & B1 & _ & _ & Rec1).
  pose proof (renew_builder_fields r1 h1) as F2.
  destruct (renew_builder_builder r1 h1) as (b2 & Hb2 & _ & _ & Hfs).
  destruct (renew_builder r1 h1) as [r2 h2]. simpl in F2, Hb2.
  destruct F2 as (R2 & E2 & D2 & S2 & B2 & Rec2 & _).
  assert (Hr2 : rows r2 = Some rs) by congruence.
  assert (Hc2 : convert_rows conv (map array.kind (fields b2)) (rowDest r2) pre
                = Some (cells, ds1)).
  { rewrite Hfs, fresh_kinds.
    replace (schema r1) with (schema r) by congruence.
    replace (rowDest r2) with (rowDest r) by congruence. exact Hconv. }
  assert (Hn : ∃ n, Z.to_nat (batchSize r2) = (length pre + S n)%nat).
  { exists (Z.to_nat (batchSize r2) - length pre - 1)%nat.
    replace (batchSize r2) with (batchSize r) by congruence. lia. }
  destruct Hn as [n ->].
  destruct (Next_loop_skip pre (S n) r2 0 0 rs b2 (bad :: rest) cells ds1
              Hr2 Hopen Hp Hb2 Hc2)
    as (r3 & rs3 & HN & (P1 & P2 & P3 & P4 & P5 & _) & Hp3 & Hc3 & He3).
  rewrite HN. cbn [Next_loop]. rewrite P1. unfold sql.Next. rewrite Hc3, Hp3.
  cbn [negb rowDest set_rows].
  assert (EF : {| sql.pending := rest; sql.ending := sql.ending rs3;
                  sql.lastcols := Some bad; sql.finished := false;
                  sql.closed := false |} = fetched rs bad rest).
  { unfold fetched. rewrite He3. reflexivity. }
  rewrite EF, P3, Hscan.
  eexists _, _. split; [reflexivity|]. simpl.
  split; [reflexivity|]. split; [congruence | reflexivity].
Qed.

(** X14. When a scanned row has a column whose append returns an error, the
    columns before it taking their cells, [Next] returns false with that
    error wrapped as [Internal] with the index of the column, and no record
    is stored. *)
Theorem X14_append_error_ends_the_call
    r h rs pre bad rest cells ds1 ds2 j e :
  err r = None → rows r = Some rs → sql.closed rs = false →
  sql.pending rs = pre ++ bad :: rest →
  (length pre < Z.to_nat (batchSize r))%nat →
  convert_rows conv (kinds_of (schema r)) (rowDest r) pre = Some (cells, ds1) →
  Scan conv (fetched rs bad rest) ds1 = inr ds2 →
  first_error 0 (kinds_of (schema r)) ds2 = Some (j, e) →
  ∃ r' h',
    Next conv r h = Returned false r' h' ∧
    err r' = Some (errors.Wrapf e errors.CodeInternal
                     "failed to append value for column " j) ∧
    record r' = None.
Proof.
  intros Herr Hrows Hopen Hp Hlen Hconv Hscan Hfirst.
  unfold Next. rewrite Herr.
  pose proof (release_record_fields r h) as F1.
  destruct (release_record r h) as [r1 h1]. simpl in F1.
  destruct F1 as (R1 & E1 & D1 & S1 & B1 & _ & _ & Rec1).
  pose proof (renew_builder_fields r1 h1) as F2.
  destruct (renew_builder_builder r1 h1) as (b2 & Hb2 & _ & _ & Hfs).
  destruct (renew_builder r1 h1) as [r2 h2]. simpl in F2, Hb2.
  destruct F2 as (R2 & E2 & D2 & S2 & B2 & Rec2 & _).
  assert (Hr2 : rows r2 = Some rs) by congruence.
  assert (Hk : map array.kind (fields b2) = kinds_of (schema r)).
  { rewrite Hfs, fresh_kinds. congruence. }
  assert (Hc2 : convert_rows conv (map array.kind (fields b2)) (rowDest r2) pre
                = Some (cells, ds1)).
  { rewrite Hk. replace (rowDest r2) with (rowDest r) by congruence.
    exact Hconv. }
  assert (Hn : ∃ n, Z.to_nat (batchSize r2) = (length pre + S n)%nat).
  { exists (Z.to_nat (batchSize r2) - length pre - 1)%nat.
    replace (batchSize r2) with (batchSize r) by congruence. lia. }
  destruct Hn as [n ->].
  destruct (Next_loop_skip pre (S n) r2 0 0 rs b2 (bad :: rest) cells ds1
              Hr2 Hopen Hp Hb2 Hc2)
    as (r3 & rs3 & HN & (P1 & P2 & P3 & P4 & P5 & _) & Hp3 & Hc3 & He3).
  rewrite HN. cbn [Next_loop]. rewrite P1. unfold sql.Next. rewrite Hc3, Hp3.
  cbn [negb rowDest set_rows].
  assert (EF : {| sql.pending := rest; sql.ending := sql.ending rs3;
                  sql.lastcols := Some bad; sql.finished := false;
                  sql.closed := false |} = fetched rs bad rest).
  { unfold fetched. rewrite He3. reflexivity. }
  rewrite EF, P3, Hscan. cbn [rowDest set_rowDest].
  assert (Hkinds : map array.kind (add_rows (fields b2) cells)
                   = kinds_of (schema r)).
  { destruct (convert_rows_lengths _ _ _ _ _ _ Hc2) as [Hcl _].
    destruct (add_rows_inv cells (fields b2) 0 []) as (_ & _ & I3 & _).
    - rewrite Hfs. apply Forall_map. apply Forall_true. done.
    - eapply Forall_impl; [exact Hcl|]. simpl. intros cs Hcs.
      rewrite Hcs, length_map. reflexivity.
    - reflexivity.
    - rewrite I3. exact Hk. }
  destruct (appendRow_first_error ds2
              (set_rowDest ds2 (set_rows (Some (fetched rs bad rest)) r3))
              (with_fields b2 (add_rows (fields b2) cells)) []
              (add_rows (fields b2) cells) j e)
    as (r4 & HA & A1 & A2 & A3).
  { exact P2. }
  { reflexivity. }
  { simpl. rewrite Hkinds. exact Hfirst. }
  simpl in HA. rewrite HA.
  eexists _, _. split; [reflexivity|]. simpl.
  split; [reflexivity|]. simpl in A2. congruence.
Qed.
End Errors.

(** ** Instances *)

Lemma X1_supported_columns_append_witness :
  ∃ c, appendValue_field (array.NewBuilder arrow.TIMESTAMP)
         (NullTime true one_pm) =
       Ok (array.push c (array.NewBuilder arrow.TIMESTAMP)).
Proof.
  apply (X1_supported_columns_append (field "t" arrow.TIMESTAMP true)
           (NullTime true one_pm)); reflexivity.
Defined.

Lemma X2_decimal_value_panics_witness :
  appendValue_field (array.NewBuilder arrow.DECIMAL) (PString (Some "1.50"))
  = Panic.
Proof.
  destruct (X2_decimal_value_panics (field "d" arrow.DECIMAL false) "1.50")
    as (_ & H & _); [left; reflexivity|]. exact H.
Defined.

Lemma X3_clock_units_witness :
  appendTimeValue {| array.kind := array.Time32Builder; array.vals := [] |}
    one_pm =
  Ok {| array.kind := array.Time32Builder;
        array.vals := [] ++ [array.VInt (seconds_since_midnight one_pm)] |} ∧
  seconds_since_midnight one_pm = 46800.
Proof.
  destruct (X3_clock_units one_pm []) as (_ & _ & H & _).
  { unfold time.valid. simpl. lia. }
  { vm_compute. split; discriminate || reflexivity. }
  split; [exact H | reflexivity].
Defined.

Lemma X4_epoch_units_witness :
  appendTimeValue
    {| array.kind := array.TimestampBuilder; array.vals := [] |} one_pm =
  Ok {| array.kind := array.TimestampBuilder;
        array.vals := [] ++ [array.VInt (micros_since_epoch one_pm)] |} ∧
  micros_since_epoch one_pm = 43200500000.
Proof.
  destruct (X4_epoch_units one_pm []) as (_ & H).
  { unfold time.valid. simpl. lia. }
  { vm_compute. split; [discriminate | reflexivity]. }
  split; [exact H | reflexivity].
Defined.

Lemma X5_date32_value_witness :
  appendTimeValue {| array.kind := array.Date32Builder; array.vals := [] |}
    before_epoch =
  Ok {| array.kind := array.Date32Builder;
        array.vals := [] ++ [array.VInt (-3 + 1)] |}.
Proof.
  apply (X5_date32_value before_epoch []). simpl. lia.
Defined.

Lemma X6_NewBatchReader_infers_the_schema_witness :
  NewBatchReader demo_field memory.empty (demo_columns ["BIGINT"; "VARCHAR"])
    (sql.open [] None) =
  inr (NewBatchReaderWithSchema memory.empty
         [field "n" arrow.INT64 true; field "s" arrow.STRING true]
         (sql.open [] None)).
Proof.
  apply (X6_NewBatchReader_infers_the_schema demo_field memory.empty
           (demo_columns ["BIGINT"; "VARCHAR"]) (sql.open [] None)
           ["BIGINT"; "VARCHAR"]);
    [reflexivity|].
  repeat constructor.
Defined.

Lemma X7_NewBatchReader_fails_at_the_first_bad_column_witness :
  NewBatchReader demo_field memory.empty
    (demo_columns ["BIGINT"; "GEOMETRY"; "VARCHAR"]) (sql.open [] None) =
  inl (errors.Wrapf (errors.Foreign "unsupported type: GEOMETRY")
         errors.CodeInternal "failed to convert column " 1,
       sql.Close (sql.open [] None)).
Proof.
  destruct (X7_NewBatchReader_fails_at_the_first_bad_column demo_field
              memory.empty (demo_columns ["BIGINT"; "GEOMETRY"; "VARCHAR"])
              (sql.open [] None) ["BIGINT"] "GEOMETRY" ["VARCHAR"]
              (errors.Foreign "unsupported type: GEOMETRY"))
    as (H & _); [reflexivity | | reflexivity | exact H].
  constructor; [|constructor]. eexists. reflexivity.
Defined.

Lemma X8_cleanup_at_the_last_release_witness :
  ∃ r2 h2,
    release_n 2 (Retain three_rows_reader.1) three_rows_reader.2 = (r2, h2) ∧
    rows r2 = None ∧ builder r2 = None ∧ record r2 = None.
Proof.
  destruct (X8_cleanup_at_the_last_release 1 (Retain three_rows_reader.1)
              three_rows_reader.2) as (_ & r2 & h2 & H1 & H2 & H3 & H4 & _);
    [reflexivity|].
  exists r2, h2. done.
Defined.

Lemma X9_use_after_cleanup_witness :
  ∃ h',
    Next convertAssign_basic
      (cleanup three_rows_reader.1 three_rows_reader.2).1
      (cleanup three_rows_reader.1 three_rows_reader.2).2 = Panicked h'.
Proof.
  destruct (X9_use_after_cleanup convertAssign_basic three_rows_reader.1
              three_rows_reader.2
              (cleanup three_rows_reader.1 three_rows_reader.2).2)
    as (_ & H); [reflexivity | reflexivity | exact H].
Defined.

Lemma X11_no_batch_beyond_the_batch_size_witness :
  0 ≤ NumRows base_record ≤ batchSize three_rows_reader.1.
Proof.
  refine (proj1 (X11_no_batch_beyond_the_batch_size convertAssign_basic
                   three_rows_reader.1 three_rows_reader.2 _ _ _ base_record
                   eq_refl eq_refl _ _));
    [vm_compute; reflexivity | reflexivity].
Defined.

Lemma X12_Next_frees_an_unshared_record_witness :
  ∃ bl r' h',
    Next convertAssign_basic (reader after_first_batch)
      (heap after_first_batch) = Returned bl r' h' ∧
    ∀ d, d ∈ datas base_record → ¬ memory.readable h' d.
Proof.
  eexists _, _, _. split; [vm_compute; reflexivity|].
  eapply (X12_Next_frees_an_unshared_record convertAssign_basic
            (reader after_first_batch) (heap after_first_batch) base_record
            true).
  - reflexivity.
  - reflexivity.
  - repeat constructor. intros H. inversion H.
  - intros d Hd. apply list_elem_of_singleton in Hd. subst d.
    split; [reflexivity | vm_compute; lia].
  - vm_compute. reflexivity.
Defined.

Lemma X13_scan_error_ends_the_call_witness :
  ∃ r' h',
    Next convertAssign_basic bad_scan_reader.1 bad_scan_reader.2
    = Returned false r' h' ∧
    err r' = Some (errors.Wrap (errors.Foreign "sql: unsupported Scan")
                     errors.CodeQueryFailed "failed to scan row") ∧
    record r' = None.
Proof.
  destruct (X13_scan_error_ends_the_call convertAssign_basic
              bad_scan_reader.1 bad_scan_reader.2
              (sql.open [[sql.Int64 1]; [sql.String_ "x"]; [sql.Int64 3]] None)
              [[sql.Int64 1]] [sql.String_ "x"] [[sql.Int64 3]]
              [[array.VInt 1]] [PInt64 (Some 1)]
              (errors.Foreign "sql: unsupported Scan"))
    as (r' & h' & H1 & H2 & H3 & _);
    [reflexivity | reflexivity | reflexivity | reflexivity | vm_compute; lia
    | reflexivity | reflexivity |].
  exists r', h'. done.
Defined.

Lemma X14_append_error_ends_the_call_witness :
  ∃ r' h',
    Next convertAssign_basic bad_append_reader.1 bad_append_reader.2
    = Returned false r' h' ∧
    err r' = Some (errors.Wrapf
                     (errors.New errors.CodeInternal
                        "unexpected builder type for time value")
                     errors.CodeInternal
                     "failed to append value for column " 0) ∧
    record r' = None.
Proof.
  apply (X14_append_error_ends_the_call convertAssign_basic
           bad_append_reader.1 bad_append_reader.2
           (sql.open [[sql.Nil]; [sql.Time_ one_pm]] None)
           [[sql.Nil]] [sql.Time_ one_pm] []
           [[array.Null]] [PInterface (Some None)]
           [PInterface (Some (Some (DTime one_pm)))] 0%nat);
    [reflexivity | reflexivity | reflexivity | reflexivity | vm_compute; lia
    | reflexivity | reflexivity | reflexivity].
Defined.

(** ** The cursor between calls *)

Section More.
Variable conv : ScanDest → sql.Value → error + ScanDest.

(** X15. A call of [Next] that reads [n] rows, all of which scan and append,
    leaves the cursor exactly these [n] rows further, with the destinations
    holding the last row; the cursor is closed exactly when the call has run
    into its end. *)
Theorem X15_cursor_advances_by_the_batch r h rs n cells ds' :
  err r = None → rows r = Some rs → sql.closed rs = false →
  schema r ≠ [] →
  n = (Z.to_nat (batchSize r) `min` length (sql.pending rs))%nat →
  (0 < n)%nat →
  convert_rows conv (kinds_of (schema r)) (rowDest r)
    (take n (sql.pending rs)) = Some (cells, ds') →
  ∃ bl r' h' rs',
    Next conv r h = Returned bl r' h' ∧
    rows r' = Some rs' ∧
    sql.pending rs' = drop n (sql.pending rs) ∧
    sql.ending rs' = sql.ending rs ∧
    rowDest r' = ds' ∧
    sql.closed rs' =
      negb (bool_decide (Z.to_nat (batchSize r) ≤ length (sql.pending rs))%nat).
Proof.
  intros Herr Hrows Hopen Hschema Hn Hpos Hconv.
  destruct (Next_batch conv r h rs n cells ds'
              Herr Hrows Hopen Hschema Hn Hpos Hconv)
    as (rec & r' & h' & rs' & HN & _ & _ & _ & _ & Hr' & Hd & _ & _ & Hp & He
        & Hcase).
  exists (bool_decide (err r' = None)), r', h', rs'.
  repeat split; try done.
  destruct (decide _) as [Hle|Hgt].
  - rewrite bool_decide_eq_true_2 by done. apply Hcase.
  - rewrite bool_decide_eq_false_2 by done. destruct Hcase as [-> _].
    reflexivity.
Qed.

(** X16. When every row of a clean cursor scans and appends, the batch size
    only cuts the rows into records: two readers without a recorded error
    over the same rows, with the same schema of at least one column and the
    same destinations, and with any two positive batch sizes, hand out the
    same rows in the same order, the cells of the cursor's rows.  (A row that
    fails to scan or append ends the call that reads it, and the rows of
    that call are dropped with it, so without the condition the batch size
    does decide which rows are handed out.) *)
Theorem X16_rows_do_not_depend_on_the_batch_size
    r1 h1 r2 h2 rws B1 B2 cells ds' fuel1 fuel2 :
  err r1 = None → err r2 = None →
  rows r1 = Some (sql.open rws None) → rows r2 = Some (sql.open rws None) →
  schema r1 = schema r2 → rowDest r1 = rowDest r2 → schema r1 ≠ [] →
  batchSize r1 = Z.of_nat B1 → batchSize r2 = Z.of_nat B2 →
  (0 < B1)%nat → (0 < B2)%nat →
  convert_rows conv (kinds_of (schema r1)) (rowDest r1) rws
    = Some (cells, ds') →
  (ceil_div (length rws) B1 < fuel1)%nat →
  (ceil_div (length rws) B2 < fuel2)%nat →
  ∃ bs1 bs2 r1' h1' r2' h2',
    drain conv fuel1 r1 h1 = Finished bs1 r1' h1' ∧
    drain conv fuel2 r2 h2 = Finished bs2 r2' h2' ∧
    concat (map record_rows bs1) = concat (map record_rows bs2) ∧
    concat (map record_rows bs1) = cells.
Proof.
  intros He1 He2 Hr1 Hr2 Hs Hd Hne Hb1 Hb2 HB1 HB2 Hconv Hf1 Hf2.
  destruct (drain_all conv B1 HB1 fuel1 r1 h1 (sql.open rws None) cells ds')
    as (bs1 & r1' & h1' & HD1 & _ & _ & HC1); try done.
  { by left. }
  destruct (drain_all conv B2 HB2 fuel2 r2 h2 (sql.open rws None) cells ds')
    as (bs2 & r2' & h2' & HD2 & _ & _ & HC2); try done.
  { by left. }
  { congruence. }
  { rewrite <- Hs, <- Hd. exact Hconv. }
  exists bs1, bs2, r1', h1', r2', h2'. repeat split; try done. congruence.
Qed.
End More.

Lemma X15_cursor_advances_by_the_batch_witness :
  ∃ bl r' h' rs',
    Next convertAssign_basic three_rows_reader.1 three_rows_reader.2
    = Returned bl r' h' ∧
    rows r' = Some rs' ∧
    sql.pending rs' = ids [3] ∧ sql.closed rs' = false.
Proof.
  destruct (X15_cursor_advances_by_the_batch convertAssign_basic
              three_rows_reader.1 three_rows_reader.2
              (sql.open (ids [1; 2; 3]) None) 2
              [[array.VInt 1]; [array.VInt 2]] [PInt64 (Some 2)])
    as (bl & r' & h' & rs' & H1 & H2 & H3 & _ & _ & H6);
    [reflexivity | reflexivity | reflexivity | discriminate | reflexivity
    | lia | reflexivity |].
  exists bl, r', h', rs'. done.
Defined.

Lemma X16_rows_do_not_depend_on_the_batch_size_witness :
  ∃ bs1 bs2 r1' h1' r2' h2',
    drain convertAssign_basic 3 three_rows_reader.1 three_rows_reader.2
    = Finished bs1 r1' h1' ∧
    drain convertAssign_basic 2
      (reader_over ids_schema (ids [1; 2; 3]) None 5).1
      (reader_over ids_schema (ids [1; 2; 3]) None 5).2
    = Finished bs2 r2' h2' ∧
    concat (map record_rows bs1) = concat (map record_rows bs2).
Proof.
  destruct (X16_rows_do_not_depend_on_the_batch_size convertAssign_basic
              three_rows_reader.1 three_rows_reader.2
              (reader_over ids_schema (ids [1; 2; 3]) None 5).1
              (reader_over ids_schema (ids [1; 2; 3]) None 5).2
              (ids [1; 2; 3]) 2 5
              [[array.VInt 1]; [array.VInt 2]; [array.VInt 3]]
              [PInt64 (Some 3)] 3 2)
    as (bs1 & bs2 & r1' & h1' & r2' & h2' & H1 & H2 & H3 & _);
    [reflexivity | reflexivity | reflexivity | reflexivity | reflexivity
    | reflexivity | discriminate | reflexivity | reflexivity | lia | lia
    | reflexivity | vm_compute; lia | vm_compute; lia |].
  exists bs1, bs2, r1', h1', r2', h2'. done.
Defined.

(** Without that condition the batch size does matter.  Over the rows 1, "x"
    and 3 of an INT64 column, a reader with batch size 1 hands out the row 1
    before the call that meets the string fails; with batch size 3 the row 1
    is read in the failing call, and nothing is handed out. *)
Lemma a_failing_row_makes_the_batch_size_matter :
  (∃ rec r' h',
     drain convertAssign_basic 3 (SetBatchSize bad_scan_reader.1 1)
       bad_scan_reader.2 = Finished [rec] r' h' ∧
     record_rows rec = [[array.VInt 1]]) ∧
  (∃ r' h',
     drain convertAssign_basic 3 bad_scan_reader.1 bad_scan_reader.2
     = Finished [] r' h').
Proof.
  split.
  - eexists _, _, _. split; [vm_compute; reflexivity | reflexivity].
  - eexists _, _. vm_compute. reflexivity.
Qed.
